(** * The simulation kernel of perfdevs ([perfdevs/sim.py])

    A shallow embedding of the DEVS simulation kernel: the shared clock, the
    atomic [Simulator], the sequential [Coordinator] with its drivers
    ([inject], [simulate], [simulate_time], [simulate_inf]) and the
    constructors of the parallel variants.

    Conventions of the embedding.
    - Python objects that are shared by reference (ports, the clock) live in
      a [World]; a port is named by its key in the port arena.
    - A method that mutates its receiver returns the new receiver.
    - A method that can raise returns a [result].  The methods of the user's
      atomic models are total functions: they return and do not raise.
    - Times are Python numbers.  In [num] a finite time is a Python [int],
      which is exact; the float values [inf], [-inf] and [nan] are there
      because the kernel uses them, and an integer that meets one of them
      is taken to be in the range of floats.  A finite float is no value of
      [num]: a statement over [num] is about the runs whose times are
      integers or infinities.  What rounding does to the sums of a
      coordinator when the times are finite floats is in [Rounded].
    - [logger.debug] leaves no trace, but its argument is evaluated;
      [logger.error] appends to the [errors] of the world. *)

From Stdlib Require Import PrimFloat.
From Stdlib Require Import ZArith Lia Bool.
From stdpp Require Import gmap strings list pretty.
From Equations Require Import Equations.

Open Scope Z_scope.

#[global] Set Warnings "-register-all".
#[global] Set Warnings "-inexact-float".

(** ** Python numbers used as times *)

(** A time: a Python [int] ([Fin z], exact at any size), or one of the
    floats [inf], [-inf] and [nan].  Finite floats are left out; what their
    rounding does to the sums of a coordinator is in [Rounded]. *)
Inductive num : Type :=
| Fin (z : Z)
| PInf
| NInf
| NaN.

#[global] Instance num_eq_dec : EqDecision num.
Proof. solve_decision. Defined.

(** Modelled from the spec: [INFINITY] of perfdevs/__init__.py, "a numeric
    value representing no further events", above every ordinary time: the
    float [inf]. *)
Definition INFINITY : num := PInf.

Module Num.

Definition is_finite (a : num) : bool :=
  match a with Fin _ => true | _ => false end.

Definition is_nan (a : num) : bool :=
  match a with NaN => true | _ => false end.

(** [a + b] *)
Definition add (a b : num) : num :=
  match a, b with
  | NaN, _ | _, NaN => NaN
  | Fin x, Fin y => Fin (x + y)
  | PInf, NInf | NInf, PInf => NaN
  | PInf, _ | _, PInf => PInf
  | NInf, _ | _, NInf => NInf
  end.

(** [-a] *)
Definition neg (a : num) : num :=
  match a with
  | Fin x => Fin (- x)
  | PInf => NInf
  | NInf => PInf
  | NaN => NaN
  end.

(** [a - b] *)
Definition sub (a b : num) : num := add a (neg b).

(** [a == b]: false as soon as one side is [nan]. *)
Definition eqb (a b : num) : bool :=
  match a, b with
  | Fin x, Fin y => x =? y
  | PInf, PInf | NInf, NInf => true
  | _, _ => false
  end.

(** [a != b] *)
Definition neb (a b : num) : bool := negb (eqb a b).

(** [a < b]: false as soon as one side is [nan]. *)
Definition ltb (a b : num) : bool :=
  match a, b with
  | NaN, _ | _, NaN => false
  | Fin x, Fin y => x <? y
  | NInf, NInf => false
  | NInf, _ => true
  | _, NInf => false
  | PInf, _ => false
  | _, PInf => true
  end.

(** [a <= b] *)
Definition leb (a b : num) : bool := ltb a b || eqb a b.

(** The builtin [min(l, default=d)]: the first element is the candidate, and
    a later item replaces the candidate when [item < candidate]. *)
Definition py_min (l : list num) (d : num) : num :=
  match l with
  | [] => d
  | x :: r => fold_left (fun cur item => if ltb item cur then item else cur) r x
  end.

End Num.

(** ** Exceptions *)

Inductive exn : Type :=
| OverflowError   (* "%d" of an infinite float *)
| ValueError      (* "%d" of nan *)
| AttributeError  (* [x.encode()] of a value that is not a [str] *)
| EOFError        (* [pickle.loads] ran out of input *)
| UnpicklingError (* [pickle.loads] refused its input *)
| TypeError.      (* a call with too many positional arguments *)

Inductive result (A : Type) : Type :=
| Ok (a : A)
| Raise (e : exn).
Arguments Ok {A} a.
Arguments Raise {A} e.

#[global] Instance result_ret : MRet result := fun A a => Ok a.
#[global] Instance result_bind : MBind result := fun A B f m =>
  match m with
  | Ok a => f a
  | Raise e => Raise e
  end.

Definition is_ok {A} (r : result A) : bool :=
  match r with Ok _ => true | Raise _ => false end.

(** ["%d" % a]: fine on an integer, [OverflowError] on an infinity,
    [ValueError] on [nan].  The format is evaluated before the logger sees
    it, whatever the logging level. *)
Definition percent_d (a : num) : result string :=
  match a with
  | Fin z => Ok (pretty z)
  | PInf | NInf => Raise OverflowError
  | NaN => Raise ValueError
  end.

(** ** Python values carried by ports *)

Inductive pyval : Type :=
| PyInt (z : Z)
| PyStr (s : string)
| PyList (l : list pyval).

(** ** Ports *)

Inductive Direction : Type := IN | OUT.

Module Port.

Record t : Type := mk {
  name : string;
  parent : string;       (* the name of the owning model *)
  direction : Direction;
  serve : bool;
  values : list pyval
}.

(** Modelled from the spec: [Port.extend(values)] of perfdevs/models.py,
    which appends to the buffer. *)
Definition extend (vs : list pyval) (p : t) : t :=
  mk (name p) (parent p) (direction p) (serve p) (values p ++ vs).

(** Modelled from the spec: [Port.clear()] of perfdevs/models.py, which
    empties the buffer. *)
Definition clear (p : t) : t :=
  mk (name p) (parent p) (direction p) (serve p) [].

(** [port.direction = d] *)
Definition set_direction (d : Direction) (p : t) : t :=
  mk (name p) (parent p) d (serve p) (values p).

Definition empty (p : t) : bool :=
  match values p with [] => true | _ => false end.

End Port.

(** The port arena: a port object is its key. *)
Abbreviation Ports := (gmap nat Port.t).

(** ** The world: what the processors of one simulation share *)

Record World : Type := mkWorld {
  clock : num;             (* SimulationClock.time *)
  ports : Ports;
  errors : list string     (* what logger.error was given *)
}.

Definition set_clock (t : num) (w : World) : World :=
  mkWorld t (ports w) (errors w).

Definition set_ports (p : Ports) (w : World) : World :=
  mkWorld (clock w) p (errors w).

Definition log_error (msg : string) (w : World) : World :=
  mkWorld (clock w) (ports w) (errors w ++ [msg]).

(** [for port in l: port.clear()] *)
Definition clear_ports (l : list nat) (p : Ports) : Ports :=
  fold_left (fun acc id => alter Port.clear id acc) l p.

(** ** Atomic models (the interface the kernel consumes) *)

Module Atomic.

(** The instance attributes of an atomic model that its methods may change. *)
Record Self : Type := mkSelf {
  sigma : num;
  attrs : gmap string pyval
}.

(** A user method: it sees and may change the attributes of its model and
    the ports. *)
Definition Method : Type := Self -> Ports -> Self * Ports.

(** The methods of a subclass of [Atomic]. *)
Record Class : Type := mkClass {
  m_initialize : Method;
  m_exit : Method;
  m_deltint : Method;
  m_deltext : num -> Method;
  m_deltcon : num -> Method;
  m_lambdaf : Method
}.

Record t : Type := mk {
  name : string;
  in_ports : list nat;
  out_ports : list nat;
  self : Self;
  class : Class
}.

Definition set_self (s : Self) (m : t) : t :=
  mk (name m) (in_ports m) (out_ports m) s (class m).

(** Modelled from the spec: the property [ta] of perfdevs/models.py, which
    is [sigma]. *)
Definition ta (m : t) : num := sigma (self m).

(** [model.sigma -= e] *)
Definition sub_sigma (e : num) (m : t) : t :=
  set_self (mkSelf (Num.sub (sigma (self m)) e) (attrs (self m))) m.

(** Modelled from the spec: [in_empty()] of perfdevs/models.py, true when
    every input port is empty. *)
Definition in_empty (m : t) (p : Ports) : bool :=
  forallb (fun id => match p !! id with
                     | Some port => Port.empty port
                     | None => true
                     end) (in_ports m).

(** Calling a method of the model. *)
Definition call (f : Method) (m : t) (w : World) : t * World :=
  let '(s', p') := f (self m) (ports w) in
  (set_self s' m, set_ports p' w).

Definition initialize (m : t) := call (m_initialize (class m)) m.
Definition exit (m : t) := call (m_exit (class m)) m.
Definition deltint (m : t) := call (m_deltint (class m)) m.
Definition deltext (e : num) (m : t) := call (m_deltext (class m) e) m.
Definition deltcon (e : num) (m : t) := call (m_deltcon (class m) e) m.
Definition lambdaf (m : t) := call (m_lambdaf (class m)) m.

End Atomic.

(** ** Simulator *)

Module Simulator.

Record t : Type := mk {
  model : Atomic.t;
  time_last : num;
  time_next : num
}.

(** [Simulator(model, clock)]: the times start at 0. *)
Definition __init__ (m : Atomic.t) : t := mk m (Fin 0) (Fin 0).

Definition ta (s : t) : num := Atomic.ta (model s).

Definition initialize (s : t) (w : World) : t * World :=
  let '(m', w') := Atomic.initialize (model s) w in
  let tl := clock w' in
  (mk m' tl (Num.add tl (Atomic.ta m')), w').

Definition exit (s : t) (w : World) : t * World :=
  let '(m', w') := Atomic.exit (model s) w in
  (mk m' (time_last s) (time_next s), w').

(** The tail of [deltfcn], after a transition. *)
Definition update_times (now : num) (mw : Atomic.t * World) : t * World :=
  (mk (fst mw) now (Num.add now (Atomic.ta (fst mw))), snd mw).

(** [deltfcn].  Its first statement formats the clock with ["%d"] for the
    debug log.  What the method returns ([None] or [self]) is not kept: the
    sequential coordinator drops it. *)
Definition deltfcn (s : t) (w : World) : result (t * World) :=
  _ ← percent_d (clock w);
  let now := clock w in
  let in_empty := Atomic.in_empty (model s) (ports w) in
  if in_empty then
    if Num.neb now (time_next s) then Ok (s, w)
    else Ok (update_times now (Atomic.deltint (model s) w))
  else
    let e := Num.sub now (time_last s) in
    let m := Atomic.sub_sigma e (model s) in
    if Num.eqb now (time_next s)
    then Ok (update_times now (Atomic.deltcon e m w))
    else Ok (update_times now (Atomic.deltext e m w)).

Definition lambdaf (s : t) (w : World) : t * World :=
  if Num.eqb (clock w) (time_next s) then
    let '(m', w') := Atomic.lambdaf (model s) w in
    (mk m' (time_last s) (time_next s), w')
  else (s, w).

Definition clear (s : t) (w : World) : World :=
  set_ports (clear_ports (Atomic.out_ports (model s))
               (clear_ports (Atomic.in_ports (model s)) (ports w))) w.

End Simulator.

(** ** Couplings and coupled models (the interface the kernel consumes) *)

Module Coupling.

Record t : Type := mk {
  port_from : nat;
  port_to : nat
}.

(** Modelled from the spec: [Coupling.propagate()] of perfdevs/models.py,
    which appends every value of the source port to the destination port. *)
Definition propagate (c : t) (p : Ports) : Ports :=
  match p !! port_from c with
  | Some src => alter (Port.extend (Port.values src)) (port_to c) p
  | None => p
  end.

End Coupling.

(** A coupling map ([eic], [ic], [eoc]): a dict from a source port to the
    list of its couplings, in insertion order. *)
Abbreviation Couplings := (list (nat * list Coupling.t)).

(** [for _, coups in d.items(): for coup in coups: coup.propagate()] *)
Definition propagate_all (d : Couplings) (p : Ports) : Ports :=
  fold_left (fun acc kv =>
               fold_left (fun acc' coup => Coupling.propagate coup acc')
                         (snd kv) acc) d p.

Module Coupled.

Inductive t : Type := mk {
  name : string;
  components : list (Atomic.t + t);
  in_ports : list nat;
  out_ports : list nat;
  eic : Couplings;
  ic : Couplings;
  eoc : Couplings;
  chain : bool
}.

End Coupled.

(** ** Iterating over child processors *)

(** [for x in l: x.method()] for a method that changes its receiver and the
    world. *)
Definition for_each {A} (f : A -> World -> A * World)
  : list A -> World -> list A * World :=
  fix go l w :=
    match l with
    | [] => ([], w)
    | a :: r =>
        let '(a', w1) := f a w in
        let '(r', w2) := go r w1 in
        (a' :: r', w2)
    end.

(** The same for a method that can raise: the first exception ends the loop. *)
Definition for_each_r {A} (f : A -> World -> result (A * World))
  : list A -> World -> result (list A * World) :=
  fix go l w :=
    match l with
    | [] => Ok ([], w)
    | a :: r =>
        match f a w with
        | Raise e => Raise e
        | Ok (a', w1) =>
            match go r w1 with
            | Raise e => Raise e
            | Ok (r', w2) => Ok (a' :: r', w2)
            end
        end
    end.

(** [list(map(f, l))] for an [f] that can raise. *)
Definition map_r {A B} (f : A -> result B) : list A -> result (list B) :=
  fix go l :=
    match l with
    | [] => Ok []
    | a :: r =>
        match f a with
        | Raise e => Raise e
        | Ok b => match go r with
                  | Raise e => Raise e
                  | Ok r' => Ok (b :: r')
                  end
        end
    end.

(** ** Positional arguments of a constructor call *)

Inductive pyarg : Type :=
| ArgNone
| ArgBool (b : bool)
| ArgClock       (* the SimulationClock of the world *)
| ArgExecutor.   (* a futures.Executor *)

Definition truthy (a : pyarg) : bool :=
  match a with
  | ArgNone => false
  | ArgBool b => b
  | ArgClock | ArgExecutor => true
  end.

(** Binding the positional arguments [args] to parameters that all have a
    default: too many arguments is a [TypeError]. *)
Definition bind_args (defaults args : list pyarg) : result (list pyarg) :=
  if (length args <=? length defaults)%nat
  then Ok (args ++ drop (length args) defaults)
  else Raise TypeError.

(** ** Coordinator *)

(** How the [port] argument of [inject] comes: a port name or a [Port]. *)
Inductive port_arg : Type :=
| PStr (name : string)
| PObj (id : nat).

Module Coordinator.

Inductive t : Type := mk {
  coordinators : list t;
  simulators : list Simulator.t;
  model : Coupled.t;
  time_last : num;
  time_next : num;
  ports_to_serve : gmap string nat
}.

Section Transforms.

(** [Coupled.flatten()] and [Coupled.to_chain()] of perfdevs/models.py are
    not part of the kernel: they are taken as given. *)
Variables flatten to_chain : Coupled.t -> Ports -> Coupled.t * Ports.

(** [for port in l: port.direction = d] *)
Definition set_directions (d : Direction) (l : list nat) (p : Ports) : Ports :=
  fold_left (fun acc id => alter (Port.set_direction d) id acc) l p.

(** The body of [__init__], once the arguments are bound. *)
Definition init (m : Coupled.t) (clock flatten_arg chain_arg : pyarg)
    (w : World) : t * World :=
  (* clock or SimulationClock() *)
  let w0 := if truthy clock then w else set_clock (Fin 0) w in
  let '(m1, p1) :=
    if truthy flatten_arg then flatten m (ports w0) else (m, ports w0) in
  let '(m2, p2) :=
    if truthy chain_arg then
      let '(m', p') := to_chain m1 p1 in
      (m', set_directions OUT (Coupled.in_ports m') p')
    else (m1, p1) in
  (mk [] [] m2 (Fin 0) (Fin 0) ∅, set_ports p2 w0).

(** [Coordinator(model, *args)]:
    [__init__(self, model, clock=None, flatten=False, chain=False)]. *)
Definition __init__ (m : Coupled.t) (args : list pyarg) (w : World)
  : result (t * World) :=
  bound ← bind_args [ArgNone; ArgBool false; ArgBool false] args;
  match bound with
  | [clock; flatten_arg; chain_arg] => Ok (init m clock flatten_arg chain_arg w)
  | _ => Raise TypeError
  end.

End Transforms.

(** [[proc.time_next for proc in self.processors]]: the coordinators come
    first, then the simulators. *)
Definition times (c : t) : list num :=
  map time_next (coordinators c) ++ map Simulator.time_next (simulators c).

Definition ta (c : t) (w : World) : num :=
  Num.sub (Num.py_min (times c) (Fin 0)) (clock w).

Definition propagate_output (m : Coupled.t) (w : World) : World :=
  if negb (Coupled.chain m)
  then set_ports (propagate_all (Coupled.eoc m)
                    (propagate_all (Coupled.ic m) (ports w))) w
  else w.

Definition propagate_input (m : Coupled.t) (w : World) : World :=
  if negb (Coupled.chain m)
  then set_ports (propagate_all (Coupled.eic m) (ports w)) w
  else w.

Fixpoint lambdaf (c : t) (w : World) : t * World :=
  match c with
  | mk cs ss m tl tn pts =>
      let '(cs', w1) := for_each lambdaf cs w in
      let '(ss', w2) := for_each Simulator.lambdaf ss w1 in
      (mk cs' ss' m tl tn pts, propagate_output m w2)
  end.

(** The end of [deltfcn]: [time_last] and [time_next] are recomputed from
    the clock and the children. *)
Definition update_times (c : t) (w : World) : t :=
  let tl := clock w in
  mk (coordinators c) (simulators c) (model c) tl (Num.add tl (ta c w))
     (ports_to_serve c).

Fixpoint deltfcn (c : t) (w : World) : result (t * World) :=
  match c with
  | mk cs ss m tl tn pts =>
      let w0 := propagate_input m w in
      match for_each_r deltfcn cs w0 with
      | Raise e => Raise e
      | Ok (cs', w1) =>
          match for_each_r Simulator.deltfcn ss w1 with
          | Raise e => Raise e
          | Ok (ss', w2) => Ok (update_times (mk cs' ss' m tl tn pts) w2, w2)
          end
      end
  end.

Fixpoint clear (c : t) (w : World) : World :=
  match c with
  | mk cs ss m _ _ _ =>
      let w1 := fold_left (fun acc c' => clear c' acc) cs w in
      let w2 := fold_left (fun acc s => Simulator.clear s acc) ss w1 in
      set_ports (clear_ports (Coupled.out_ports m)
                   (clear_ports (Coupled.in_ports m) (ports w2))) w2
  end.

(** [Coordinator(coupled, self.clock)]: with the defaults of [flatten] and
    [chain] the constructor leaves the model and the world as they are
    (see [init_with_clock]). *)
Definition fresh (m : Coupled.t) : t := mk [] [] m (Fin 0) (Fin 0) ∅.

Definition _add_coordinator (coupled : Coupled.t) (c : t) : t :=
  let coord := fresh coupled in
  mk (coordinators c ++ [coord]) (simulators c) (model c)
     (time_last c) (time_next c) (ports_to_serve coord ∪ ports_to_serve c).

Definition _add_simulator (atomic : Atomic.t) (p : Ports) (c : t) : t :=
  mk (coordinators c) (simulators c ++ [Simulator.__init__ atomic]) (model c)
     (time_last c) (time_next c)
     (fold_left (fun acc id =>
                   match p !! id with
                   | Some pts =>
                       if Port.serve pts
                       then <[Port.parent pts +:+ "." +:+ Port.name pts := id]> acc
                       else acc
                   | None => acc
                   end) (Atomic.in_ports atomic) (ports_to_serve c)).

(** One turn of the loop of [_build_hierarchy]. *)
Definition add_component (p : Ports) (c : t) (comp : Atomic.t + Coupled.t) : t :=
  match comp with
  | inr coupled => _add_coordinator coupled c
  | inl atomic => _add_simulator atomic p c
  end.

Definition _build_hierarchy (c : t) (p : Ports) : t :=
  fold_left (add_component p) (Coupled.components (model c)) c.

(** The measure under which [initialize] terminates: a child coordinator,
    whether it was there before or is built from a component of the model,
    weighs less than its parent. *)
Definition component_weight (model_weight : Coupled.t -> nat)
    (comp : Atomic.t + Coupled.t) : nat :=
  match comp with
  | inl _ => 0
  | inr sub => 2 + model_weight sub
  end.

Fixpoint model_weight (m : Coupled.t) : nat :=
  match m with
  | Coupled.mk _ comps _ _ _ _ _ _ =>
      sum_list_with (component_weight model_weight) comps
  end.

Fixpoint weight (c : t) : nat :=
  match c with
  | mk cs _ m _ _ _ => (1 + model_weight m + sum_list_with weight cs)%nat
  end.

(** [for_each] for a method that is only defined on the elements of the
    list. *)
Definition for_each_in {A} : forall (l : list A),
    (forall a, In a l -> World -> A * World) -> World -> list A * World :=
  fix go l :=
    match l with
    | [] => fun _ w => ([], w)
    | a :: r => fun f w =>
        let '(a', w1) := f a (or_introl eq_refl) w in
        let '(r', w2) := go r (fun x H => f x (or_intror H)) w1 in
        (a' :: r', w2)
    end.

Lemma build_hierarchy_children (p : Ports)
    (comps : list (Atomic.t + Coupled.t)) :
  forall c c',
    In c' (coordinators (fold_left (add_component p) comps c)) ->
    In c' (coordinators c)
    \/ exists sub, In (inr sub) comps /\ c' = fresh sub.
Proof.
  induction comps as [|comp r IH]; intros c c' Hin; simpl in *; [auto|].
  destruct (IH _ _ Hin) as [H|(sub & H1 & H2)].
  - destruct comp as [a|sub]; simpl in H; [auto|].
    apply in_app_or in H as [H|[<-|[]]]; eauto.
  - eauto.
Qed.

Lemma build_children_weight (c : t) (p : Ports) (c' : t) :
  In c' (coordinators (_build_hierarchy c p)) -> (weight c' < weight c)%nat.
Proof.
  intros Hin. apply build_hierarchy_children in Hin.
  destruct c as [cs ss m tl tn pts]. simpl in *.
  destruct Hin as [H|(sub & H & ->)].
  - apply list_elem_of_In in H.
    pose proof (sum_list_with_in _ weight _ H). lia.
  - apply list_elem_of_In in H. destruct m as [n comps ? ? ? ? ? ?].
    pose proof (sum_list_with_in _ (component_weight model_weight) _ H) as Hw.
    simpl in *. lia.
Qed.

Equations? initialize (c : t) (w : World) : t * World by wf (weight c) lt :=
initialize c w :=
  let built := _build_hierarchy c (ports w) in
  let '(cs, w1) :=
    for_each_in (coordinators built) (fun proc _ w' => initialize proc w') w in
  let '(ss, w2) := for_each Simulator.initialize (simulators built) w1 in
  (update_times (mk cs ss (model built) (time_last built) (time_next built)
                   (ports_to_serve built)) w2, w2).
Proof.
  eapply build_children_weight. eassumption.
Qed.

Fixpoint exit (c : t) (w : World) : t * World :=
  match c with
  | mk cs ss m tl tn pts =>
      let '(cs', w1) := for_each exit cs w in
      let '(ss', w2) := for_each Simulator.exit ss w1 in
      (mk cs' ss' m tl tn pts, w2)
  end.

(** The body shared by [inject] and the drivers:
    [lambdaf(); deltfcn(); clear(); clock.time = time_next]. *)
Definition cycle (c : t) (w : World) : result (t * World) :=
  let '(c1, w1) := lambdaf c w in
  '(c2, w2) ← deltfcn c1 w1;
  Ok (c2, set_clock (time_next c2) (clear c2 w2)).

Section Pickle.

(** [pickle.loads(s.encode())]: the deserializer of the environment. *)
Variable pickle_loads : string -> result pyval.

(** [pickle.loads(x.encode())]: only a [str] has [encode]. *)
Definition decode (x : pyval) : result pyval :=
  match x with
  | PyStr s => pickle_loads s
  | _ => Raise AttributeError
  end.

(** [if type(values) is not list: values = [values]] *)
Definition as_list (values : pyval) : list pyval :=
  match values with
  | PyList l => l
  | v => [v]
  end.

(** The last statement of [inject]: the time window. *)
Definition inject_at (c : t) (id : nat) (values : list pyval)
    (time e : num) (w : World) : result (bool * t * World) :=
  if Num.leb time (time_next c) || Num.neb time time then
    let w1 := set_ports (alter (Port.extend values) id (ports w)) w in
    '(c', w') ← cycle c (set_clock time w1);
    Ok (true, c', w')
  else
    a ← percent_d (time_last c);
    b ← percent_d e;
    Ok (false, c,
        log_error ("Time " +:+ a +:+ " - Input rejected: elapsed time "
                   +:+ b +:+ " is not in bounds") w).

Definition inject (c : t) (port : port_arg) (values : pyval) (e : num)
    (w : World) : result (bool * t * World) :=
  let time := Num.add (time_last c) e in
  let values := as_list values in
  match port with
  | PStr name =>
      values ← map_r decode values;
      match ports_to_serve c !! name with
      | Some id => inject_at c id values time e w
      | None =>
          Ok (true, c, log_error ("Port '" +:+ name +:+ "' not found") w)
      end
  | PObj id => inject_at c id values time e w
  end.

End Pickle.

(** A value together with the equation that it is the value of [x]. *)
Definition inspect {A : Type} (x : A) : {y : A | x = y} := exist _ x eq_refl.

(** The loop of [simulate]: [cont] counts the cycles done so far. *)
Equations? simulate_loop (num_iters cont : Z) (c : t) (w : World)
  : result (t * World) by wf (Z.to_nat (num_iters - cont)) lt :=
simulate_loop num_iters cont c w
    with inspect ((cont <? num_iters) && Num.ltb (clock w) INFINITY) := {
  | exist _ true Hcond with cycle c w := {
      | Ok (pair c' w') => simulate_loop num_iters (cont + 1) c' w'
      | Raise e => Raise e }
  | exist _ false Hcond => Ok (c, w) }.
Proof.
  apply andb_prop in Hcond as [Hlt _].
  apply Z.ltb_lt in Hlt. lia.
Qed.

Definition simulate (num_iters : Z) (c : t) (w : World) : result (t * World) :=
  simulate_loop num_iters 0 c (set_clock (time_next c) w).

(** The loop of [simulate_time].  Nothing in the source bounds the number
    of its turns: [fuel] does here, and [None] says that it ran out before
    the loop ended. *)
Fixpoint simulate_time_loop (fuel : nat) (tf : num) (c : t) (w : World)
    {struct fuel} : option (result (t * World)) :=
  if Num.ltb (clock w) tf then
    match fuel with
    | O => None
    | S k =>
        match cycle c w with
        | Ok (c', w') => simulate_time_loop k tf c' w'
        | Raise e => Some (Raise e)
        end
    end
  else Some (Ok (c, w)).

Definition simulate_time (fuel : nat) (time_interv : num) (c : t) (w : World)
  : option (result (t * World)) :=
  let w0 := set_clock (time_next c) w in
  let tf := Num.add (clock w0) time_interv in
  simulate_time_loop fuel tf c w0.

(** [simulate_inf], which does not move the clock before its loop; [fuel]
    as for [simulate_time]. *)
Fixpoint simulate_inf (fuel : nat) (c : t) (w : World) {struct fuel}
  : option (result (t * World)) :=
  if Num.neb (clock w) INFINITY then
    match fuel with
    | O => None
    | S k =>
        match cycle c w with
        | Ok (c', w') => simulate_inf k c' w'
        | Raise e => Some (Raise e)
        end
    end
  else Some (Ok (c, w)).

End Coordinator.

(** ** ParallelCoordinator (thread pool) *)

Module ParallelCoordinator.

Section Transforms.

Variables flatten to_chain : Coupled.t -> Ports -> Coupled.t * Ports.

(** [__init__(self, model, clock=None, flatten=False, chain=False,
    executor=None)], which calls
    [super().__init__(model, clock, flatten, chain)]. *)
Definition __init__ (m : Coupled.t) (args : list pyarg) (w : World)
  : result (Coordinator.t * World) :=
  bound ← bind_args [ArgNone; ArgBool false; ArgBool false; ArgNone] args;
  match bound with
  | [clock; flatten_arg; chain_arg; _] =>
      Coordinator.__init__ flatten to_chain m [clock; flatten_arg; chain_arg] w
  | _ => Raise TypeError
  end.

End Transforms.

(** A task [sim.deltfcn] given to [executor.submit]: it runs on a worker
    thread, and what it raises stays in its future, which nobody reads. *)
Definition run_task (s : Simulator.t) (w : World) : Simulator.t * World :=
  match Simulator.deltfcn s w with
  | Ok r => r
  | Raise _ => (s, w)
  end.

(** [deltfcn].  The class defines [_lambdaf], so [lambdaf] is the inherited
    sequential one; [deltfcn] is overridden.  It submits one task per
    simulator, but [add_task_to_pool] drops the future that [submit]
    returns, so [ex_futures] stays empty and the loop over
    [as_completed(ex_futures)] waits for nothing.  The schedule of the pool
    is the parameter [done]: the number of submitted tasks, in the order of
    submission, that have run when the driver thread goes on to recompute
    the times; the other tasks run after it has read them. *)
Fixpoint deltfcn (done : nat) (c : Coordinator.t) (w : World)
  : Coordinator.t * World :=
  match c with
  | Coordinator.mk cs ss m tl tn pts =>
      let w0 := Coordinator.propagate_input m w in
      let '(cs', w1) := for_each (deltfcn done) cs w0 in
      let '(early, w2) := for_each run_task (take done ss) w1 in
      let seen := Coordinator.mk cs' (early ++ drop done ss) m tl tn pts in
      let c' := Coordinator.update_times seen w2 in
      let '(late, w3) := for_each run_task (drop done ss) w2 in
      (Coordinator.mk cs' (early ++ late) m
         (Coordinator.time_last c') (Coordinator.time_next c') pts, w3)
  end.

End ParallelCoordinator.

(** ** ParallelProcessCoordinator (process pool) *)

Module ParallelProcessCoordinator.

Section Transforms.

Variables flatten to_chain : Coupled.t -> Ports -> Coupled.t * Ports.

(** [__init__(self, model, clock=None, flatten=False, chain=False,
    unroll=True, master=True)], which calls
    [super().__init__(model, clock, flatten, chain, unroll)] and then sets
    [self.master]. *)
Definition __init__ (m : Coupled.t) (args : list pyarg) (w : World)
  : result (Coordinator.t * pyarg * World) :=
  bound ← bind_args [ArgNone; ArgBool false; ArgBool false;
                     ArgBool true; ArgBool true] args;
  match bound with
  | [clock; flatten_arg; chain_arg; unroll; master] =>
      '(c, w') ← Coordinator.__init__ flatten to_chain m
                   [clock; flatten_arg; chain_arg; unroll] w;
      Ok (c, master, w')
  | _ => Raise TypeError
  end.

End Transforms.

End ParallelProcessCoordinator.

(** ** The counting helpers of the test suite ([tests/test_devstone.py]) *)

Module Utils.

(** [count_atomics]: the atomic components of a coupled model, at every
    depth.  (A component is atomic or coupled here, so the [RuntimeError] of
    the last branch has no counterpart.) *)
Fixpoint count_atomics (coupled : Coupled.t) : nat :=
  match coupled with
  | Coupled.mk _ comps _ _ _ _ _ _ =>
      sum_list_with (fun comp => match comp with
                                 | inl _ => 1%nat
                                 | inr sub => count_atomics sub
                                 end) comps
  end.

End Utils.

(** ** Calls with keyword arguments ([tests/test_devstone.py]) *)

(** The value that [kwargs] gives the keyword [k], if any. *)
Definition keyword (k : string) (kwargs : list (string * pyarg))
  : option pyarg :=
  snd <$> find (fun kv => String.eqb (fst kv) k) kwargs.

(** Binding a call [f(a1, ..., k1=v1, ...)] to the parameters [params], each
    with its name and its default: more positional arguments than
    parameters, a keyword that names no parameter, and a keyword that names
    a parameter already given by position, are each a [TypeError]. *)
Definition bind_call (params : list (string * pyarg)) (args : list pyarg)
    (kwargs : list (string * pyarg)) : result (list pyarg) :=
  if (length args <=? length params)%nat then
    let rest := drop (length args) params in
    if forallb (fun kv => existsb (fun p => String.eqb (fst p) (fst kv)) rest)
               kwargs
    then Ok (args ++ map (fun p => default (snd p) (keyword (fst p) kwargs))
                         rest)
    else Raise TypeError
  else Raise TypeError.

Module Devstone.

Section Transforms.

Variables flatten to_chain : Coupled.t -> Ports -> Coupled.t * Ports.

(** [Coordinator(model, a1, ..., k1=v1, ...)] *)
Definition construct (m : Coupled.t) (args : list pyarg)
    (kwargs : list (string * pyarg)) (w : World)
  : result (Coordinator.t * World) :=
  bound ← bind_call [("clock", ArgNone); ("flatten", ArgBool false);
                     ("chain", ArgBool false)] args kwargs;
  match bound with
  | [clock; flatten_arg; chain_arg] =>
      Ok (Coordinator.init flatten to_chain m clock flatten_arg chain_arg w)
  | _ => Raise TypeError
  end.

(** The construction in [test_behavior] of [TestLI] and of [TestHI]:
    [Coordinator(root, flatten=False, force_chain=False)]. *)
Definition test_behavior_coordinator (root : Coupled.t) (w : World)
  : result (Coordinator.t * World) :=
  construct root [] [("flatten", ArgBool false);
                     ("force_chain", ArgBool false)] w.

End Transforms.

End Devstone.

(** ** The sums of a coordinator in floating point *)

(** With times that are finite floats, the difference of line 167 and the
    sum of line 192 round.  The same two lines over binary64 floats, and
    the test of line 75. *)
Module Rounded.

(** The builtin [min(l, default=d)], as [Num.py_min]. *)
Definition py_min (l : list PrimFloat.float) (d : PrimFloat.float)
  : PrimFloat.float :=
  match l with
  | [] => d
  | x :: r =>
      fold_left (fun cur item => if PrimFloat.ltb item cur then item else cur)
                r x
  end.

(** [Coordinator.ta]:
    [min([proc.time_next for proc in self.processors], default=0)
     - self.clock.time] *)
Definition ta (times : list PrimFloat.float) (clock : PrimFloat.float)
  : PrimFloat.float :=
  PrimFloat.sub (py_min times PrimFloat.zero) clock.

(** The end of [Coordinator.deltfcn]:
    [self.time_last = self.clock.time;
     self.time_next = self.time_last + self.ta()].
    The result is [(time_last, time_next)]. *)
Definition update_times (times : list PrimFloat.float)
    (clock : PrimFloat.float) : PrimFloat.float * PrimFloat.float :=
  let time_last := clock in
  (time_last, PrimFloat.add time_last (ta times clock)).

(** The test of [Simulator.deltfcn] on a model with empty inputs:
    [t != self.time_next], on which it returns without a transition. *)
Definition not_due (clock time_next : PrimFloat.float) : bool :=
  negb (PrimFloat.eqb clock time_next).

End Rounded.

(** ** The driver loop *)

(** The loop of [simulate] over [Coordinator.cycle], with the number of
    turns left as its argument. *)
Fixpoint repeat_while_finite (n : nat) (c : Coordinator.t) (w : World)
  : result (Coordinator.t * World) :=
  match n with
  | O => Ok (c, w)
  | S k =>
      if Num.ltb (clock w) INFINITY then
        match Coordinator.cycle c w with
        | Ok (c', w') => repeat_while_finite k c' w'
        | Raise e => Raise e
        end
      else Ok (c, w)
  end.


(** ** Small models used to run the kernel *)

Module Examples.

Definition keep : Atomic.Method := fun s p => (s, p).

(** [hold_in(phase, x)]: the next internal event is [x] from now. *)
Definition hold_in (x : num) : Atomic.Method :=
  fun s p => (Atomic.mkSelf x (Atomic.attrs s), p).

(** A periodic model: an input does not disturb the running period. *)
Definition ticker (period : num) : Atomic.Class :=
  Atomic.mkClass keep keep (hold_in period)
    (fun _ => keep) (fun _ => hold_in period) keep.

(** A server: an input starts a job of [d] time units, then it is passive. *)
Definition server (d : num) : Atomic.Class :=
  Atomic.mkClass keep keep (hold_in INFINITY)
    (fun _ => hold_in d) (fun _ => hold_in d) keep.

(** [self.k += 1], for a counter [k] that starts at 0. *)
Definition bump (k : string) : Atomic.Method :=
  fun s p =>
    let n := match Atomic.attrs s !! k with
             | Some (PyInt n) => n
             | _ => 0
             end in
    (Atomic.mkSelf (Atomic.sigma s) (<[k := PyInt (n + 1)]> (Atomic.attrs s)),
     p).

(** [self.elapsed = e] *)
Definition note_elapsed (e : num) (s : Atomic.Self) : Atomic.Self :=
  match e with
  | Fin z => Atomic.mkSelf (Atomic.sigma s)
               (<["elapsed" := PyInt z]> (Atomic.attrs s))
  | _ => s
  end.

(** A model that counts its transitions, by kind, and notes the elapsed
    time that [deltext] is given. *)
Definition counting : Atomic.Class :=
  Atomic.mkClass keep keep (bump "int_count")
    (fun e s p => bump "ext_count" (note_elapsed e s) p)
    (fun _ => bump "con_count") keep.

(** A model that puts [v] on its output port [out] when its event is due,
    counts the internal transition and becomes passive. *)
Definition emitter (out : nat) (v : pyval) : Atomic.Class :=
  Atomic.mkClass keep keep
    (fun s p => hold_in INFINITY (fst (bump "int_count" s p)) p)
    (fun _ => keep) (fun _ => keep)
    (fun s p => (s, alter (Port.extend [v]) out p)).

(** Port 2 is the output of the emitter [A], port 3 the input of [B]. *)
Definition pipe_ports : Ports :=
  <[2%nat := Port.mk "o_out" "A" OUT false []]>
    (<[3%nat := Port.mk "i_in" "B" IN false []]> ∅).

(** [A] emits 42 at [due]; its output is coupled to the input of [B], a
    counting model whose own event is at [b_next]. *)
Definition pipe_A (due : num) : Simulator.t :=
  Simulator.mk
    (Atomic.mk "A" [] [2%nat] (Atomic.mkSelf due ∅) (emitter 2 (PyInt 42)))
    (Fin 0) due.

Definition pipe_B (b_next : num) : Simulator.t :=
  Simulator.mk
    (Atomic.mk "B" [3%nat] [] (Atomic.mkSelf b_next ∅) counting)
    (Fin 0) b_next.

Definition pipe (sims : list Simulator.t) (tn : num) : Coordinator.t :=
  Coordinator.mk [] sims
    (Coupled.mk "root" [] [] [] [] [(2%nat, [Coupling.mk 2 3])] [] false)
    (Fin 0) tn ∅.

(** The attributes of the simulator named [n] of a coordinator. *)
Definition attrs_of (n : string) (c : Coordinator.t)
  : option (gmap string pyval) :=
  match filter (fun s => bool_decide (Atomic.name (Simulator.model s) = n))
               (Coordinator.simulators c) with
  | s :: _ => Some (Atomic.attrs (Atomic.self (Simulator.model s)))
  | [] => None
  end.

Definition atomic (cls : Atomic.Class) (inp : list nat) (sigma : num)
  : Atomic.t :=
  Atomic.mk "a" inp [] (Atomic.mkSelf sigma ∅) cls.

(** Port 0 is the input of the root model, port 1 the input of its child. *)
Definition two_ports : Ports :=
  <[0%nat := Port.mk "i_in" "root" IN false []]>
    (<[1%nat := Port.mk "i_in" "a" IN true []]> ∅).

Definition world (t : num) : World := mkWorld t two_ports [].

(** A root model whose input (port 0) is coupled to port 1. *)
Definition root_model (chain : bool) (comps : list (Atomic.t + Coupled.t))
  : Coupled.t :=
  Coupled.mk "root" comps [0%nat] []
    [(0%nat, [Coupling.mk 0 1])] [] [] chain.

(** The root model over one atomic model, whose input is port 1. *)
Definition one_child (cls : Atomic.Class) (sigma : num) : Coupled.t :=
  root_model false [inl (atomic cls [1%nat] sigma)].

(** The coordinator of [one_child] with [time_last = tl] and the next event
    of the child at [tn], as [initialize] and the cycles leave it. *)
Definition coord1 (cls : Atomic.Class) (tl tn : num) : Coordinator.t :=
  Coordinator.mk []
    [Simulator.mk (atomic cls [1%nat] (Num.sub tn tl)) tl tn]
    (one_child cls (Num.sub tn tl)) tl tn {[ "a.i_in" := 1%nat ]}.

(** A coordinator over a model without components, as constructed. *)
Definition childless : Coordinator.t :=
  Coordinator.fresh (root_model false []).

(** What the examples look at after a cycle: the attributes of [A] and of
    [B], the ports and the clock. *)
Definition observe (r : result (Coordinator.t * World)) :=
  match r with
  | Ok (c, w) => Some (attrs_of "A" c, attrs_of "B" c, ports w, clock w)
  | Raise _ => None
  end.

(** A deserializer: it refuses the empty input and otherwise returns the
    text. *)
Definition loads (s : string) : result pyval :=
  match s with
  | EmptyString => Raise EOFError
  | _ => Ok (PyStr s)
  end.

(** [to_chain] that only marks the model as a chain. *)
Definition mark_chain (m : Coupled.t) (p : Ports) : Coupled.t * Ports :=
  (Coupled.mk (Coupled.name m) (Coupled.components m) (Coupled.in_ports m)
     (Coupled.out_ports m) (Coupled.eic m) (Coupled.ic m) (Coupled.eoc m)
     true, p).

Definition no_flatten (m : Coupled.t) (p : Ports) : Coupled.t * Ports :=
  (m, p).

End Examples.

(** ** Predicates on times, simulators and coordinators *)

(** No time of the list is [nan]. *)
Definition no_nan (l : list num) : Prop := Forall (fun x => Num.is_nan x = false) l.

(** A simulator is scheduled when [time_next = time_last + model.ta]. *)
Definition scheduled (s : Simulator.t) : Prop :=
  Simulator.time_next s
  = Num.add (Simulator.time_last s) (Atomic.ta (Simulator.model s)).

(** Between [lambdaf] and [deltfcn] of a cycle at time [t]: a simulator is
    scheduled, or its event is due (and its model has output). *)
Definition ready (t : num) (s : Simulator.t) : Prop :=
  scheduled s \/ Num.eqb t (Simulator.time_next s) = true.

(** A coordinator is at the minimum when [time_next] is what
    [min(times, default=0)] gives. *)
Definition at_min (c : Coordinator.t) : Prop :=
  Coordinator.time_next c = Num.py_min (Coordinator.times c) (Fin 0).

(** [P] holds of every simulator of the tree. *)
Inductive all_sims (P : Simulator.t -> Prop) : Coordinator.t -> Prop :=
| all_sims_node cs ss m tl tn pts :
    Forall P ss -> Forall (all_sims P) cs ->
    all_sims P (Coordinator.mk cs ss m tl tn pts).

(** [P] holds of every coordinator of the tree. *)
Inductive all_coords (P : Coordinator.t -> Prop) : Coordinator.t -> Prop :=
| all_coords_node c :
    P c -> Forall (all_coords P) (Coordinator.coordinators c) ->
    all_coords P c.


(** The port and the values that [inject] ends up with. *)
Definition resolves (pickle_loads : string -> result pyval)
    (c : Coordinator.t) (port : port_arg) (values : pyval)
    (id : nat) (vs : list pyval) : Prop :=
  match port with
  | PObj i => i = id /\ vs = Coordinator.as_list values
  | PStr name =>
      Coordinator.ports_to_serve c !! name = Some id
      /\ map_r (Coordinator.decode pickle_loads) (Coordinator.as_list values)
         = Ok vs
  end.

(** Every node of the tree has at most [n] simulators. *)
Definition sims_at_most (n : nat) : Coordinator.t -> Prop :=
  all_coords (fun c => (length (Coordinator.simulators c) <= n)%nat).



(** The number of simulators of the tree. *)
Fixpoint count_sims (c : Coordinator.t) : nat :=
  match c with
  | Coordinator.mk cs ss _ _ _ _ => (length ss + sum_list_with count_sims cs)%nat
  end.


(** ** The hierarchy of a coordinator *)

(** What a simulator is, its times and the attributes of its model apart:
    the name, the ports and the class of the model. *)
Definition atomic_frame (m : Atomic.t)
  : string * list nat * list nat * Atomic.Class :=
  (Atomic.name m, Atomic.in_ports m, Atomic.out_ports m, Atomic.class m).

(** The hierarchy under a coordinator, the times and the attributes of the
    models apart: at each node the coupled model, [ports_to_serve], the
    simulators and the child coordinators, in order. *)
Inductive Layout : Type :=
| LNode (model : Coupled.t) (served : gmap string nat)
        (sims : list (string * list nat * list nat * Atomic.Class))
        (subs : list Layout).

Fixpoint layout (c : Coordinator.t) : Layout :=
  match c with
  | Coordinator.mk cs ss m _ _ pts =>
      LNode m pts (map (fun s => atomic_frame (Simulator.model s)) ss)
            (map layout cs)
  end.

(** The ports of the models of a hierarchy. *)
Fixpoint layout_ports (l : Layout) : list nat :=
  match l with
  | LNode m _ sims subs =>
      concat (map layout_ports subs)
      ++ concat (map (fun f => snd (fst (fst f)) ++ snd (fst f)) sims)
      ++ Coupled.in_ports m ++ Coupled.out_ports m
  end.

Definition tree_ports (c : Coordinator.t) : list nat :=
  layout_ports (layout c).

(** [w'] is [w] with the ports of [l] cleared, and nothing else changed. *)
Definition swept (l : list nat) (w w' : World) : Prop :=
  clock w' = clock w /\ errors w' = errors w
  /\ forall id, ports w' !! id
                = if decide (id ∈ l) then Port.clear <$> ports w !! id
                  else ports w !! id.

(** Every port of the hierarchy is empty. *)
Definition drained (c : Coordinator.t) (w : World) : Prop :=
  forall id port,
    id ∈ tree_ports c -> ports w !! id = Some port -> Port.values port = [].

(** The times of a tree of processors. *)
Inductive Timetable : Type :=
| TNode (tl tn : num) (sims : list (num * num)) (subs : list Timetable).

Fixpoint timetable (c : Coordinator.t) : Timetable :=
  match c with
  | Coordinator.mk cs ss _ tl tn _ =>
      TNode tl tn
        (map (fun s => (Simulator.time_last s, Simulator.time_next s)) ss)
        (map timetable cs)
  end.

(** The atomic and the coupled components of a model, in order. *)
Definition atomic_components (m : Coupled.t) : list Atomic.t :=
  omap (fun comp => match comp with inl a => Some a | inr _ => None end)
       (Coupled.components m).

Definition coupled_components (m : Coupled.t) : list Coupled.t :=
  omap (fun comp => match comp with inl _ => None | inr sub => Some sub end)
       (Coupled.components m).

(** The key of a served port in [ports_to_serve]. *)
Definition served_name (port : Port.t) : string :=
  Port.parent port +:+ "." +:+ Port.name port.

(** The tree of processors mirrors the model: a coordinator per coupled
    component and a simulator per atomic component, in order. *)
Inductive mirrors : Coupled.t -> Coordinator.t -> Prop :=
| mirrors_node (c : Coordinator.t) :
    map (fun s => atomic_frame (Simulator.model s)) (Coordinator.simulators c)
    = map atomic_frame (atomic_components (Coordinator.model c)) ->
    Forall2 mirrors (coupled_components (Coordinator.model c))
            (Coordinator.coordinators c) ->
    mirrors (Coordinator.model c) c.

(** A time advance that is a number and not below every time: an integer
    or [INFINITY]. *)
Definition proper (x : num) : bool :=
  match x with
  | Fin _ | PInf => true
  | NInf | NaN => false
  end.

(** A method that leaves [sigma] an integer or [INFINITY] when it finds it
    so. *)
Definition keeps_proper (f : Atomic.Method) : Prop :=
  forall s p, proper (Atomic.sigma s) = true ->
              proper (Atomic.sigma (fst (f s p))) = true.

(** A class none of whose methods sets [sigma] to [-inf] or [nan]. *)
Record tame (cls : Atomic.Class) : Prop := mkTame {
  tame_initialize : keeps_proper (Atomic.m_initialize cls);
  tame_deltint : keeps_proper (Atomic.m_deltint cls);
  tame_deltext : forall e, keeps_proper (Atomic.m_deltext cls e);
  tame_deltcon : forall e, keeps_proper (Atomic.m_deltcon cls e);
  tame_lambdaf : keeps_proper (Atomic.m_lambdaf cls)
}.

Definition tame_atomic (a : Atomic.t) : Prop :=
  tame (Atomic.class a) /\ proper (Atomic.ta a) = true.

(** A simulator of a tame model between two cycles. *)
Definition sound (s : Simulator.t) : Prop :=
  tame_atomic (Simulator.model s)
  /\ Num.is_finite (Simulator.time_last s) = true
  /\ scheduled s.

(** The same between [lambdaf] and [deltfcn] of a cycle at time [t]. *)
Definition sound_at (t : num) (s : Simulator.t) : Prop :=
  tame_atomic (Simulator.model s)
  /\ Num.is_finite (Simulator.time_last s) = true
  /\ ready t s.

(** The atomic components of a model, at every depth. *)
Fixpoint atomics (m : Coupled.t) : list Atomic.t :=
  match m with
  | Coupled.mk _ comps _ _ _ _ _ _ =>
      flat_map (fun comp => match comp with
                            | inl a => [a]
                            | inr sub => atomics sub
                            end) comps
  end.

(** The state of the tree between two cycles of tame models. *)
Definition steady (c : Coordinator.t) : Prop :=
  all_sims sound c /\ all_coords at_min c.

(** A time advance that is not negative: a non-negative integer or
    [INFINITY]. *)
Definition nonneg (x : num) : bool :=
  match x with
  | Fin z => 0 <=? z
  | PInf => true
  | NInf | NaN => false
  end.

Definition keeps_nonneg (f : Atomic.Method) : Prop :=
  forall s p, nonneg (Atomic.sigma s) = true ->
              nonneg (Atomic.sigma (fst (f s p))) = true.

(** A class whose transitions leave [sigma] non-negative and whose output
    function leaves it as it is. *)
Record orderly (cls : Atomic.Class) : Prop := mkOrderly {
  orderly_initialize : keeps_nonneg (Atomic.m_initialize cls);
  orderly_deltint : keeps_nonneg (Atomic.m_deltint cls);
  orderly_deltext : forall e, keeps_nonneg (Atomic.m_deltext cls e);
  orderly_deltcon : forall e, keeps_nonneg (Atomic.m_deltcon cls e);
  orderly_lambdaf : forall s p,
    Atomic.sigma (fst (Atomic.m_lambdaf cls s p)) = Atomic.sigma s
}.

Definition orderly_atomic (a : Atomic.t) : Prop :=
  orderly (Atomic.class a) /\ nonneg (Atomic.ta a) = true.

(** A simulator of an orderly model whose next event is not before [t]. *)
Definition on_time (t : num) (s : Simulator.t) : Prop :=
  orderly_atomic (Simulator.model s)
  /\ Num.is_finite (Simulator.time_last s) = true
  /\ scheduled s
  /\ Num.leb t (Simulator.time_next s) = true.

(** Every coordinator of the tree has a child. *)
Definition populated : Coordinator.t -> Prop :=
  all_coords (fun c => Coordinator.times c <> []).

(** The coupled models of a model, itself included, at every depth. *)
Fixpoint submodels (m : Coupled.t) : list Coupled.t :=
  match m with
  | Coupled.mk _ comps _ _ _ _ _ _ =>
      m :: flat_map (fun comp => match comp with
                                 | inl _ => []
                                 | inr sub => submodels sub
                                 end) comps
  end.

(** The state of a tree of orderly models between two cycles: no event of
    a simulator is before [time_next] of the root, which is not before
    [time_last]. *)
Definition orderly_tree (c : Coordinator.t) : Prop :=
  all_sims (on_time (Coordinator.time_next c)) c
  /\ all_coords at_min c
  /\ populated c
  /\ Num.leb (Coordinator.time_last c) (Coordinator.time_next c) = true.

(** The loop of [_add_simulator] over the input ports of the model. *)
Definition serve_ports (p : Ports) (l : list nat) (acc : gmap string nat)
  : gmap string nat :=
  fold_left (fun acc id =>
               match p !! id with
               | Some pts =>
                   if Port.serve pts
                   then <[Port.parent pts +:+ "." +:+ Port.name pts := id]> acc
                   else acc
               | None => acc
               end) l acc.


(** A root model whose only component is the coupled model [one_child]:
    port 1, which is served, belongs to an atomic model one level down. *)
Definition nested_model : Coupled.t :=
  Coupled.mk "top" [inr (Examples.one_child (Examples.ticker (Fin 1)) (Fin 1))]
    [] [] [] [] [] false.

(** * Properties *)

(** ** Numbers *)

Lemma add_sub_finite (z : Z) (m : num) :
  Num.add (Fin z) (Num.sub m (Fin z)) = m.
Proof.
  destruct m; simpl; try reflexivity.
  f_equal. lia.
Qed.

Lemma add_zero_r (a : num) : Num.add a (Fin 0) = a.
Proof. destruct a; simpl; try reflexivity. f_equal. lia. Qed.

Lemma neb_self_nan (a : num) : Num.neb a a = Num.is_nan a.
Proof.
  destruct a; simpl; try reflexivity.
  unfold Num.neb. simpl. now rewrite Z.eqb_refl.
Qed.

(** ** Simulator.deltfcn *)

(** C1, at an infinite clock: the inputs are empty and the clock is at
    [time_next], where the claim has [deltint] invoked and the times
    updated, but [deltfcn] raises [OverflowError] out of its first
    statement. *)
Lemma C1_counterexample_infinite_clock :
  let s := Simulator.mk (Examples.atomic (Examples.ticker (Fin 1)) [] PInf)
             (Fin 0) PInf in
  let w := Examples.world PInf in
  Atomic.in_empty (Simulator.model s) (ports w) = true
  /\ Num.eqb (clock w) (Simulator.time_next s) = true
  /\ Simulator.deltfcn s w = Raise OverflowError.
Proof. repeat split. Qed.

(** C1 (amended to finite clock times): [deltfcn] at the clock time [t]
    applies the three-way rule.  With empty inputs it does nothing when
    [t != time_next] and calls [deltint] when [t == time_next]; with
    inputs it takes [e = t - time_last], lowers [sigma] by [e] and calls
    [deltcon(e)] when [t == time_next], [deltext(e)] otherwise; after a
    transition [time_last = t] and [time_next = t + ta]. *)
Theorem C1_deltfcn_three_way_rule (s : Simulator.t) (w : World) (z : Z) :
  clock w = Fin z ->
  let t := clock w in
  let e := Num.sub t (Simulator.time_last s) in
  let lowered := Atomic.sub_sigma e (Simulator.model s) in
  let after (mw : Atomic.t * World) :=
    Ok (Simulator.mk (fst mw) t (Num.add t (Atomic.ta (fst mw))), snd mw) in
  (Atomic.in_empty (Simulator.model s) (ports w) = true ->
     (Num.eqb t (Simulator.time_next s) = false ->
        Simulator.deltfcn s w = Ok (s, w))
     /\ (Num.eqb t (Simulator.time_next s) = true ->
        Simulator.deltfcn s w = after (Atomic.deltint (Simulator.model s) w)))
  /\ (Atomic.in_empty (Simulator.model s) (ports w) = false ->
     Atomic.sigma (Atomic.self lowered)
       = Num.sub (Atomic.sigma (Atomic.self (Simulator.model s))) e
     /\ (Num.eqb t (Simulator.time_next s) = true ->
        Simulator.deltfcn s w = after (Atomic.deltcon e lowered w))
     /\ (Num.eqb t (Simulator.time_next s) = false ->
        Simulator.deltfcn s w = after (Atomic.deltext e lowered w))).
Proof.
  intros Hfin. cbv zeta. unfold Simulator.deltfcn.
  rewrite Hfin. simpl percent_d. cbn [mbind result_bind].
  rewrite <- Hfin.
  split; intros Hin; rewrite Hin.
  - split; intros Heq; unfold Num.neb; rewrite Heq; reflexivity.
  - split; [reflexivity|].
    split; intros Heq; rewrite Heq; reflexivity.
Qed.

(** The confluent case on a model that counts its transitions: an input
    is on port 1 at clock 2, where the internal event is due.  [deltcon]
    alone is counted, [sigma] has gone from 2 to 0, and the times are
    [time_last = 2] and [time_next = 2 + 0]. *)
Lemma C1_witness_three_way_rule :
  let s := Simulator.mk (Examples.atomic Examples.counting [1%nat] (Fin 2))
             (Fin 0) (Fin 2) in
  let w := mkWorld (Fin 2)
             (alter (Port.extend [PyInt 42]) 1%nat Examples.two_ports) [] in
  Atomic.in_empty (Simulator.model s) (ports w) = false
  /\ Simulator.deltfcn s w
     = Ok (Simulator.mk
             (Atomic.mk "a" [1%nat] []
                (Atomic.mkSelf (Fin 0) {[ "con_count" := PyInt 1 ]})
                Examples.counting)
             (Fin 2) (Fin 2), w).
Proof.
  split; [reflexivity|].
  exact (proj1 (proj2 (proj2 (C1_deltfcn_three_way_rule
    (Simulator.mk (Examples.atomic Examples.counting [1%nat] (Fin 2))
       (Fin 0) (Fin 2))
    (mkWorld (Fin 2)
       (alter (Port.extend [PyInt 42]) 1%nat Examples.two_ports) [])
    2 eq_refl) eq_refl)) eq_refl).
Defined.

(** ** The builtin [min] *)

Lemma leb_refl (a : num) : Num.is_nan a = false -> Num.leb a a = true.
Proof.
  destruct a; simpl; intros H; try discriminate; try reflexivity.
  unfold Num.leb; simpl. rewrite Z.eqb_refl. apply orb_true_r.
Qed.

Lemma leb_trans (a b c : num) :
  Num.leb a b = true -> Num.leb b c = true -> Num.leb a c = true.
Proof.
  unfold Num.leb.
  destruct a, b, c; simpl; intros H1 H2; try discriminate; try reflexivity.
  apply orb_true_iff in H1, H2. apply orb_true_iff.
  rewrite Z.ltb_lt, Z.eqb_eq in *. lia.
Qed.

Lemma ltb_false_leb (a b : num) :
  Num.is_nan a = false -> Num.is_nan b = false ->
  Num.ltb a b = false -> Num.leb b a = true.
Proof.
  unfold Num.leb.
  destruct a, b; simpl; intros Ha Hb H; try discriminate; try reflexivity.
  apply orb_true_iff. rewrite Z.ltb_lt, Z.eqb_eq. apply Z.ltb_ge in H. lia.
Qed.

Lemma ltb_leb (a b : num) : Num.ltb a b = true -> Num.leb a b = true.
Proof. unfold Num.leb. intros ->. reflexivity. Qed.

(** The fold of [min] keeps a candidate that is an element and is below
    everything seen so far. *)
Lemma min_fold_spec (r : list num) (x : num) :
  Num.is_nan x = false -> no_nan r ->
  let m := fold_left (fun cur item => if Num.ltb item cur then item else cur) r x in
  Num.is_nan m = false /\ (m = x \/ In m r) /\ Num.leb m x = true
  /\ Forall (fun y => Num.leb m y = true) r.
Proof.
  revert x. induction r as [|y r IH]; intros x Hx Hr; simpl.
  - repeat split; auto using leb_refl.
  - inversion Hr as [|? ? Hy Hr']; subst.
    destruct (Num.ltb y x) eqn:Hlt.
    + destruct (IH y Hy Hr') as (Hn & Hmem & Hle & Hall).
      repeat split; auto.
      * destruct Hmem as [->|Hin]; auto.
      * eauto using leb_trans, ltb_leb.
    + destruct (IH x Hx Hr') as (Hn & Hmem & Hle & Hall).
      repeat split; auto.
      * destruct Hmem as [->|Hin]; auto.
      * constructor; auto.
        eapply leb_trans; [exact Hle|]. now apply ltb_false_leb.
Qed.

Lemma py_min_spec (l : list num) (d : num) :
  l <> [] -> no_nan l ->
  In (Num.py_min l d) l /\ Forall (fun y => Num.leb (Num.py_min l d) y = true) l.
Proof.
  destruct l as [|x r]; [congruence|]. intros _ Hl.
  inversion Hl as [|? ? Hx Hr]; subst. simpl.
  destruct (min_fold_spec r x Hx Hr) as (Hn & Hmem & Hle & Hall).
  split.
  - destruct Hmem as [->|Hin]; auto.
  - constructor; auto.
Qed.

(** ** Coordinator.ta *)

(** C4, without children: at clock 5 [ta()] is [0 - 5], where the claim
    has 0. *)
Lemma C4_counterexample_childless :
  Coordinator.times Examples.childless = []
  /\ Coordinator.ta Examples.childless (Examples.world (Fin 5)) = Fin (-5).
Proof. split; reflexivity. Qed.

(** C4 (amended): [ta()] is the minimum of the children's [time_next] minus
    [clock.time]: with children whose times are not [nan], that minimum is
    one of their times and is below all of them; without children [ta()]
    is [0 - clock.time]. *)
Theorem C4_ta_is_min_minus_clock (c : Coordinator.t) (w : World) :
  Coordinator.times c
    = map Coordinator.time_next (Coordinator.coordinators c)
      ++ map Simulator.time_next (Coordinator.simulators c)
  /\ (Coordinator.times c = [] ->
      Coordinator.ta c w = Num.sub (Fin 0) (clock w))
  /\ (Coordinator.times c <> [] -> no_nan (Coordinator.times c) ->
      exists m, In m (Coordinator.times c)
        /\ Forall (fun y => Num.leb m y = true) (Coordinator.times c)
        /\ Coordinator.ta c w = Num.sub m (clock w)).
Proof.
  split; [reflexivity|]. split.
  - intros H. unfold Coordinator.ta. rewrite H. reflexivity.
  - intros Hne Hnan.
    exists (Num.py_min (Coordinator.times c) (Fin 0)).
    destruct (py_min_spec _ (Fin 0) Hne Hnan) as [Hin Hall].
    repeat split; assumption.
Qed.

(** One child whose next event is at 5: at clock 3, [ta()] is [5 - 3]. *)
Lemma C4_witness_ta :
  exists m, In m [Fin 5]
    /\ Forall (fun y => Num.leb m y = true) [Fin 5]
    /\ Coordinator.ta (Examples.coord1 (Examples.ticker (Fin 5)) (Fin 0) (Fin 5))
         (Examples.world (Fin 3)) = Num.sub m (Fin 3).
Proof.
  refine (proj2 (proj2 (C4_ta_is_min_minus_clock
    (Examples.coord1 (Examples.ticker (Fin 5)) (Fin 0) (Fin 5))
    (Examples.world (Fin 3)))) _ _).
  - discriminate.
  - repeat constructor.
Defined.

(** ** ParallelProcessCoordinator.__init__ *)

Lemma bind_args_length (defaults args bound : list pyarg) :
  bind_args defaults args = Ok bound -> length bound = length defaults.
Proof.
  unfold bind_args.
  destruct (length args <=? length defaults)%nat eqn:Hle; [|discriminate].
  intros [= <-]. apply Nat.leb_le in Hle.
  rewrite length_app, length_drop. lia.
Qed.

(** C9: constructing a [ParallelProcessCoordinator] always fails: it gives
    [Coordinator.__init__] a fifth positional argument ([unroll]), and that
    one takes [model], [clock], [flatten] and [chain] only. *)
Theorem C9_process_coordinator_init_fails
    (flatten to_chain : Coupled.t -> Ports -> Coupled.t * Ports)
    (m : Coupled.t) (args : list pyarg) (w : World) :
  ParallelProcessCoordinator.__init__ flatten to_chain m args w = Raise TypeError.
Proof.
  unfold ParallelProcessCoordinator.__init__.
  destruct (bind_args _ args) as [bound|e] eqn:Hb.
  - apply bind_args_length in Hb. simpl in Hb.
    destruct bound as [|a1 [|a2 [|a3 [|a4 [|a5 [|a6 r]]]]]]; try discriminate.
    reflexivity.
  - unfold bind_args in Hb.
    destruct (_ <=? _)%nat; [discriminate|].
    injection Hb as <-. reflexivity.
Qed.

(** ** Induction over the tree of coordinators *)

Lemma coordinator_tree_ind (P : Coordinator.t -> Prop) :
  (forall cs ss m tl tn pts,
      Forall P cs -> P (Coordinator.mk cs ss m tl tn pts)) ->
  forall c, P c.
Proof.
  intros step. fix IH 1. intros [cs ss m tl tn pts].
  apply step.
  induction cs as [|c cs IHcs]; constructor.
  - apply IH.
  - exact IHcs.
Qed.

(** ** What the loops over children keep *)

Section Loops.

Context {A : Type}.

(** [for_each] keeps a property of the world that every call keeps. *)
Lemma for_each_keeps (Q : World -> Prop) (f : A -> World -> A * World)
    (l : list A) :
  Forall (fun a => forall w, Q w -> Q (snd (f a w))) l ->
  forall w, Q w -> Q (snd (for_each f l w)).
Proof.
  induction 1 as [|a r Ha _ IH]; intros w Hw; simpl; [exact Hw|].
  specialize (Ha w Hw). destruct (f a w) as [a' w1]. simpl in Ha.
  specialize (IH w1 Ha). destruct (for_each f r w1) as [r' w2]. exact IH.
Qed.

End Loops.

(** ** The clock is written by the drivers only *)

Lemma call_clock (f : Atomic.Method) (m : Atomic.t) (w : World) :
  clock (snd (Atomic.call f m w)) = clock w.
Proof.
  unfold Atomic.call. destruct (f _ _) as [s' p']. reflexivity.
Qed.

Lemma simulator_lambdaf_clock (s : Simulator.t) (w : World) :
  clock (snd (Simulator.lambdaf s w)) = clock w.
Proof.
  unfold Simulator.lambdaf. destruct (Num.eqb _ _); [|reflexivity].
  pose proof (call_clock (Atomic.m_lambdaf (Atomic.class (Simulator.model s)))
                (Simulator.model s) w) as H.
  unfold Atomic.lambdaf. destruct (Atomic.call _ _ _) as [m' w']. exact H.
Qed.

Lemma propagate_output_clock (m : Coupled.t) (w : World) :
  clock (Coordinator.propagate_output m w) = clock w.
Proof. unfold Coordinator.propagate_output. destruct (negb _); reflexivity. Qed.

Lemma propagate_input_clock (m : Coupled.t) (w : World) :
  clock (Coordinator.propagate_input m w) = clock w.
Proof. unfold Coordinator.propagate_input. destruct (negb _); reflexivity. Qed.

Lemma coordinator_lambdaf_clock (c : Coordinator.t) :
  forall w, clock (snd (Coordinator.lambdaf c w)) = clock w.
Proof.
  induction c as [cs ss m tl tn pts IH] using coordinator_tree_ind.
  intros w. simpl.
  assert (Hcs : clock (snd (for_each Coordinator.lambdaf cs w)) = clock w).
  { apply (for_each_keeps (fun w' => clock w' = clock w)); [|reflexivity].
    eapply Forall_impl; [exact IH|].
    intros c Hc w' Hw'. simpl in *. now rewrite Hc. }
  destruct (for_each Coordinator.lambdaf cs w) as [cs' w1]. simpl in Hcs.
  assert (Hss : clock (snd (for_each Simulator.lambdaf ss w1)) = clock w).
  { apply (for_each_keeps (fun w' => clock w' = clock w)); [|exact Hcs].
    apply Forall_forall. intros s _ w' Hw'.
    now rewrite simulator_lambdaf_clock. }
  destruct (for_each Simulator.lambdaf ss w1) as [ss' w2]. simpl in *.
  now rewrite propagate_output_clock.
Qed.

(** ** Loops over children, element by element *)

Section Elementwise.

Context {A : Type}.

Lemma for_each_Forall (Q : World -> Prop) (P P' : A -> Prop)
    (f : A -> World -> A * World) (l : list A) :
  Forall (fun a => P a -> forall w, Q w ->
            P' (fst (f a w)) /\ Q (snd (f a w))) l ->
  Forall P l -> forall w, Q w ->
  Forall P' (fst (for_each f l w)) /\ Q (snd (for_each f l w)).
Proof.
  induction 1 as [|a r Ha _ IH]; intros Hl w Hw; simpl; [auto|].
  inversion Hl as [|? ? Hpa Hpr]; subst.
  destruct (Ha Hpa w Hw) as [Ha' Hw1]. destruct (f a w) as [a' w1].
  simpl in *.
  destruct (IH Hpr w1 Hw1) as [Hr' Hw2].
  destruct (for_each f r w1) as [r' w2]. simpl in *.
  split; [constructor|]; assumption.
Qed.

Lemma for_each_r_Forall (Q : World -> Prop) (P P' : A -> Prop)
    (f : A -> World -> result (A * World)) (l : list A) :
  Forall (fun a => P a -> forall w, Q w ->
            exists a' w', f a w = Ok (a', w') /\ Q w' /\ P' a') l ->
  Forall P l -> forall w, Q w ->
  exists l' w', for_each_r f l w = Ok (l', w') /\ Q w' /\ Forall P' l'.
Proof.
  induction 1 as [|a r Ha _ IH]; intros Hl w Hw; simpl.
  - exists [], w. auto.
  - inversion Hl as [|? ? Hpa Hpr]; subst.
    destruct (Ha Hpa w Hw) as (a' & w1 & -> & Hw1 & Ha').
    destruct (IH Hpr w1 Hw1) as (r' & w2 & -> & Hw2 & Hr').
    exists (a' :: r'), w2. auto.
Qed.

End Elementwise.

(** ** One cycle at a finite clock *)

(** [deltfcn] of a simulator returns at a finite clock, and leaves a ready
    simulator scheduled. *)
Lemma simulator_deltfcn_finite (s : Simulator.t) (w : World) (z : Z) :
  clock w = Fin z ->
  exists s' w', Simulator.deltfcn s w = Ok (s', w')
    /\ clock w' = Fin z /\ (ready (Fin z) s -> scheduled s').
Proof.
  intros Hfin. unfold Simulator.deltfcn.
  rewrite Hfin. simpl percent_d. cbn [mbind result_bind].
  destruct (Atomic.in_empty _ _).
  - destruct (Num.neb _ _) eqn:Hne.
    + exists s, w. repeat split; auto.
      intros [H|H]; [exact H|].
      unfold Num.neb in Hne. rewrite H in Hne. discriminate.
    + pose proof (call_clock
        (Atomic.m_deltint (Atomic.class (Simulator.model s)))
        (Simulator.model s) w) as Hc.
      unfold Atomic.deltint. destruct (Atomic.call _ _ _) as [m' w'].
      exists (Simulator.mk m' (Fin z) (Num.add (Fin z) (Atomic.ta m'))), w'.
      simpl in *. repeat split; congruence.
  - set (e := Num.sub (Fin z) (Simulator.time_last s)).
    set (m := Atomic.sub_sigma e (Simulator.model s)).
    destruct (Num.eqb _ _).
    + pose proof (call_clock (Atomic.m_deltcon (Atomic.class m) e) m w) as Hc.
      unfold Atomic.deltcon. destruct (Atomic.call _ _ _) as [m' w'].
      exists (Simulator.mk m' (Fin z) (Num.add (Fin z) (Atomic.ta m'))), w'.
      simpl in *. repeat split; congruence.
    + pose proof (call_clock (Atomic.m_deltext (Atomic.class m) e) m w) as Hc.
      unfold Atomic.deltext. destruct (Atomic.call _ _ _) as [m' w'].
      exists (Simulator.mk m' (Fin z) (Num.add (Fin z) (Atomic.ta m'))), w'.
      simpl in *. repeat split; congruence.
Qed.


Lemma update_times_at_min (c : Coordinator.t) (w : World) (z : Z) :
  clock w = Fin z ->
  at_min (Coordinator.update_times c w)
  /\ Coordinator.time_last (Coordinator.update_times c w) = Fin z.
Proof.
  intros Hfin. unfold at_min, Coordinator.update_times, Coordinator.ta,
    Coordinator.times. simpl. rewrite Hfin.
  split; [apply add_sub_finite|reflexivity].
Qed.

Lemma all_sims_True (c : Coordinator.t) : all_sims (fun _ => True) c.
Proof.
  induction c as [cs ss m tl tn pts IH] using coordinator_tree_ind.
  constructor; [|exact IH].
  apply Forall_forall. auto.
Qed.

(** The phases of a cycle over the whole tree, for properties [R0] (before
    the cycle), [R] (between [lambdaf] and [deltfcn]) and [R'] (after
    [deltfcn]) of the simulators. *)
Section Phases.

Variable z : Z.
Variables R0 R R' : Simulator.t -> Prop.

Hypothesis lambdaf_phase : forall s w,
  clock w = Fin z -> R0 s -> R (fst (Simulator.lambdaf s w)).

Hypothesis deltfcn_phase : forall s w,
  clock w = Fin z ->
  exists s' w', Simulator.deltfcn s w = Ok (s', w')
    /\ clock w' = Fin z /\ (R s -> R' s').

Lemma coordinator_lambdaf_phase (c : Coordinator.t) :
  forall w, clock w = Fin z -> all_sims R0 c ->
  all_sims R (fst (Coordinator.lambdaf c w)).
Proof.
  induction c as [cs ss m tl tn pts IH] using coordinator_tree_ind.
  intros w Hfin Hall. inversion Hall as [? ? ? ? ? ? Hss Hcs]; subst. simpl.
  destruct (for_each_Forall (fun w' => clock w' = Fin z)
              (all_sims R0) (all_sims R)
              Coordinator.lambdaf cs) with (w := w) as [Hcs' Hw1]; auto.
  { eapply Forall_impl; [exact IH|]. intros c Hc Hp w' Hw'.
    split; [now apply Hc|]. now rewrite coordinator_lambdaf_clock. }
  destruct (for_each Coordinator.lambdaf cs w) as [cs' w1]. simpl in *.
  destruct (for_each_Forall (fun w' => clock w' = Fin z) R0 R
              Simulator.lambdaf ss) with (w := w1) as [Hss' Hw2]; auto.
  { apply Forall_forall. intros s _ Hp w' Hw'.
    split; [now apply lambdaf_phase|]. now rewrite simulator_lambdaf_clock. }
  destruct (for_each Simulator.lambdaf ss w1) as [ss' w2]. simpl in *.
  constructor; assumption.
Qed.

Lemma coordinator_deltfcn_phase (c : Coordinator.t) :
  forall w, clock w = Fin z -> all_sims R c ->
  exists c' w', Coordinator.deltfcn c w = Ok (c', w')
    /\ clock w' = Fin z
    /\ (all_sims R' c' /\ all_coords at_min c'
        /\ Coordinator.time_last c' = Fin z).
Proof.
  induction c as [cs ss m tl tn pts IH] using coordinator_tree_ind.
  intros w Hfin Hall. inversion Hall as [? ? ? ? ? ? Hss Hcs]; subst.
  simpl.
  assert (Hw0 : clock (Coordinator.propagate_input m w) = Fin z)
    by now rewrite propagate_input_clock.
  destruct (for_each_r_Forall (fun w => clock w = Fin z)
              (all_sims R)
              (fun c' => all_sims R' c' /\ all_coords at_min c'
                         /\ Coordinator.time_last c' = Fin z)
              Coordinator.deltfcn cs) with (w := Coordinator.propagate_input m w)
    as (cs' & w1 & -> & Hw1 & Hcs'); auto.
  { eapply Forall_impl; [exact IH|]. intros c Hc Hr w' Hw'. auto. }
  destruct (for_each_r_Forall (fun w => clock w = Fin z)
              R R' Simulator.deltfcn ss) with (w := w1)
    as (ss' & w2 & -> & Hw2 & Hss'); auto.
  { apply Forall_forall. intros s _ Hr w' Hw'.
    destruct (deltfcn_phase s w' Hw') as (s' & w'' & H1 & H2 & H3).
    exists s', w''. auto. }
  eexists _, w2. split; [reflexivity|]. split; [exact Hw2|].
  destruct (update_times_at_min (Coordinator.mk cs' ss' m tl tn pts) w2 z Hw2)
    as [Hmin Hlast].
  split; [|split].
  - unfold Coordinator.update_times. simpl.
    constructor; [exact Hss'|].
    eapply Forall_impl; [exact Hcs'|]. intros c H. apply H.
  - constructor; [exact Hmin|]. simpl.
    eapply Forall_impl; [exact Hcs'|]. intros c H. apply H.
  - exact Hlast.
Qed.

Lemma cycle_phase (c : Coordinator.t) (w : World) :
  clock w = Fin z -> all_sims R0 c ->
  exists c1 w1 c2 w2,
    Coordinator.lambdaf c w = (c1, w1)
    /\ Coordinator.deltfcn c1 w1 = Ok (c2, w2)
    /\ Coordinator.cycle c w
       = Ok (c2, set_clock (Coordinator.time_next c2) (Coordinator.clear c2 w2))
    /\ all_sims R' c2 /\ all_coords at_min c2
    /\ Coordinator.time_last c2 = Fin z.
Proof.
  intros Hfin Hall. unfold Coordinator.cycle.
  pose proof (coordinator_lambdaf_phase c w Hfin Hall) as Hready.
  pose proof (coordinator_lambdaf_clock c w) as Hclock.
  destruct (Coordinator.lambdaf c w) as [c1 w1]. simpl in *.
  rewrite Hfin in *.
  destruct (coordinator_deltfcn_phase c1 w1 Hclock Hready)
    as (c2 & w2 & Hd & _ & Hs & Hm & Hl).
  exists c1, w1, c2, w2. rewrite Hd.
  split; [reflexivity|]. split; [reflexivity|]. split; [reflexivity|].
  auto.
Qed.

End Phases.

(** A cycle at a finite clock returns. *)
Lemma cycle_returns (c : Coordinator.t) (w : World) (z : Z) :
  clock w = Fin z ->
  exists c1 w1 c2 w2,
    Coordinator.lambdaf c w = (c1, w1)
    /\ Coordinator.deltfcn c1 w1 = Ok (c2, w2)
    /\ Coordinator.cycle c w
       = Ok (c2, set_clock (Coordinator.time_next c2) (Coordinator.clear c2 w2))
    /\ all_coords at_min c2 /\ Coordinator.time_last c2 = Fin z.
Proof.
  intros Hfin.
  destruct (cycle_phase z (fun _ => True) (fun _ => True) (fun _ => True))
    with (c := c) (w := w)
    as (c1 & w1 & c2 & w2 & H1 & H2 & H3 & _ & H4 & H5); auto.
  - intros s w' Hw'.
    destruct (simulator_deltfcn_finite s w' z Hw') as (s' & w'' & ? & ? & _).
    exists s', w''. auto.
  - apply all_sims_True.
  - exists c1, w1, c2, w2. auto.
Qed.


(** ** Cycles of small models *)

(** A cycle through an internal coupling: [A] emits 42 at clock 1; [B] gets
    it in the same cycle and makes an external transition with [e = 1],
    [A] an internal one; the ports are empty afterwards. *)
Example cycle_output_to_input :
  Examples.observe
    (Coordinator.cycle
       (Examples.pipe [Examples.pipe_A (Fin 1); Examples.pipe_B PInf] (Fin 1))
       (mkWorld (Fin 1) Examples.pipe_ports []))
  = Some (Some {[ "int_count" := PyInt 1 ]},
          Some (<["ext_count" := PyInt 1]> {[ "elapsed" := PyInt 1 ]}),
          Examples.pipe_ports, PInf).
Proof. vm_compute. reflexivity. Qed.

(** The confluent case in a cycle: [B] is due at clock 2 when the output of
    [A] arrives.  Whatever the order of the children, [B] makes one
    confluent transition and no other. *)
Example cycle_confluent_any_order :
  Examples.observe
    (Coordinator.cycle
       (Examples.pipe [Examples.pipe_A (Fin 2); Examples.pipe_B (Fin 2)] (Fin 2))
       (mkWorld (Fin 2) Examples.pipe_ports []))
  = Some (Some {[ "int_count" := PyInt 1 ]},
          Some {[ "con_count" := PyInt 1 ]}, Examples.pipe_ports, Fin 2)
  /\ Examples.observe
    (Coordinator.cycle
       (Examples.pipe [Examples.pipe_B (Fin 2); Examples.pipe_A (Fin 2)] (Fin 2))
       (mkWorld (Fin 2) Examples.pipe_ports []))
  = Some (Some {[ "int_count" := PyInt 1 ]},
          Some {[ "con_count" := PyInt 1 ]}, Examples.pipe_ports, Fin 2).
Proof. split; vm_compute; reflexivity. Qed.

(** ** inject *)

Lemma inject_resolved (pickle_loads : string -> result pyval)
    (c : Coordinator.t) (port : port_arg) (values : pyval) (e : num)
    (w : World) (id : nat) (vs : list pyval) :
  resolves pickle_loads c port values id vs ->
  Coordinator.inject pickle_loads c port values e w
  = Coordinator.inject_at c id vs (Num.add (Coordinator.time_last c) e) e w.
Proof.
  unfold resolves, Coordinator.inject.
  destruct port as [name|i].
  - intros [Hp Hv]. rewrite Hv. cbn [mbind result_bind]. now rewrite Hp.
  - intros [-> ->]. reflexivity.
Qed.

(** C2, the clock after an accepted injection: with [time_last = 0] and
    [time_next = 5], [inject] at [e = 3] into a server of 10 time units
    returns [True] and leaves the clock at 13, the new [time_next]. *)
Lemma C2_counterexample_clock_after_inject :
  let c := Examples.coord1 (Examples.server (Fin 10)) (Fin 0) (Fin 5) in
  Coordinator.time_last c = Fin 0
  /\ Coordinator.time_next c = Fin 5
  /\ exists c' w',
       Coordinator.inject Examples.loads c (PObj 0) (PyList [PyInt 1])
         (Fin 3) (Examples.world (Fin 0)) = Ok (true, c', w')
       /\ clock w' = Fin 13
       /\ Coordinator.time_next c' = Fin 13.
Proof.
  split; [reflexivity|]. split; [reflexivity|].
  eexists _, _. split; [vm_compute; reflexivity|].
  split; reflexivity.
Qed.

Lemma add_finite (a b : num) (z : Z) :
  Num.add a b = Fin z -> exists x y, a = Fin x /\ b = Fin y.
Proof. destruct a, b; simpl; intros H; try discriminate. eauto. Qed.

(** C2 (amended): for a port that resolves, [inject] takes
    [time = time_last + e].  If [time <= time_next] or [time] is [nan], it
    appends the values to the port, sets [clock.time = time] and runs one
    cycle ([lambdaf]; [deltfcn]; [clear]); when [deltfcn] returns, it sets
    [clock.time] to the [time_next] that [deltfcn] computed and returns
    [True].  At a finite [time] the cycle does return.  Otherwise, at a
    finite [time], [inject] returns [False] and leaves the ports, the
    clock, [time_last] and [time_next] as they were. *)
Theorem C2_inject_time_window (pickle_loads : string -> result pyval)
    (c : Coordinator.t) (port : port_arg) (values : pyval) (e : num)
    (w : World) (id : nat) (vs : list pyval) :
  resolves pickle_loads c port values id vs ->
  let time := Num.add (Coordinator.time_last c) e in
  let extended := set_ports (alter (Port.extend vs) id (ports w)) w in
  (Num.leb time (Coordinator.time_next c) || Num.is_nan time = true ->
   Coordinator.inject pickle_loads c port values e w
   = let '(c1, w1) := Coordinator.lambdaf c (set_clock time extended) in
     match Coordinator.deltfcn c1 w1 with
     | Ok (c2, w2) =>
         Ok (true, c2,
             set_clock (Coordinator.time_next c2) (Coordinator.clear c2 w2))
     | Raise x => Raise x
     end)
  /\ (forall z, time = Fin z ->
      if Num.leb time (Coordinator.time_next c) then
        exists c1 w1 c2 w2,
          Coordinator.lambdaf c (set_clock time extended) = (c1, w1)
          /\ Coordinator.deltfcn c1 w1 = Ok (c2, w2)
          /\ Coordinator.inject pickle_loads c port values e w
             = Ok (true, c2,
                   set_clock (Coordinator.time_next c2)
                     (Coordinator.clear c2 w2))
      else
        exists msg,
          Coordinator.inject pickle_loads c port values e w
          = Ok (false, c, mkWorld (clock w) (ports w) (errors w ++ [msg]))).
Proof.
  intros Hres. cbv zeta.
  rewrite (inject_resolved _ _ _ _ _ _ _ _ Hres).
  unfold Coordinator.inject_at. rewrite neb_self_nan.
  split.
  - intros ->. unfold Coordinator.cycle.
    destruct (Coordinator.lambdaf _ _) as [c1 w1].
    destruct (Coordinator.deltfcn c1 w1) as [[c2 w2]|x]; reflexivity.
  - intros z Hz.
    destruct (add_finite _ _ _ Hz) as (a & b & Ha & ->).
    rewrite Hz. simpl Num.is_nan. rewrite orb_false_r.
    destruct (Num.leb _ _).
    + destruct (cycle_returns c
        (set_clock (Fin z)
           (set_ports (alter (Port.extend vs) id (ports w)) w)) z eq_refl)
        as (c1 & w1 & c2 & w2 & H1 & H2 & H3 & _).
      exists c1, w1, c2, w2. rewrite H3. auto.
    + rewrite Ha. simpl. eexists. reflexivity.
Qed.

(** With [time_last = 0] and [time_next = 5]: [e = 3] is inside the window
    and [e = 7] outside. *)
Lemma C2_witness_inject_time_window :
  let c := Examples.coord1 (Examples.ticker (Fin 5)) (Fin 0) (Fin 5) in
  let w := Examples.world (Fin 0) in
  (exists c1 w1 c2 w2,
      Coordinator.lambdaf c
        (set_clock (Fin 3)
           (set_ports (alter (Port.extend [PyInt 1]) 0%nat (ports w)) w))
        = (c1, w1)
      /\ Coordinator.deltfcn c1 w1 = Ok (c2, w2)
      /\ Coordinator.inject Examples.loads c (PObj 0) (PyList [PyInt 1])
           (Fin 3) w
         = Ok (true, c2,
               set_clock (Coordinator.time_next c2) (Coordinator.clear c2 w2)))
  /\ (exists msg,
      Coordinator.inject Examples.loads c (PObj 0) (PyList [PyInt 1])
        (Fin 7) w
      = Ok (false, c, mkWorld (clock w) (ports w) (errors w ++ [msg]))).
Proof.
  split.
  - exact (proj2 (C2_inject_time_window Examples.loads
             (Examples.coord1 (Examples.ticker (Fin 5)) (Fin 0) (Fin 5))
             (PObj 0) (PyList [PyInt 1]) (Fin 3) (Examples.world (Fin 0))
             0%nat [PyInt 1] (conj eq_refl eq_refl)) 3 eq_refl).
  - exact (proj2 (C2_inject_time_window Examples.loads
             (Examples.coord1 (Examples.ticker (Fin 5)) (Fin 0) (Fin 5))
             (PObj 0) (PyList [PyInt 1]) (Fin 7) (Examples.world (Fin 0))
             0%nat [PyInt 1] (conj eq_refl eq_refl)) 7 eq_refl).
Defined.

(** The scenario of the specification on a periodic model: the injection
    at [e = 3] is accepted and the clock ends at 5; the one at [e = 7] is
    refused and the clock stays where it was. *)
Example inject_scenario :
  let c := Examples.coord1 (Examples.ticker (Fin 5)) (Fin 0) (Fin 5) in
  (exists c' w',
     Coordinator.inject Examples.loads c (PObj 0) (PyList [PyInt 1]) (Fin 3)
       (Examples.world (Fin 0)) = Ok (true, c', w')
     /\ clock w' = Fin 5)
  /\ (exists w',
     Coordinator.inject Examples.loads c (PObj 0) (PyList [PyInt 1]) (Fin 7)
       (Examples.world (Fin 5)) = Ok (false, c, w')
     /\ clock w' = Fin 5 /\ ports w' = ports (Examples.world (Fin 5))).
Proof.
  split.
  - eexists _, _. split; [vm_compute; reflexivity|reflexivity].
  - eexists. split; [vm_compute; reflexivity|]. split; reflexivity.
Qed.

(** At a [nan] time the window test passes, and the cycle raises as soon as
    a simulator formats the clock. *)
Example inject_nan_raises :
  Coordinator.inject Examples.loads
    (Examples.coord1 (Examples.ticker (Fin 5)) (Fin 0) (Fin 5))
    (PObj 0) (PyList [PyInt 1]) NaN (Examples.world (Fin 0))
  = Raise ValueError.
Proof. vm_compute. reflexivity. Qed.

(** An infinite offset is outside the window, and formatting it for the
    error message raises. *)
Example inject_infinite_offset_raises :
  Coordinator.inject Examples.loads
    (Examples.coord1 (Examples.ticker (Fin 5)) (Fin 0) (Fin 5))
    (PObj 0) (PyList [PyInt 1]) PInf (Examples.world (Fin 0))
  = Raise OverflowError.
Proof. vm_compute. reflexivity. Qed.

(** C8, with a value that is not a [str]: the values are decoded before the
    name is looked up, so [inject("nope", 0)] raises [AttributeError] and
    does not return [True]. *)
Lemma C8_counterexample_undecodable_value :
  let c := Examples.coord1 (Examples.ticker (Fin 5)) (Fin 0) (Fin 5) in
  Coordinator.ports_to_serve c !! "nope" = None
  /\ Coordinator.inject Examples.loads c (PStr "nope") (PyInt 0) (Fin 0)
       (Examples.world (Fin 0)) = Raise AttributeError.
Proof. split; reflexivity. Qed.

(** C8 (amended): [inject] with a port name that is not a key of
    [ports_to_serve], and values that all deserialize, logs the error and
    returns [True]; the port buffers, the clock, [time_last] and
    [time_next] are as before.  When a value does not deserialize, what the
    deserializer raises comes out of [inject]. *)
Theorem C8_inject_unknown_port (pickle_loads : string -> result pyval)
    (c : Coordinator.t) (name : string) (values : pyval) (e : num)
    (w : World) :
  Coordinator.ports_to_serve c !! name = None ->
  match map_r (Coordinator.decode pickle_loads) (Coordinator.as_list values)
  with
  | Ok _ =>
      exists w',
        Coordinator.inject pickle_loads c (PStr name) values e w
        = Ok (true, c, w')
        /\ ports w' = ports w /\ clock w' = clock w
        /\ errors w' = errors w ++ ["Port '" +:+ name +:+ "' not found"]
  | Raise x =>
      Coordinator.inject pickle_loads c (PStr name) values e w = Raise x
  end.
Proof.
  intros Hname. unfold Coordinator.inject.
  destruct (map_r _ _) as [vs|x]; cbn [mbind result_bind]; [|reflexivity].
  rewrite Hname. eexists. split; [reflexivity|]. repeat split.
Qed.

(** An unknown name with one value that deserializes. *)
Lemma C8_witness_inject_unknown_port :
  exists w',
    Coordinator.inject Examples.loads
      (Examples.coord1 (Examples.ticker (Fin 5)) (Fin 0) (Fin 5))
      (PStr "nope") (PyList [PyStr "x"]) (Fin 9) (Examples.world (Fin 0))
    = Ok (true, Examples.coord1 (Examples.ticker (Fin 5)) (Fin 0) (Fin 5), w')
    /\ ports w' = ports (Examples.world (Fin 0))
    /\ clock w' = clock (Examples.world (Fin 0))
    /\ errors w' = errors (Examples.world (Fin 0))
                   ++ ["Port '" +:+ "nope" +:+ "' not found"].
Proof.
  exact (C8_inject_unknown_port Examples.loads
           (Examples.coord1 (Examples.ticker (Fin 5)) (Fin 0) (Fin 5))
           "nope" (PyList [PyStr "x"]) (Fin 9) (Examples.world (Fin 0))
           eq_refl).
Defined.

(** ** simulate *)

Lemma simulate_loop_unfold (num_iters cont : Z) (c : Coordinator.t)
    (w : World) :
  Coordinator.simulate_loop num_iters cont c w
  = if (cont <? num_iters) && Num.ltb (clock w) INFINITY then
      match Coordinator.cycle c w with
      | Ok (c', w') => Coordinator.simulate_loop num_iters (cont + 1) c' w'
      | Raise e => Raise e
      end
    else Ok (c, w).
Proof.
  set (rhs := if (cont <? num_iters) && Num.ltb (clock w) INFINITY
              then _ else _).
  rewrite Coordinator.simulate_loop_equation_1.
  unfold Coordinator.simulate_loop_unfold_clause_1.
  destruct (Coordinator.inspect _) as [b Hb].
  assert (Hrhs : rhs = if b then
      match Coordinator.cycle c w with
      | Ok (c', w') => Coordinator.simulate_loop num_iters (cont + 1) c' w'
      | Raise e => Raise e
      end
    else Ok (c, w)) by (subst rhs; now rewrite Hb).
  rewrite Hrhs. clear rhs Hrhs.
  destruct b; [|reflexivity].
  simpl. destruct (Coordinator.cycle c w) as [[c' w']|e]; reflexivity.
Qed.

Lemma simulate_loop_repeat (k : nat) :
  forall num_iters cont c w,
    Z.to_nat (num_iters - cont) = k ->
    Coordinator.simulate_loop num_iters cont c w
    = repeat_while_finite k c w.
Proof.
  induction k as [|k IH]; intros num_iters cont c w Hk;
    rewrite simulate_loop_unfold; simpl.
  - assert (Hge : (cont <? num_iters) = false) by (apply Z.ltb_ge; lia).
    now rewrite Hge.
  - assert (Hlt : (cont <? num_iters) = true) by (apply Z.ltb_lt; lia).
    rewrite Hlt. simpl.
    destruct (Num.ltb (clock w) INFINITY); [|reflexivity].
    destruct (Coordinator.cycle c w) as [[c' w']|e]; [|reflexivity].
    apply IH. lia.
Qed.

(** Three cycles of a model of period 1: internal transitions at 1, 2 and
    3, and the clock ends at [time_next = 4]. *)
Example simulate_three_ticks :
  exists c' w',
    Coordinator.simulate 3
      (Examples.coord1 (Examples.ticker (Fin 1)) (Fin 0) (Fin 1))
      (Examples.world (Fin 0)) = Ok (c', w')
    /\ Coordinator.time_last c' = Fin 3
    /\ Coordinator.time_next c' = Fin 4
    /\ clock w' = Fin 4.
Proof. eexists _, _. split; [vm_compute; reflexivity|]. repeat split. Qed.

(** A passive model: the clock goes to [INFINITY] and no cycle is run. *)
Example simulate_passive :
  Coordinator.simulate 10000
    (Examples.coord1 (Examples.server (Fin 10)) (Fin 0) PInf)
    (Examples.world (Fin 0))
  = Ok (Examples.coord1 (Examples.server (Fin 10)) (Fin 0) PInf,
        Examples.world PInf).
Proof. vm_compute. reflexivity. Qed.



(** ** initialize *)

Lemma init_with_clock
    (flatten to_chain : Coupled.t -> Ports -> Coupled.t * Ports)
    (m : Coupled.t) (w : World) :
  Coordinator.__init__ flatten to_chain m [ArgClock] w
  = Ok (Coordinator.fresh m, w).
Proof. destruct w. reflexivity. Qed.

(** The coordinators of the examples are what [initialize] builds. *)
Example initialize_one_child :
  Coordinator.initialize
    (Coordinator.fresh (Examples.one_child (Examples.server (Fin 10)) (Fin 5)))
    (Examples.world (Fin 0))
  = (Examples.coord1 (Examples.server (Fin 10)) (Fin 0) (Fin 5),
     Examples.world (Fin 0)).
Proof. vm_compute. reflexivity. Qed.

(** A coordinator without children, initialized at clock 5, has
    [time_last = 5] and [time_next = 0]. *)
Example initialize_childless :
  let c := fst (Coordinator.initialize Examples.childless
                  (Examples.world (Fin 5))) in
  Coordinator.time_last c = Fin 5 /\ Coordinator.time_next c = Fin 0.
Proof. vm_compute. split; reflexivity. Qed.

Lemma for_each_in_for_each {A : Type} (f : A -> World -> A * World)
    (l : list A) :
  forall w, Coordinator.for_each_in l (fun a _ w' => f a w') w = for_each f l w.
Proof.
  induction l as [|a r IH]; intros w; simpl; [reflexivity|].
  destruct (f a w) as [a' w1]. now rewrite IH.
Qed.

(** [initialize] as the source has it: build the hierarchy, initialize every
    child, take the times. *)
Lemma initialize_body (c : Coordinator.t) (w : World) :
  Coordinator.initialize c w =
  let built := Coordinator._build_hierarchy c (ports w) in
  let '(cs, w1) :=
    for_each Coordinator.initialize (Coordinator.coordinators built) w in
  let '(ss, w2) :=
    for_each Simulator.initialize (Coordinator.simulators built) w1 in
  (Coordinator.update_times
     (Coordinator.mk cs ss (Coordinator.model built)
        (Coordinator.time_last built) (Coordinator.time_next built)
        (Coordinator.ports_to_serve built)) w2, w2).
Proof.
  rewrite Coordinator.initialize_equation_1. cbv zeta.
  now rewrite for_each_in_for_each.
Qed.



(** ** Every cycle of simulate *)

Lemma simulator_deltfcn_clock (s : Simulator.t) (w : World)
    (r : Simulator.t * World) :
  Simulator.deltfcn s w = Ok r ->
  Num.is_finite (clock w) = true /\ clock (snd r) = clock w.
Proof.
  destruct (clock w) as [z| | |] eqn:Hc; try discriminate.
  - intros Hr. split; [reflexivity|].
    destruct (simulator_deltfcn_finite s w z Hc) as (s' & w' & H & Hw' & _).
    rewrite H in Hr. injection Hr as <-. simpl. congruence.
  - unfold Simulator.deltfcn. rewrite Hc. discriminate.
  - unfold Simulator.deltfcn. rewrite Hc. discriminate.
  - unfold Simulator.deltfcn. rewrite Hc. discriminate.
Qed.

Lemma for_each_r_inv {A : Type} (Q : World -> Prop) (P : A -> Prop)
    (f : A -> World -> result (A * World)) (l : list A) :
  Forall (fun a => forall w r, Q w -> f a w = Ok r -> P a /\ Q (snd r)) l ->
  forall w r, Q w -> for_each_r f l w = Ok r -> Forall P l /\ Q (snd r).
Proof.
  induction 1 as [|a t Ha _ IH]; intros w r Hw; simpl.
  - intros [= <-]. auto.
  - destruct (f a w) as [[a' w1]|e] eqn:Hf; [|discriminate].
    destruct (Ha w _ Hw Hf) as [Hpa Hw1]. simpl in Hw1.
    destruct (for_each_r f t w1) as [[t' w2]|e] eqn:Ht; [|discriminate].
    destruct (IH w1 _ Hw1 Ht) as [Hpt Hw2].
    intros [= <-]. auto.
Qed.

(** At a clock that is not finite, [deltfcn] returns only on a tree without
    simulators. *)
Lemma deltfcn_returns_without_sims (t : num) (c : Coordinator.t) :
  Num.is_finite t = false ->
  forall w r, clock w = t -> Coordinator.deltfcn c w = Ok r ->
              count_sims c = 0%nat /\ clock (snd r) = t.
Proof.
  intros Hinf.
  induction c as [cs ss m tl tn pts IH] using coordinator_tree_ind.
  intros w r Hw. simpl.
  assert (Hw0 : clock (Coordinator.propagate_input m w) = t)
    by now rewrite propagate_input_clock.
  destruct (for_each_r Coordinator.deltfcn cs _) as [[cs' w1]|e] eqn:Hc;
    [|discriminate].
  destruct (for_each_r_inv (fun w' => clock w' = t)
              (fun c' => count_sims c' = 0%nat)
              Coordinator.deltfcn cs) with (2 := Hw0) (3 := Hc) as [Hcs Hw1].
  { eapply Forall_impl; [exact IH|]. intros c Hc' w' r' Hw' Hr'.
    now apply (Hc' w' r'). }
  simpl in Hw1.
  destruct (for_each_r Simulator.deltfcn ss w1) as [[ss' w2]|e] eqn:Hs;
    [|discriminate].
  intros [= <-]. simpl.
  destruct ss as [|s ss].
  - simpl in Hs. injection Hs as <- <-. split; [|exact Hw1].
    simpl. clear -Hcs. induction Hcs as [|c' r' Hc' _ IHr]; simpl; lia.
  - simpl in Hs. destruct (Simulator.deltfcn s w1) as [r1|e] eqn:Hs1;
      [|discriminate].
    apply simulator_deltfcn_clock in Hs1 as [Hfin _].
    rewrite Hw1, Hinf in Hfin. discriminate.
Qed.

Lemma for_each_measure {A : Type} (g : A -> nat)
    (f : A -> World -> A * World) (l : list A) :
  Forall (fun a => forall w, g (fst (f a w)) = g a) l ->
  forall w, sum_list_with g (fst (for_each f l w)) = sum_list_with g l.
Proof.
  induction 1 as [|a r Ha _ IH]; intros w; simpl; [reflexivity|].
  specialize (Ha w). destruct (f a w) as [a' w1]. simpl in Ha.
  specialize (IH w1). destruct (for_each f r w1) as [r' w2]. simpl in *.
  lia.
Qed.

Lemma for_each_length {A : Type} (f : A -> World -> A * World) (l : list A) :
  forall w, length (fst (for_each f l w)) = length l.
Proof.
  induction l as [|a r IH]; intros w; simpl; [reflexivity|].
  destruct (f a w) as [a' w1].
  specialize (IH w1). destruct (for_each f r w1) as [r' w2]. simpl in *.
  lia.
Qed.

Lemma lambdaf_count_sims (c : Coordinator.t) :
  forall w, count_sims (fst (Coordinator.lambdaf c w)) = count_sims c.
Proof.
  induction c as [cs ss m tl tn pts IH] using coordinator_tree_ind.
  intros w. simpl.
  pose proof (for_each_measure count_sims Coordinator.lambdaf cs IH w) as Hcs.
  destruct (for_each Coordinator.lambdaf cs w) as [cs' w1].
  pose proof (for_each_length Simulator.lambdaf ss w1) as Hss.
  destruct (for_each Simulator.lambdaf ss w1) as [ss' w2]. simpl in *.
  lia.
Qed.





(** ** The times after deltfcn *)



Lemma all_sims_impl (P Q : Simulator.t -> Prop) :
  (forall s, P s -> Q s) -> forall c, all_sims P c -> all_sims Q c.
Proof.
  intros HPQ c.
  induction c as [cs ss m tl tn pts IH] using coordinator_tree_ind.
  intros H. inversion H as [? ? ? ? ? ? Hss Hcs]; subst.
  constructor; [eapply Forall_impl; eauto|].
  clear H Hss. induction Hcs as [|c r Hc _ IHr]; [constructor|].
  inversion IH; subst. constructor; auto.
Qed.






(** The run goes on: the clock is set to 0.9000000000000001, where the
    model whose event is at 0.9 is not due ([t != time_next]) and, its
    inputs being empty, makes no transition; the end of [deltfcn] then
    computes [time_next = 0.9], before [time_last] and before the clock. *)
Example rounded_clock_goes_back :
  let clock := snd (Rounded.update_times [PrimFloat.infinity; 0.9%float]
                      0.3%float) in
  Rounded.not_due clock 0.9%float = true
  /\ Rounded.update_times [PrimFloat.infinity; 0.9%float] clock
     = (0.9000000000000001%float, 0.9%float)
  /\ PrimFloat.ltb (snd (Rounded.update_times
                           [PrimFloat.infinity; 0.9%float] clock))
       (fst (Rounded.update_times
               [PrimFloat.infinity; 0.9%float] clock)) = true.
Proof. vm_compute. repeat split. Qed.

(** ** Chain mode *)

Lemma set_directions_keeps (d : Direction) (l : list nat) :
  forall (p : Ports) (id : nat),
    (forall port, p !! id = Some port -> Port.direction port = d) ->
    forall port, Coordinator.set_directions d l p !! id = Some port ->
                 Port.direction port = d.
Proof.
  unfold Coordinator.set_directions.
  induction l as [|a r IH]; intros p id Hp; simpl; [exact Hp|].
  apply IH. intros port. rewrite lookup_alter.
  case_decide as Ha.
  - intros (q & _ & ->)%fmap_Some. reflexivity.
  - apply Hp.
Qed.

Lemma set_directions_sets (d : Direction) (l : list nat) :
  forall (p : Ports) (id : nat) (port : Port.t),
    In id l -> Coordinator.set_directions d l p !! id = Some port ->
    Port.direction port = d.
Proof.
  induction l as [|a r IH]; intros p id port Hin; [destruct Hin|].
  destruct Hin as [->|Hin].
  - unfold Coordinator.set_directions. simpl.
    apply (set_directions_keeps d r (alter (Port.set_direction d) id p) id).
    intros q. rewrite lookup_alter. case_decide; [|congruence].
    intros (q' & _ & ->)%fmap_Some. reflexivity.
  - unfold Coordinator.set_directions. simpl. now apply IH.
Qed.

(** [for port in l: port.direction = d] changes the direction of the ports
    of [l], and nothing else. *)
Lemma set_directions_spec (d : Direction) (l : list nat) :
  forall (p : Ports) (id : nat),
    Coordinator.set_directions d l p !! id
    = if decide (id ∈ l) then Port.set_direction d <$> p !! id else p !! id.
Proof.
  unfold Coordinator.set_directions.
  induction l as [|a r IH]; intros p id; simpl.
  - destruct (decide (id ∈ [])) as [H|H]; [|reflexivity].
    now apply not_elem_of_nil in H.
  - rewrite IH, lookup_alter.
    destruct (decide (a = id)) as [->|Ha].
    + destruct (decide (id ∈ r)) as [Hr|Hr],
        (decide (id ∈ id :: r)) as [Hin|Hin].
      * destruct (p !! id); reflexivity.
      * exfalso. apply Hin. left.
      * reflexivity.
      * exfalso. apply Hin. left.
    + destruct (decide (id ∈ r)) as [Hr|Hr],
        (decide (id ∈ a :: r)) as [Hin|Hin]; try reflexivity.
      * exfalso. apply Hin. now right.
      * exfalso. apply elem_of_cons in Hin as [Heq|Hin]; congruence.
Qed.

Section ChainMode.

Variables flatten to_chain : Coupled.t -> Ports -> Coupled.t * Ports.

(** Modelled from the spec: [to_chain()] of perfdevs/models.py leaves the
    model in chain mode ("boolean [chain] indicating linearized mode"). *)
Hypothesis to_chain_marks :
  forall m p, Coupled.chain (fst (to_chain m p)) = true.

(** C7: [Coordinator(model, clock, flatten, chain)] with a true [chain]
    argument returns the coordinator of the given model, as [flatten()]
    (when asked for) and [to_chain()] leave it, without children.  In the
    world it leaves, the ports are those that [to_chain()] left, but for
    the input ports of that model, whose direction is now [OUT] and which
    are otherwise the same.  On that model [propagate_output] and
    [propagate_input] apply no coupling of [eic], [ic] or [eoc]: they leave
    every world as it is. *)
Theorem C7_chain_mode_no_propagation (m : Coupled.t)
    (clock_arg flatten_arg chain_arg : pyarg) (w : World) :
  truthy chain_arg = true ->
  let w0 := if truthy clock_arg then w else set_clock (Fin 0) w in
  let flat :=
    if truthy flatten_arg then flatten m (ports w0) else (m, ports w0) in
  let chained := to_chain (fst flat) (snd flat) in
  exists w',
    Coordinator.__init__ flatten to_chain m [clock_arg; flatten_arg; chain_arg] w
    = Ok (Coordinator.mk [] [] (fst chained) (Fin 0) (Fin 0) ∅, w')
    /\ clock w' = clock w0 /\ errors w' = errors w0
    /\ (forall id,
          ports w' !! id
          = if decide (id ∈ Coupled.in_ports (fst chained))
            then Port.set_direction OUT <$> snd chained !! id
            else snd chained !! id)
    /\ (forall id port,
          In id (Coupled.in_ports (fst chained)) ->
          ports w' !! id = Some port -> Port.direction port = OUT)
    /\ (forall w1,
          Coordinator.propagate_output (fst chained) w1 = w1
          /\ Coordinator.propagate_input (fst chained) w1 = w1).
Proof.
  intros Hchain. cbv zeta. unfold Coordinator.__init__. simpl.
  unfold Coordinator.init. rewrite Hchain.
  set (w0 := if truthy clock_arg then w else set_clock (Fin 0) w).
  destruct (if truthy flatten_arg then flatten m (ports w0) else (m, ports w0))
    as [m1 p1].
  pose proof (to_chain_marks m1 p1) as Hmark. simpl.
  destruct (to_chain m1 p1) as [m2 p2]. simpl in *.
  eexists. split; [reflexivity|]. simpl.
  split; [reflexivity|]. split; [reflexivity|]. split; [|split].
  - intros id. apply set_directions_spec.
  - intros id port Hin. now apply set_directions_sets.
  - intros w1. unfold Coordinator.propagate_output,
      Coordinator.propagate_input. rewrite Hmark. split; reflexivity.
Qed.

End ChainMode.

(** [Coordinator(root, None, False, True)] with a [to_chain] that only marks
    the model: port 0, the input of the root model, is the one port whose
    direction is set. *)
Lemma C7_witness_chain_mode :
  let chained :=
    Examples.mark_chain (Examples.root_model false []) Examples.two_ports in
  exists w',
    Coordinator.__init__ Examples.no_flatten Examples.mark_chain
      (Examples.root_model false []) [ArgNone; ArgBool false; ArgBool true]
      (Examples.world (Fin 0))
    = Ok (Coordinator.mk [] [] (fst chained) (Fin 0) (Fin 0) ∅, w')
    /\ clock w' = Fin 0 /\ errors w' = []
    /\ (forall id,
          ports w' !! id
          = if decide (id ∈ Coupled.in_ports (fst chained))
            then Port.set_direction OUT <$> snd chained !! id
            else snd chained !! id)
    /\ (forall id port,
          In id (Coupled.in_ports (fst chained)) ->
          ports w' !! id = Some port -> Port.direction port = OUT)
    /\ (forall w1,
          Coordinator.propagate_output (fst chained) w1 = w1
          /\ Coordinator.propagate_input (fst chained) w1 = w1).
Proof.
  exact (C7_chain_mode_no_propagation Examples.no_flatten Examples.mark_chain
           (fun m p => eq_refl) (Examples.root_model false [])
           ArgNone (ArgBool false) (ArgBool true) (Examples.world (Fin 0))
           eq_refl).
Defined.

(** The construction of the example turns the direction of port 0 from
    [IN] to [OUT] and leaves port 1, the input of the child, at [IN]. *)
Example chain_mode_directions :
  Port.direction <$> Examples.two_ports !! 0%nat = Some IN
  /\ match Coordinator.__init__ Examples.no_flatten Examples.mark_chain
             (Examples.root_model false [])
             [ArgNone; ArgBool false; ArgBool true] (Examples.world (Fin 0))
     with
     | Ok (c, w') =>
         Port.direction <$> ports w' !! 0%nat = Some OUT
         /\ Port.direction <$> ports w' !! 1%nat = Some IN
         /\ Coupled.chain (Coordinator.model c) = true
     | Raise _ => False
     end.
Proof. split; [reflexivity|]. vm_compute. repeat split. Qed.

(** Without the [chain] argument the couplings are applied: the value on
    the root input reaches the input of the child. *)
Example propagate_input_copies :
  Port.values <$>
    (ports (Coordinator.propagate_input (Examples.root_model false [])
              (set_ports (alter (Port.extend [PyInt 1]) 0%nat
                            Examples.two_ports) (Examples.world (Fin 0))))
       !! 1%nat)
  = Some [PyInt 1].
Proof. vm_compute. reflexivity. Qed.

(** ** ParallelCoordinator.deltfcn *)

Lemma for_each_r_as_for_each {A : Type}
    (f : A -> World -> result (A * World)) (g : A -> World -> A * World)
    (l : list A) :
  Forall (fun a => forall w r, f a w = Ok r -> g a w = r) l ->
  forall w r, for_each_r f l w = Ok r -> for_each g l w = r.
Proof.
  induction 1 as [|a t Ha _ IH]; intros w r; simpl.
  - now intros [= <-].
  - destruct (f a w) as [[a' w1]|e] eqn:Hf; [|discriminate].
    rewrite (Ha w _ Hf).
    destruct (for_each_r f t w1) as [[t' w2]|e] eqn:Ht; [|discriminate].
    rewrite (IH w1 _ Ht). now intros [= <-].
Qed.

(** When the pool has run every task before the times are read (what
    waiting for the futures would ensure), the parallel [deltfcn] does what
    the sequential one does. *)
Lemma parallel_deltfcn_awaited (done : nat) (c : Coordinator.t) :
  sims_at_most done c ->
  forall w r, Coordinator.deltfcn c w = Ok r ->
              ParallelCoordinator.deltfcn done c w = r.
Proof.
  induction c as [cs ss m tl tn pts IH] using coordinator_tree_ind.
  intros Hmost w r. inversion Hmost as [? Hlen Hcs]; subst. simpl in *.
  assert (Hchildren : Forall (fun c => forall w r,
            Coordinator.deltfcn c w = Ok r ->
            ParallelCoordinator.deltfcn done c w = r) cs).
  { clear Hlen Hmost. induction IH as [|c t Hc _ IHt]; [constructor|].
    inversion Hcs; subst. constructor; auto. }
  assert (Htasks : Forall (fun s => forall w r,
            Simulator.deltfcn s w = Ok r ->
            ParallelCoordinator.run_task s w = r) ss).
  { apply Forall_forall. intros s _ w' r' Hr'.
    unfold ParallelCoordinator.run_task. now rewrite Hr'. }
  destruct (for_each_r Coordinator.deltfcn cs _) as [[cs' w1]|e] eqn:Hc;
    [|discriminate].
  rewrite (for_each_r_as_for_each _ _ cs Hchildren _ _ Hc).
  destruct (for_each_r Simulator.deltfcn ss w1) as [[ss' w2]|e] eqn:Hs;
    [|discriminate].
  intros [= <-].
  rewrite take_ge, drop_ge by lia. simpl.
  rewrite (for_each_r_as_for_each _ _ ss Htasks _ _ Hs).
  rewrite app_nil_r. reflexivity.
Qed.

(** C6, the failing input: one periodic simulator whose event is due at
    clock 1.  The sequential [deltfcn] ends with [time_next = 2]; the
    parallel one, when the pool has not yet run the submitted task,
    computes [time_next = 1] from the simulator's old [time_next], although
    the simulator itself ends at 2. *)
Theorem C6_parallel_deltfcn_reads_stale_times :
  let c := Examples.coord1 (Examples.ticker (Fin 1)) (Fin 0) (Fin 1) in
  let w := Examples.world (Fin 1) in
  (exists c' w',
     Coordinator.deltfcn c w = Ok (c', w')
     /\ Coordinator.time_last c' = Fin 1
     /\ Coordinator.time_next c' = Fin 2
     /\ Coordinator.times c' = [Fin 2])
  /\ Coordinator.time_last (fst (ParallelCoordinator.deltfcn 0 c w)) = Fin 1
  /\ Coordinator.time_next (fst (ParallelCoordinator.deltfcn 0 c w)) = Fin 1
  /\ Coordinator.times (fst (ParallelCoordinator.deltfcn 0 c w)) = [Fin 2].
Proof.
  split.
  - eexists _, _. split; [vm_compute; reflexivity|]. repeat split.
  - repeat split.
Qed.

(** * Further lemmas *)

(** ** The hierarchy is fixed once it is built *)

Lemma call_frame (f : Atomic.Method) (m : Atomic.t) (w : World) :
  atomic_frame (fst (Atomic.call f m w)) = atomic_frame m.
Proof.
  unfold Atomic.call. destruct (f _ _) as [s' p']. reflexivity.
Qed.

Lemma simulator_lambdaf_frame (s : Simulator.t) (w : World) :
  atomic_frame (Simulator.model (fst (Simulator.lambdaf s w)))
  = atomic_frame (Simulator.model s).
Proof.
  unfold Simulator.lambdaf. destruct (Num.eqb _ _); [|reflexivity].
  pose proof (call_frame (Atomic.m_lambdaf (Atomic.class (Simulator.model s)))
                (Simulator.model s) w) as H.
  unfold Atomic.lambdaf. destruct (Atomic.call _ _ _) as [m' w']. exact H.
Qed.

Lemma simulator_deltfcn_frame (s : Simulator.t) (w : World)
    (r : Simulator.t * World) :
  Simulator.deltfcn s w = Ok r ->
  atomic_frame (Simulator.model (fst r)) = atomic_frame (Simulator.model s).
Proof.
  unfold Simulator.deltfcn.
  destruct (percent_d (clock w)); [|discriminate]. cbn [mbind result_bind].
  destruct (Atomic.in_empty _ _).
  - destruct (Num.neb _ _); intros [= <-]; [reflexivity|].
    unfold Simulator.update_times, Atomic.deltint. simpl. apply call_frame.
  - destruct (Num.eqb _ _); intros [= <-];
      unfold Simulator.update_times, Atomic.deltcon, Atomic.deltext; simpl;
      rewrite call_frame; reflexivity.
Qed.

Section MapKept.

Context {A B : Type} (g : A -> B).

Lemma for_each_map (f : A -> World -> A * World) (l : list A) :
  Forall (fun a => forall w, g (fst (f a w)) = g a) l ->
  forall w, map g (fst (for_each f l w)) = map g l.
Proof.
  induction 1 as [|a r Ha _ IH]; intros w; simpl; [reflexivity|].
  specialize (Ha w). destruct (f a w) as [a' w1]. simpl in Ha.
  specialize (IH w1). destruct (for_each f r w1) as [r' w2]. simpl in *.
  congruence.
Qed.

Lemma for_each_r_map (f : A -> World -> result (A * World)) (l : list A) :
  Forall (fun a => forall w r, f a w = Ok r -> g (fst r) = g a) l ->
  forall w r, for_each_r f l w = Ok r -> map g (fst r) = map g l.
Proof.
  induction 1 as [|a t Ha _ IH]; intros w r; simpl.
  - now intros [= <-].
  - destruct (f a w) as [[a' w1]|e] eqn:Hf; [|discriminate].
    specialize (Ha w _ Hf). simpl in Ha.
    destruct (for_each_r f t w1) as [[t' w2]|e] eqn:Ht; [|discriminate].
    specialize (IH w1 _ Ht). simpl in IH.
    intros [= <-]. simpl. congruence.
Qed.

End MapKept.

Lemma lambdaf_layout (c : Coordinator.t) :
  forall w, layout (fst (Coordinator.lambdaf c w)) = layout c.
Proof.
  induction c as [cs ss m tl tn pts IH] using coordinator_tree_ind.
  intros w. simpl.
  pose proof (for_each_map layout Coordinator.lambdaf cs IH w) as Hcs.
  destruct (for_each Coordinator.lambdaf cs w) as [cs' w1].
  pose proof (for_each_map (fun s => atomic_frame (Simulator.model s))
                Simulator.lambdaf ss) as Hss.
  specialize (Hss (proj2 (Forall_forall _ _)
                         (fun s _ w' => simulator_lambdaf_frame s w')) w1).
  destruct (for_each Simulator.lambdaf ss w1) as [ss' w2]. simpl in *.
  congruence.
Qed.

Lemma deltfcn_layout (c : Coordinator.t) :
  forall w r, Coordinator.deltfcn c w = Ok r -> layout (fst r) = layout c.
Proof.
  induction c as [cs ss m tl tn pts IH] using coordinator_tree_ind.
  intros w r. simpl.
  destruct (for_each_r Coordinator.deltfcn cs _) as [[cs' w1]|e] eqn:Hc;
    [|discriminate].
  pose proof (for_each_r_map layout Coordinator.deltfcn cs IH _ _ Hc) as Hcs.
  destruct (for_each_r Simulator.deltfcn ss w1) as [[ss' w2]|e] eqn:Hs;
    [|discriminate].
  pose proof (for_each_r_map (fun s => atomic_frame (Simulator.model s))
                Simulator.deltfcn ss
                (proj2 (Forall_forall _ _)
                   (fun s _ w' r' => simulator_deltfcn_frame s w' r'))
                _ _ Hs) as Hss.
  intros [= <-]. simpl in *. congruence.
Qed.

Lemma cycle_layout (c : Coordinator.t) (w : World)
    (r : Coordinator.t * World) :
  Coordinator.cycle c w = Ok r -> layout (fst r) = layout c.
Proof.
  unfold Coordinator.cycle.
  pose proof (lambdaf_layout c w) as H1.
  destruct (Coordinator.lambdaf c w) as [c1 w1]. simpl in H1.
  destruct (Coordinator.deltfcn c1 w1) as [[c2 w2]|e] eqn:Hd; [|discriminate].
  apply deltfcn_layout in Hd. simpl in Hd.
  intros [= <-]. simpl. congruence.
Qed.

Lemma repeat_layout (k : nat) :
  forall c w r, repeat_while_finite k c w = Ok r -> layout (fst r) = layout c.
Proof.
  induction k as [|k IH]; intros c w r; simpl.
  - now intros [= <-].
  - destruct (Num.ltb _ _); [|now intros [= <-]].
    destruct (Coordinator.cycle c w) as [[c' w']|e] eqn:Hc; [|discriminate].
    apply cycle_layout in Hc. simpl in Hc.
    intros Hr. apply IH in Hr. congruence.
Qed.

Lemma simulate_layout (num_iters : Z) (c : Coordinator.t) (w : World)
    (r : Coordinator.t * World) :
  Coordinator.simulate num_iters c w = Ok r -> layout (fst r) = layout c.
Proof.
  unfold Coordinator.simulate.
  rewrite (simulate_loop_repeat (Z.to_nat num_iters)) by (f_equal; lia).
  apply repeat_layout.
Qed.

Lemma inject_layout (pickle_loads : string -> result pyval)
    (c : Coordinator.t) (port : port_arg) (values : pyval) (e : num)
    (w : World) (b : bool) (c' : Coordinator.t) (w' : World) :
  Coordinator.inject pickle_loads c port values e w = Ok (b, c', w') ->
  layout c' = layout c.
Proof.
  assert (Hat : forall id vs,
    Coordinator.inject_at c id vs (Num.add (Coordinator.time_last c) e) e w
    = Ok (b, c', w') -> layout c' = layout c).
  { intros id vs. unfold Coordinator.inject_at.
    destruct (_ || _).
    - destruct (Coordinator.cycle c _) as [[c2 w2]|x] eqn:Hc; [|discriminate].
      apply cycle_layout in Hc. simpl in *. intros [= _ <- _]. exact Hc.
    - destruct (percent_d (Coordinator.time_last c)); [|discriminate].
      destruct (percent_d e); [|discriminate].
      simpl. now intros [= _ <- _]. }
  unfold Coordinator.inject. destruct port as [name|id]; [|apply Hat].
  destruct (map_r _ _) as [vs|x]; [|discriminate]. cbn [mbind result_bind].
  destruct (_ !! name); [apply Hat|]. now intros [= _ <- _].
Qed.

(** ** clear *)

Lemma swept_nil (w : World) : swept [] w w.
Proof.
  split; [reflexivity|]. split; [reflexivity|].
  intros id. case_decide as H; [|reflexivity].
  now apply not_elem_of_nil in H.
Qed.

Lemma swept_app (l1 l2 : list nat) (w w1 w2 : World) :
  swept l1 w w1 -> swept l2 w1 w2 -> swept (l1 ++ l2) w w2.
Proof.
  intros (Hc1 & He1 & Hp1) (Hc2 & He2 & Hp2).
  split; [congruence|]. split; [congruence|].
  intros id. rewrite Hp2, Hp1.
  destruct (decide (id ∈ l1)) as [H1|H1], (decide (id ∈ l2)) as [H2|H2];
    case_decide as H; try reflexivity;
    try (exfalso; apply H; apply elem_of_app; auto; fail);
    try (exfalso; apply elem_of_app in H as [?|?]; auto; fail).
  destruct (ports w !! id); reflexivity.
Qed.

Lemma clear_ports_swept (l : list nat) :
  forall w, swept l w (set_ports (clear_ports l (ports w)) w).
Proof.
  induction l as [|a r IH]; intros w.
  - destruct w. apply swept_nil.
  - change (a :: r) with ([a] ++ r).
    apply swept_app with (w1 := set_ports (alter Port.clear a (ports w)) w).
    + split; [reflexivity|]. split; [reflexivity|].
      intros id. simpl. rewrite lookup_alter.
      destruct (decide (a = id)) as [Ha|Ha],
        (decide (id ∈ [a])) as [Hin|Hin]; try (subst; reflexivity).
      * exfalso. apply Hin. subst. apply list_elem_of_singleton. reflexivity.
      * exfalso. apply list_elem_of_singleton in Hin. congruence.
    + apply (IH (set_ports (alter Port.clear a (ports w)) w)).
Qed.

Lemma simulator_clear_swept (s : Simulator.t) (w : World) :
  swept (Atomic.in_ports (Simulator.model s)
         ++ Atomic.out_ports (Simulator.model s)) w (Simulator.clear s w).
Proof.
  unfold Simulator.clear.
  eapply swept_app; [apply clear_ports_swept|].
  apply (clear_ports_swept _
           (set_ports (clear_ports (Atomic.in_ports (Simulator.model s))
                         (ports w)) w)).
Qed.

Lemma fold_swept {A : Type} (f : A -> World -> World) (g : A -> list nat)
    (l : list A) :
  Forall (fun a => forall w, swept (g a) w (f a w)) l ->
  forall w, swept (concat (map g l)) w (fold_left (fun acc a => f a acc) l w).
Proof.
  induction 1 as [|a r Ha _ IH]; intros w; simpl; [apply swept_nil|].
  eapply swept_app; [apply Ha|apply IH].
Qed.

(** [clear] empties every port of the hierarchy and touches nothing else. *)
Lemma clear_swept (c : Coordinator.t) :
  forall w, swept (tree_ports c) w (Coordinator.clear c w).
Proof.
  induction c as [cs ss m tl tn pts IH] using coordinator_tree_ind.
  intros w. unfold tree_ports. simpl. rewrite !map_map.
  eapply swept_app; [apply (fold_swept Coordinator.clear tree_ports cs IH)|].
  eapply swept_app.
  { apply (fold_swept Simulator.clear
             (fun s => Atomic.in_ports (Simulator.model s)
                       ++ Atomic.out_ports (Simulator.model s)) ss).
    apply Forall_forall. intros s _ w'. apply simulator_clear_swept. }
  set (w2 := fold_left _ ss _).
  eapply swept_app; [apply clear_ports_swept|].
  apply (clear_ports_swept _
           (set_ports (clear_ports (Coupled.in_ports m) (ports w2)) w2)).
Qed.

(** ** The drivers compose *)

Lemma set_clock_same (w : World) (t : num) : clock w = t -> set_clock t w = w.
Proof. destruct w. simpl. now intros ->. Qed.

Lemma cycle_clock (c : Coordinator.t) (w : World)
    (c' : Coordinator.t) (w' : World) :
  Coordinator.cycle c w = Ok (c', w') -> clock w' = Coordinator.time_next c'.
Proof.
  unfold Coordinator.cycle. destruct (Coordinator.lambdaf c w) as [c1 w1].
  destruct (Coordinator.deltfcn c1 w1) as [[c2 w2]|e]; [|discriminate].
  now intros [= <- <-].
Qed.

Lemma repeat_clock (k : nat) :
  forall c w c' w',
    clock w = Coordinator.time_next c ->
    repeat_while_finite k c w = Ok (c', w') ->
    clock w' = Coordinator.time_next c'.
Proof.
  induction k as [|k IH]; intros c w c' w' Hc; simpl.
  - now intros [= <- <-].
  - destruct (Num.ltb _ _); [|now intros [= <- <-]].
    destruct (Coordinator.cycle c w) as [[c1 w1]|e] eqn:Hcy; [|discriminate].
    apply IH. eapply cycle_clock; eassumption.
Qed.

Lemma repeat_add (a b : nat) :
  forall c w,
    repeat_while_finite (a + b) c w
    = match repeat_while_finite a c w with
      | Ok (c', w') => repeat_while_finite b c' w'
      | Raise e => Raise e
      end.
Proof.
  induction a as [|a IH]; intros c w; simpl; [reflexivity|].
  destruct (Num.ltb (clock w) INFINITY) eqn:Hlt.
  - destruct (Coordinator.cycle c w) as [[c' w']|e]; [apply IH|reflexivity].
  - destruct b; simpl; [reflexivity|]. now rewrite Hlt.
Qed.

(** [simulate(a)] and then [simulate(b)] is [simulate(a + b)]. *)
Lemma simulate_add (a b : Z) (c : Coordinator.t) (w : World) :
  0 <= a -> 0 <= b ->
  Coordinator.simulate (a + b) c w
  = match Coordinator.simulate a c w with
    | Ok (c', w') => Coordinator.simulate b c' w'
    | Raise e => Raise e
    end.
Proof.
  intros Ha Hb. unfold Coordinator.simulate.
  rewrite (simulate_loop_repeat (Z.to_nat a + Z.to_nat b))
    by (rewrite <- Z2Nat.inj_add by lia; f_equal; lia).
  rewrite (simulate_loop_repeat (Z.to_nat a)) by (f_equal; lia).
  rewrite repeat_add.
  destruct (repeat_while_finite (Z.to_nat a) c _) as [[c' w']|e] eqn:Hr;
    [|reflexivity].
  apply repeat_clock in Hr; [|reflexivity].
  rewrite (set_clock_same w' _ Hr).
  symmetry. apply simulate_loop_repeat. f_equal. lia.
Qed.

(** ** simulate_inf and simulate_time against simulate *)

Lemma ltb_infinity_neb (a : num) :
  Num.ltb a INFINITY = true -> Num.neb a INFINITY = true.
Proof. destruct a; simpl; intros H; try discriminate; reflexivity. Qed.

(** When the bounded loop ends with [clock.time == INFINITY] or raises,
    [simulate_inf] does the same, with as much fuel as there were turns. *)
Lemma repeat_simulate_inf (k : nat) :
  forall c w r,
    repeat_while_finite k c w = r ->
    match r with
    | Ok (c', w') => clock w' = INFINITY
    | Raise _ => True
    end ->
    Coordinator.simulate_inf k c w = Some r.
Proof.
  induction k as [|k IH]; intros c w r; simpl.
  - intros <- Hend. now rewrite Hend.
  - destruct (Num.ltb (clock w) INFINITY) eqn:Hlt.
    + rewrite (ltb_infinity_neb _ Hlt).
      destruct (Coordinator.cycle c w) as [[c1 w1]|e].
      * apply IH.
      * now intros <-.
    + intros <- Hend. now rewrite Hend.
Qed.

Lemma simulate_inf_more_fuel (k : nat) :
  forall n c w r,
    Coordinator.simulate_inf k c w = Some r -> (k <= n)%nat ->
    Coordinator.simulate_inf n c w = Some r.
Proof.
  induction k as [|k IH]; intros n c w r; simpl.
  - destruct (Num.neb (clock w) INFINITY) eqn:Hne; [discriminate|].
    intros H _. destruct n; simpl; now rewrite Hne.
  - destruct (Num.neb (clock w) INFINITY) eqn:Hne.
    + intros H Hle. destruct n as [|n]; [lia|]. simpl. rewrite Hne.
      destruct (Coordinator.cycle c w) as [[c1 w1]|e]; [|exact H].
      apply (IH n _ _ _ H). lia.
    + intros H _. destruct n; simpl; now rewrite Hne.
Qed.

Lemma ltb_below_infinity (a tf : num) :
  Num.ltb a tf = true -> Num.ltb a INFINITY = true.
Proof. destruct a, tf; simpl; intros H; try discriminate; reflexivity. Qed.

(** What [simulate_time] returns is what [simulate] returns for the number
    of turns that its loop took, and the clock is not below [tf] then. *)
Lemma simulate_time_loop_repeat (fuel : nat) (tf : num) :
  forall c w r,
    Coordinator.simulate_time_loop fuel tf c w = Some r ->
    exists k, (k <= fuel)%nat
      /\ repeat_while_finite k c w = r
      /\ match r with
         | Ok (c', w') => Num.ltb (clock w') tf = false
         | Raise _ => True
         end.
Proof.
  induction fuel as [|fuel IH]; intros c w r; simpl.
  - destruct (Num.ltb (clock w) tf) eqn:Hlt; [discriminate|].
    intros [= <-]. exists 0%nat. simpl. auto.
  - destruct (Num.ltb (clock w) tf) eqn:Hlt.
    + destruct (Coordinator.cycle c w) as [[c1 w1]|e] eqn:Hc.
      * intros Hr. destruct (IH _ _ _ Hr) as (k & Hk & Hrep & Hend).
        exists (S k). split; [lia|]. simpl.
        rewrite (ltb_below_infinity _ _ Hlt), Hc. auto.
      * intros [= <-]. exists 1%nat. split; [lia|]. simpl.
        rewrite (ltb_below_infinity _ _ Hlt), Hc. auto.
    + intros [= <-]. exists 0%nat. split; [lia|]. simpl. auto.
Qed.

(** ** The ports after a cycle *)

Lemma swept_drained (c : Coordinator.t) (w w' : World) :
  swept (tree_ports c) w w' -> drained c w'.
Proof.
  intros (_ & _ & Hp) id port Hin. rewrite Hp.
  destruct (decide (id ∈ tree_ports c)) as [_|Hn]; [|contradiction].
  intros (q & _ & ->)%fmap_Some. reflexivity.
Qed.

Lemma drained_layout (c c' : Coordinator.t) (w : World) :
  layout c' = layout c -> drained c w -> drained c' w.
Proof. unfold drained, tree_ports. now intros ->. Qed.

Lemma drained_clock (c : Coordinator.t) (w : World) (t : num) :
  drained c w -> drained c (set_clock t w).
Proof. intros H. exact H. Qed.

Lemma cycle_drained (c : Coordinator.t) (w : World)
    (c' : Coordinator.t) (w' : World) :
  Coordinator.cycle c w = Ok (c', w') -> drained c' w'.
Proof.
  unfold Coordinator.cycle. destruct (Coordinator.lambdaf c w) as [c1 w1].
  destruct (Coordinator.deltfcn c1 w1) as [[c2 w2]|e]; [|discriminate].
  intros [= <- <-]. apply drained_clock.
  eapply swept_drained. apply clear_swept.
Qed.

Lemma repeat_drained (k : nat) :
  forall c w c' w',
    repeat_while_finite k c w = Ok (c', w') -> drained c w -> drained c' w'.
Proof.
  induction k as [|k IH]; intros c w c' w'; simpl.
  - now intros [= <- <-].
  - destruct (Num.ltb _ _); [|now intros [= <- <-]].
    destruct (Coordinator.cycle c w) as [[c1 w1]|e] eqn:Hc; [|discriminate].
    intros Hr _. apply (IH _ _ _ _ Hr). eapply cycle_drained. eassumption.
Qed.

Lemma elem_of_concat_map {A : Type} (g : A -> list nat) (l : list A)
    (a : A) (id : nat) :
  a ∈ l -> id ∈ g a -> id ∈ concat (map g l).
Proof.
  intros Ha Hid. apply list_elem_of_In, in_concat. exists (g a).
  split; [apply in_map; now apply list_elem_of_In|now apply list_elem_of_In].
Qed.

(** The input ports of every simulator of a drained tree are empty. *)
Lemma in_empty_forallb (m : Atomic.t) (p : Ports) :
  (forall id port, In id (Atomic.in_ports m) -> p !! id = Some port ->
                   Port.values port = []) ->
  Atomic.in_empty m p = true.
Proof.
  intros H. unfold Atomic.in_empty. apply forallb_forall. intros id Hin.
  destruct (p !! id) as [port|] eqn:Hp; [|reflexivity].
  unfold Port.empty. now rewrite (H id port Hin Hp).
Qed.

Lemma drained_in_empty (c : Coordinator.t) (w : World) :
  drained c w ->
  all_sims (fun s => Atomic.in_empty (Simulator.model s) (ports w) = true) c.
Proof.
  induction c as [cs ss m tl tn pts IH] using coordinator_tree_ind.
  intros Hd. constructor.
  - apply Forall_forall. intros s Hs. apply in_empty_forallb.
    intros id port Hin Hp. apply (Hd id port); [|exact Hp].
    unfold tree_ports. simpl. rewrite !elem_of_app. right. left.
    rewrite map_map.
    apply (elem_of_concat_map
             (fun s => Atomic.in_ports (Simulator.model s)
                       ++ Atomic.out_ports (Simulator.model s)) ss s);
      [exact Hs|].
    apply elem_of_app. left. now apply list_elem_of_In.
  - rewrite Forall_forall in IH. apply Forall_forall. intros c' Hc'.
    apply IH; [exact Hc'|].
    intros id port Hin Hp. apply (Hd id port); [|exact Hp].
    unfold tree_ports. simpl. rewrite !elem_of_app. left.
    rewrite map_map.
    apply (elem_of_concat_map tree_ports cs c'); assumption.
Qed.

(** ** lambdaf and exit leave the times *)

Lemma simulator_lambdaf_times (s : Simulator.t) (w : World) :
  (fun s => (Simulator.time_last s, Simulator.time_next s))
    (fst (Simulator.lambdaf s w))
  = (Simulator.time_last s, Simulator.time_next s).
Proof.
  unfold Simulator.lambdaf. destruct (Num.eqb _ _); [|reflexivity].
  destruct (Atomic.lambdaf _ _) as [m' w']. reflexivity.
Qed.

Lemma simulator_exit_times (s : Simulator.t) (w : World) :
  (fun s => (Simulator.time_last s, Simulator.time_next s))
    (fst (Simulator.exit s w))
  = (Simulator.time_last s, Simulator.time_next s).
Proof.
  unfold Simulator.exit. destruct (Atomic.exit _ _) as [m' w']. reflexivity.
Qed.

Lemma lambdaf_timetable (c : Coordinator.t) :
  forall w, timetable (fst (Coordinator.lambdaf c w)) = timetable c.
Proof.
  induction c as [cs ss m tl tn pts IH] using coordinator_tree_ind.
  intros w. simpl.
  pose proof (for_each_map timetable Coordinator.lambdaf cs IH w) as Hcs.
  destruct (for_each Coordinator.lambdaf cs w) as [cs' w1].
  pose proof (for_each_map
                (fun s => (Simulator.time_last s, Simulator.time_next s))
                Simulator.lambdaf ss
                (proj2 (Forall_forall _ _)
                   (fun s _ w' => simulator_lambdaf_times s w')) w1) as Hss.
  destruct (for_each Simulator.lambdaf ss w1) as [ss' w2]. simpl in *.
  congruence.
Qed.

Lemma simulator_exit_frame (s : Simulator.t) (w : World) :
  atomic_frame (Simulator.model (fst (Simulator.exit s w)))
  = atomic_frame (Simulator.model s).
Proof.
  unfold Simulator.exit.
  pose proof (call_frame (Atomic.m_exit (Atomic.class (Simulator.model s)))
                (Simulator.model s) w) as H.
  unfold Atomic.exit. destruct (Atomic.call _ _ _) as [m' w']. exact H.
Qed.

Lemma exit_timetable (c : Coordinator.t) :
  forall w, timetable (fst (Coordinator.exit c w)) = timetable c
            /\ layout (fst (Coordinator.exit c w)) = layout c.
Proof.
  induction c as [cs ss m tl tn pts IH] using coordinator_tree_ind.
  intros w. simpl.
  pose proof (for_each_map timetable Coordinator.exit cs
                (Forall_impl _ _ _ IH (fun c H w => proj1 (H w))) w) as Hcs.
  pose proof (for_each_map layout Coordinator.exit cs
                (Forall_impl _ _ _ IH (fun c H w => proj2 (H w))) w) as Hcl.
  destruct (for_each Coordinator.exit cs w) as [cs' w1].
  pose proof (for_each_map
                (fun s => (Simulator.time_last s, Simulator.time_next s))
                Simulator.exit ss
                (proj2 (Forall_forall _ _)
                   (fun s _ w' => simulator_exit_times s w')) w1) as Hss.
  pose proof (for_each_map (fun s => atomic_frame (Simulator.model s))
                Simulator.exit ss
                (proj2 (Forall_forall _ _)
                   (fun s _ w' => simulator_exit_frame s w')) w1) as Hsl.
  destruct (for_each Simulator.exit ss w1) as [ss' w2]. simpl in *.
  split; congruence.
Qed.

(** ** The hierarchy that initialize builds *)

Lemma build_fold (p : Ports) (comps : list (Atomic.t + Coupled.t)) :
  forall c,
    let built := fold_left (Coordinator.add_component p) comps c in
    Coordinator.coordinators built
    = Coordinator.coordinators c
      ++ map Coordinator.fresh
           (omap (fun comp => match comp with
                              | inl _ => None
                              | inr sub => Some sub
                              end) comps)
    /\ Coordinator.simulators built
       = Coordinator.simulators c
         ++ map Simulator.__init__
              (omap (fun comp => match comp with
                                 | inl a => Some a
                                 | inr _ => None
                                 end) comps)
    /\ Coordinator.model built = Coordinator.model c.
Proof.
  induction comps as [|comp r IH]; intros c; simpl.
  - rewrite !app_nil_r. auto.
  - destruct (IH (Coordinator.add_component p c comp)) as (H1 & H2 & H3).
    rewrite H1, H2, H3.
    destruct comp as [a|sub]; simpl; rewrite <- ?app_assoc; auto.
Qed.

Lemma build_fresh (m : Coupled.t) (p : Ports) :
  let built := Coordinator._build_hierarchy (Coordinator.fresh m) p in
  Coordinator.coordinators built = map Coordinator.fresh (coupled_components m)
  /\ Coordinator.simulators built
     = map Simulator.__init__ (atomic_components m)
  /\ Coordinator.model built = m.
Proof.
  unfold Coordinator._build_hierarchy.
  destruct (build_fold p (Coupled.components m) (Coordinator.fresh m))
    as (H1 & H2 & H3).
  simpl in *. auto.
Qed.

Lemma simulator_initialize_frame (s : Simulator.t) (w : World) :
  atomic_frame (Simulator.model (fst (Simulator.initialize s w)))
  = atomic_frame (Simulator.model s).
Proof.
  unfold Simulator.initialize.
  pose proof (call_frame (Atomic.m_initialize (Atomic.class (Simulator.model s)))
                (Simulator.model s) w) as H.
  unfold Atomic.initialize. destruct (Atomic.call _ _ _) as [m' w']. exact H.
Qed.

Lemma for_each_Forall2 {A B : Type} (P : B -> A -> Prop)
    (f : A -> World -> A * World) (xs : list B) (l : list A) :
  Forall2 (fun x a => forall w, P x (fst (f a w))) xs l ->
  forall w, Forall2 P xs (fst (for_each f l w)).
Proof.
  induction 1 as [|x a xs l Ha _ IH]; intros w; simpl; [constructor|].
  specialize (Ha w). destruct (f a w) as [a' w1].
  specialize (IH w1). destruct (for_each f l w1) as [l' w2].
  constructor; assumption.
Qed.

Lemma coupled_component_weight (m sub : Coupled.t) :
  In sub (coupled_components m) ->
  (Coordinator.model_weight sub < Coordinator.model_weight m)%nat.
Proof.
  unfold coupled_components. intros Hin%list_elem_of_In.
  apply list_elem_of_omap in Hin as (comp & Hcomp & Hsome).
  destruct comp as [a|sub']; [discriminate|]. injection Hsome as ->.
  destruct m as [n comps ? ? ? ? ? ?]. simpl in *.
  pose proof (sum_list_with_in _
                (Coordinator.component_weight Coordinator.model_weight)
                _ Hcomp) as Hw.
  simpl in Hw. lia.
Qed.

(** [initialize] gives every coupled component a coordinator and every
    atomic component a simulator, at every depth. *)
Lemma initialize_mirrors (n : nat) :
  forall m w, (Coordinator.model_weight m < n)%nat ->
    mirrors m (fst (Coordinator.initialize (Coordinator.fresh m) w)).
Proof.
  induction n as [|n IH]; intros m w Hn; [lia|].
  rewrite initialize_body. cbv zeta.
  destruct (build_fresh m (ports w)) as (Hcs & Hss & Hm).
  rewrite Hcs, Hss, Hm.
  assert (Hsub : Forall2 (fun sub c => forall w',
                    mirrors sub (fst (Coordinator.initialize c w')))
                  (coupled_components m)
                  (map Coordinator.fresh (coupled_components m))).
  { apply Forall2_fmap_r. apply Forall_Forall2_diag.
    apply Forall_forall. intros sub Hin%list_elem_of_In w'.
    apply IH. apply coupled_component_weight in Hin. lia. }
  pose proof (for_each_Forall2 mirrors Coordinator.initialize _ _ Hsub w)
    as Hcs'.
  destruct (for_each Coordinator.initialize _ w) as [cs w1].
  pose proof (for_each_map (fun s => atomic_frame (Simulator.model s))
                Simulator.initialize
                (map Simulator.__init__ (atomic_components m))
                (proj2 (Forall_forall _ _)
                   (fun s _ w' => simulator_initialize_frame s w')) w1) as Hss'.
  destruct (for_each Simulator.initialize _ w1) as [ss w2].
  simpl in *.
  set (c := Coordinator.update_times _ _).
  change m with (Coordinator.model c) at 1.
  constructor.
  - subst c. simpl. rewrite Hss', map_map. reflexivity.
  - subst c. simpl. exact Hcs'.
Qed.

Lemma count_atomics_components (m : Coupled.t) :
  Utils.count_atomics m
  = (length (atomic_components m)
     + sum_list_with Utils.count_atomics (coupled_components m))%nat.
Proof.
  destruct m as [n comps ? ? ? ? ? ?].
  unfold atomic_components, coupled_components. simpl.
  induction comps as [|[a|sub] r IH]; simpl in *; unfold omap in *; lia.
Qed.

Lemma mirrors_count (m : Coupled.t) (c : Coordinator.t) :
  mirrors m c -> count_sims c = Utils.count_atomics m.
Proof.
  revert m. induction c as [cs ss m0 tl tn pts IH] using coordinator_tree_ind.
  intros m Hm. inversion Hm as [c Hss Hcs Hmod Hc]; subst. simpl in *.
  rewrite count_atomics_components.
  apply (f_equal length) in Hss. rewrite !length_map in Hss. rewrite Hss.
  f_equal.
  clear Hm Hss. revert IH.
  induction Hcs as [|sub c subs cs' Hsub _ IHl]; intros IH; simpl;
    [reflexivity|].
  inversion IH as [|? ? Hc Hr]; subst.
  rewrite (Hc _ Hsub). f_equal. apply IHl. exact Hr.
Qed.

Lemma mirrors_layout (c : Coordinator.t) :
  forall m c', mirrors m c -> layout c' = layout c -> mirrors m c'.
Proof.
  induction c as [cs ss m0 tl tn pts IH] using coordinator_tree_ind.
  intros m c' Hm Hl. destruct c' as [cs' ss' m' tl' tn' pts'].
  inversion Hm as [c Hss Hcs Hmod Hc]; subst. simpl in *.
  injection Hl as -> -> Hss' Hcs'.
  change m0 with (Coordinator.model (Coordinator.mk cs' ss' m0 tl' tn' pts)).
  constructor; simpl.
  - congruence.
  - clear Hm Hss Hss'. revert cs' Hcs' IH.
    induction Hcs as [|sub c subs cs0 Hsub _ IHl]; intros cs' Hcs' IH;
      destruct cs' as [|c1 cs1]; simpl in *; try discriminate;
      constructor.
    + inversion IH as [|? ? Hc Hr]; subst.
      injection Hcs' as H1 H2. now apply (Hc sub c1).
    + inversion IH as [|? ? Hc Hr]; subst.
      injection Hcs' as H1 H2. now apply IHl.
Qed.

(** ** ports_to_serve *)

Lemma serve_ports_spec (p : Ports) (l : list nat) :
  forall acc key id,
    serve_ports p l acc !! key = Some id ->
    acc !! key = Some id
    \/ exists port, In id l /\ p !! id = Some port
                    /\ Port.serve port = true /\ key = served_name port.
Proof.
  induction l as [|a r IH]; intros acc key id; simpl; [auto|].
  intros H. apply IH in H as [H|(port & H1 & H2)]; [|right; eauto].
  destruct (p !! a) as [pts|] eqn:Hp; [|auto].
  destruct (Port.serve pts) eqn:Hs; [|auto].
  destruct (decide (Port.parent pts +:+ "." +:+ Port.name pts = key)) as [<-|Hk].
  - rewrite lookup_insert_eq in H. injection H as <-.
    right. exists pts. auto.
  - rewrite lookup_insert_ne in H by exact Hk. auto.
Qed.

Lemma serve_ports_keeps (p : Ports) (l : list nat) :
  forall acc key, is_Some (acc !! key) ->
                  is_Some (serve_ports p l acc !! key).
Proof.
  induction l as [|a r IH]; intros acc key H; simpl; [exact H|].
  apply IH. destruct (p !! a) as [pts|]; [|exact H].
  destruct (Port.serve pts); [|exact H].
  destruct (decide (Port.parent pts +:+ "." +:+ Port.name pts = key)) as [<-|Hk].
  - rewrite lookup_insert_eq. eauto.
  - now rewrite lookup_insert_ne.
Qed.

Lemma serve_ports_has (p : Ports) (l : list nat) :
  forall acc id port,
    In id l -> p !! id = Some port -> Port.serve port = true ->
    is_Some (serve_ports p l acc !! served_name port).
Proof.
  induction l as [|a r IH]; intros acc id port Hin Hp Hs; [destruct Hin|].
  simpl. destruct Hin as [->|Hin].
  - apply serve_ports_keeps. rewrite Hp, Hs. unfold served_name.
    rewrite lookup_insert_eq. eauto.
  - eapply IH; eassumption.
Qed.

Lemma build_ports_to_serve (p : Ports) (comps : list (Atomic.t + Coupled.t)) :
  forall c key id,
    Coordinator.ports_to_serve
      (fold_left (Coordinator.add_component p) comps c) !! key = Some id ->
    Coordinator.ports_to_serve c !! key = Some id
    \/ exists a port,
         In (inl a) comps /\ In id (Atomic.in_ports a)
         /\ p !! id = Some port /\ Port.serve port = true
         /\ key = served_name port.
Proof.
  induction comps as [|comp r IH]; intros c key id; simpl; [auto|].
  intros H. apply IH in H as [H|(a & port & H1 & H2)].
  - destruct comp as [a|sub]; simpl in H.
    + apply serve_ports_spec in H as [H|(port & H1 & H2)]; [auto|].
      right. exists a, port. auto.
    + rewrite (left_id_L ∅ (∪)) in H. auto.
  - right. exists a, port. auto.
Qed.

Lemma build_ports_keeps (p : Ports) (comps : list (Atomic.t + Coupled.t)) :
  forall c key,
    is_Some (Coordinator.ports_to_serve c !! key) ->
    is_Some (Coordinator.ports_to_serve
               (fold_left (Coordinator.add_component p) comps c) !! key).
Proof.
  induction comps as [|comp r IH]; intros c key H; simpl; [exact H|].
  apply IH. destruct comp as [a|sub]; simpl.
  - now apply serve_ports_keeps.
  - now rewrite (left_id_L ∅ (∪)).
Qed.

Lemma build_ports_has (p : Ports) (comps : list (Atomic.t + Coupled.t)) :
  forall c a id port,
    In (inl a) comps -> In id (Atomic.in_ports a) ->
    p !! id = Some port -> Port.serve port = true ->
    is_Some (Coordinator.ports_to_serve
               (fold_left (Coordinator.add_component p) comps c)
             !! served_name port).
Proof.
  induction comps as [|comp r IH]; intros c a id port Hin Hid Hp Hs;
    [destruct Hin|].
  simpl. destruct Hin as [->|Hin].
  - apply build_ports_keeps. simpl.
    eapply (serve_ports_has p (Atomic.in_ports a)); eassumption.
  - eapply IH; eassumption.
Qed.

Lemma initialize_ports_to_serve (c : Coordinator.t) (w : World) :
  Coordinator.ports_to_serve (fst (Coordinator.initialize c w))
  = Coordinator.ports_to_serve (Coordinator._build_hierarchy c (ports w)).
Proof.
  rewrite initialize_body. cbv zeta.
  destruct (for_each Coordinator.initialize _ w) as [cs w1].
  destruct (for_each Simulator.initialize _ w1) as [ss w2].
  reflexivity.
Qed.

(** ** Tame models: the drivers do not raise *)

Lemma call_tame (f : Atomic.Method) (m : Atomic.t) (w : World) :
  keeps_proper f -> tame_atomic m -> tame_atomic (fst (Atomic.call f m w)).
Proof.
  intros Hf [Hcls Hs]. unfold Atomic.call.
  pose proof (Hf (Atomic.self m) (ports w) Hs) as H.
  destruct (f _ _) as [s' p']. split; [exact Hcls|exact H].
Qed.

Lemma proper_sub_finite (a b : num) :
  proper a = true -> Num.is_finite b = true -> proper (Num.sub a b) = true.
Proof. destruct a, b; simpl; intros; try discriminate; reflexivity. Qed.

Lemma proper_add_finite (a b : num) :
  Num.is_finite a = true -> proper b = true -> proper (Num.add a b) = true.
Proof. destruct a, b; simpl; intros; try discriminate; reflexivity. Qed.

Lemma sub_sigma_tame (e : num) (m : Atomic.t) :
  Num.is_finite e = true -> tame_atomic m ->
  tame_atomic (Atomic.sub_sigma e m).
Proof.
  intros He [Hcls Hs]. split; [exact Hcls|].
  unfold Atomic.ta, Atomic.sub_sigma. simpl. now apply proper_sub_finite.
Qed.

Lemma sound_next (s : Simulator.t) :
  sound s -> proper (Simulator.time_next s) = true.
Proof.
  intros ([_ Hs] & Hl & Hn). rewrite Hn. now apply proper_add_finite.
Qed.

Lemma simulator_lambdaf_sound (s : Simulator.t) (w : World) :
  sound s -> sound_at (clock w) (fst (Simulator.lambdaf s w)).
Proof.
  intros (Ht & Hl & Hn). unfold Simulator.lambdaf.
  destruct (Num.eqb _ _) eqn:Heq.
  - pose proof (call_tame (Atomic.m_lambdaf (Atomic.class (Simulator.model s)))
                  (Simulator.model s) w
                  (tame_lambdaf _ (proj1 Ht)) Ht) as H.
    unfold Atomic.lambdaf. destruct (Atomic.call _ _ _) as [m' w'].
    split; [exact H|]. split; [exact Hl|]. right. exact Heq.
  - split; [exact Ht|]. split; [exact Hl|]. left. exact Hn.
Qed.

Lemma simulator_deltfcn_sound (s : Simulator.t) (w : World) (z : Z) :
  clock w = Fin z ->
  exists s' w', Simulator.deltfcn s w = Ok (s', w')
    /\ clock w' = Fin z /\ (sound_at (Fin z) s -> sound s').
Proof.
  intros Hfin. unfold Simulator.deltfcn.
  rewrite Hfin. simpl percent_d. cbn [mbind result_bind].
  destruct (Atomic.in_empty _ _).
  - destruct (Num.neb _ _) eqn:Hne.
    + exists s, w. split; [reflexivity|]. split; [exact Hfin|].
      intros (Ht & Hl & [H|H]); [split; [|split]; assumption|].
      unfold Num.neb in Hne. rewrite H in Hne. discriminate.
    + pose proof (call_clock
        (Atomic.m_deltint (Atomic.class (Simulator.model s)))
        (Simulator.model s) w) as Hc.
      pose proof (call_tame
        (Atomic.m_deltint (Atomic.class (Simulator.model s)))
        (Simulator.model s) w) as Hk.
      unfold Atomic.deltint. destruct (Atomic.call _ _ _) as [m' w'].
      exists (Simulator.mk m' (Fin z) (Num.add (Fin z) (Atomic.ta m'))), w'.
      simpl in *. split; [reflexivity|]. split; [congruence|].
      intros (Ht & Hl & _). split; [|split; reflexivity].
      apply Hk; [apply (tame_deltint _ (proj1 Ht))|exact Ht].
  - set (e := Num.sub (Fin z) (Simulator.time_last s)).
    set (m := Atomic.sub_sigma e (Simulator.model s)).
    assert (Hm : sound_at (Fin z) s -> tame_atomic m).
    { intros (Ht & Hl & _). apply sub_sigma_tame; [|exact Ht].
      subst e. destruct (Simulator.time_last s); try discriminate.
      reflexivity. }
    destruct (Num.eqb _ _).
    + pose proof (call_clock (Atomic.m_deltcon (Atomic.class m) e) m w) as Hc.
      pose proof (call_tame (Atomic.m_deltcon (Atomic.class m) e) m w) as Hk.
      unfold Atomic.deltcon. destruct (Atomic.call _ _ _) as [m' w'].
      exists (Simulator.mk m' (Fin z) (Num.add (Fin z) (Atomic.ta m'))), w'.
      simpl in *. split; [reflexivity|]. split; [congruence|].
      intros Hs. specialize (Hm Hs). split; [|split; reflexivity].
      apply Hk; [apply (tame_deltcon _ (proj1 Hm))|exact Hm].
    + pose proof (call_clock (Atomic.m_deltext (Atomic.class m) e) m w) as Hc.
      pose proof (call_tame (Atomic.m_deltext (Atomic.class m) e) m w) as Hk.
      unfold Atomic.deltext. destruct (Atomic.call _ _ _) as [m' w'].
      exists (Simulator.mk m' (Fin z) (Num.add (Fin z) (Atomic.ta m'))), w'.
      simpl in *. split; [reflexivity|]. split; [congruence|].
      intros Hs. specialize (Hm Hs). split; [|split; reflexivity].
      apply Hk; [apply (tame_deltext _ (proj1 Hm))|exact Hm].
Qed.

Lemma cycle_steady (c : Coordinator.t) (w : World) (z : Z) :
  clock w = Fin z -> all_sims sound c ->
  exists c' w',
    Coordinator.cycle c w = Ok (c', w')
    /\ clock w' = Coordinator.time_next c'
    /\ steady c' /\ Coordinator.time_last c' = Fin z.
Proof.
  intros Hfin Hall.
  destruct (cycle_phase z sound (sound_at (Fin z)) sound)
    with (c := c) (w := w)
    as (c1 & w1 & c2 & w2 & _ & _ & H3 & H4 & H5 & H6); auto.
  - intros s w' Hw' Hs. rewrite <- Hw'. now apply simulator_lambdaf_sound.
  - intros s w' Hw'. now apply simulator_deltfcn_sound.
  - eexists _, _. split; [exact H3|]. split; [reflexivity|].
    split; [split|]; assumption.
Qed.

Lemma py_min_Forall (P : num -> Prop) (l : list num) (d : num) :
  Forall P l -> P d -> P (Num.py_min l d).
Proof.
  intros Hl Hd. destruct l as [|x r]; [exact Hd|]. simpl.
  inversion Hl as [|? ? Hx Hr]; subst. clear Hl.
  revert x Hx. induction Hr as [|y r Hy _ IH]; intros x Hx; simpl; [exact Hx|].
  destruct (Num.ltb y x); auto.
Qed.

(** The next event of a steady tree is at an integer time or at
    [INFINITY]. *)
Lemma steady_next (c : Coordinator.t) :
  steady c -> proper (Coordinator.time_next c) = true.
Proof.
  induction c as [cs ss m tl tn pts IH] using coordinator_tree_ind.
  intros [Hs Hc]. inversion Hs as [? ? ? ? ? ? Hss Hcs]; subst.
  inversion Hc as [? Hmin Hsub]; subst. simpl in *.
  unfold at_min in Hmin. simpl in Hmin. rewrite Hmin.
  apply (py_min_Forall (fun x => proper x = true)); [|reflexivity].
  unfold Coordinator.times. simpl. apply Forall_app. split.
  - apply Forall_map. rewrite Forall_forall in IH, Hcs, Hsub.
    apply Forall_forall. intros c' Hin. apply IH; [exact Hin|].
    split; [apply Hcs|apply Hsub]; exact Hin.
  - apply Forall_map. eapply Forall_impl; [exact Hss|].
    intros s. apply sound_next.
Qed.

Lemma repeat_steady (k : nat) :
  forall c w, steady c -> clock w = Coordinator.time_next c ->
    exists c' w', repeat_while_finite k c w = Ok (c', w')
      /\ steady c' /\ clock w' = Coordinator.time_next c'.
Proof.
  induction k as [|k IH]; intros c w Hs Hclock; simpl.
  - exists c, w. auto.
  - destruct (Num.ltb (clock w) INFINITY) eqn:Hlt; [|exists c, w; auto].
    pose proof (steady_next c Hs) as Hp. rewrite <- Hclock in Hp.
    destruct (clock w) as [z| | |] eqn:Hc; try discriminate.
    destruct (cycle_steady c w z Hc (proj1 Hs))
      as (c1 & w1 & -> & Hc1 & Hs1 & _).
    apply IH; assumption.
Qed.

(** [simulate] on a steady tree returns, with the tree steady. *)
Lemma simulate_steady (num_iters : Z) (c : Coordinator.t) (w : World) :
  steady c ->
  exists c' w', Coordinator.simulate num_iters c w = Ok (c', w')
    /\ steady c' /\ clock w' = Coordinator.time_next c'.
Proof.
  intros Hs. unfold Coordinator.simulate.
  rewrite (simulate_loop_repeat (Z.to_nat num_iters)) by (f_equal; lia).
  now apply repeat_steady.
Qed.

(** *** initialize makes the tree steady *)

Lemma atomics_components (P : Atomic.t -> Prop) (m : Coupled.t) :
  Forall P (atomics m) ->
  Forall P (atomic_components m)
  /\ Forall (fun sub => Forall P (atomics sub)) (coupled_components m).
Proof.
  destruct m as [n comps ? ? ? ? ? ?].
  unfold atomic_components, coupled_components. simpl.
  induction comps as [|[a|sub] r IH]; simpl; intros H.
  - split; constructor.
  - inversion H as [|? ? Ha Hr]; subst. destruct (IH Hr) as [H1 H2].
    split; [constructor; assumption|exact H2].
  - apply Forall_app in H as [Hsub Hr]. destruct (IH Hr) as [H1 H2].
    split; [exact H1|constructor; assumption].
Qed.

Lemma simulator_initialize_sound (a : Atomic.t) (w : World) (z : Z) :
  tame_atomic a -> clock w = Fin z ->
  sound (fst (Simulator.initialize (Simulator.__init__ a) w))
  /\ clock (snd (Simulator.initialize (Simulator.__init__ a) w)) = Fin z.
Proof.
  intros Ht Hfin. unfold Simulator.initialize, Atomic.initialize. simpl.
  pose proof (call_clock (Atomic.m_initialize (Atomic.class a)) a w) as Hc.
  pose proof (call_tame (Atomic.m_initialize (Atomic.class a)) a w
                (tame_initialize _ (proj1 Ht)) Ht) as Hk.
  destruct (Atomic.call _ _ _) as [m' w']. simpl in *.
  rewrite Hc, Hfin. split; [|reflexivity].
  split; [exact Hk|]. split; reflexivity.
Qed.

Lemma initialize_steady (z : Z) (n : nat) :
  forall m w, (Coordinator.model_weight m < n)%nat ->
    Forall tame_atomic (atomics m) -> clock w = Fin z ->
    let r := Coordinator.initialize (Coordinator.fresh m) w in
    (steady (fst r) /\ Coordinator.time_last (fst r) = Fin z)
    /\ clock (snd r) = Fin z.
Proof.
  induction n as [|n IH]; intros m w Hn Hm Hfin; [lia|]. cbv zeta.
  rewrite initialize_body. cbv zeta.
  destruct (build_fresh m (ports w)) as (Hcs & Hss & Hmod).
  destruct (atomics_components _ _ Hm) as [Hat Hsub].
  set (built := Coordinator._build_hierarchy _ _) in *.
  rewrite Hcs, Hss.
  destruct (for_each_Forall (fun w' => clock w' = Fin z)
              (fun c' => exists sub, c' = Coordinator.fresh sub
                           /\ In sub (coupled_components m))
              (fun c' => steady c' /\ Coordinator.time_last c' = Fin z)
              Coordinator.initialize
              (map Coordinator.fresh (coupled_components m)))
    with (w := w) as [Hcs' Hw1]; auto.
  { apply Forall_forall. intros c' _ (sub & -> & Hin) w' Hw'.
    apply IH; [|..|exact Hw'].
    - apply coupled_component_weight in Hin. lia.
    - rewrite Forall_forall in Hsub. apply Hsub. now apply list_elem_of_In. }
  { apply Forall_map. apply Forall_forall. intros sub Hin.
    exists sub. split; [reflexivity|now apply list_elem_of_In]. }
  destruct (for_each Coordinator.initialize _ w) as [cs w1]. simpl in *.
  destruct (for_each_Forall (fun w' => clock w' = Fin z)
              (fun s => exists a, s = Simulator.__init__ a /\ tame_atomic a)
              sound Simulator.initialize
              (map Simulator.__init__ (atomic_components m)))
    with (w := w1) as [Hss' Hw2]; auto.
  { apply Forall_forall. intros s _ (a & -> & Ha) w' Hw'.
    now apply simulator_initialize_sound. }
  { apply Forall_map. eapply Forall_impl; [exact Hat|].
    intros a Ha. exists a. auto. }
  destruct (for_each Simulator.initialize _ w1) as [ss w2]. simpl in *.
  destruct (update_times_at_min
              (Coordinator.mk cs ss (Coordinator.model built)
                 (Coordinator.time_last built) (Coordinator.time_next built)
                 (Coordinator.ports_to_serve built)) w2 z Hw2) as [Hmin Hlast].
  split; [|exact Hw2]. split; [|exact Hlast]. split.
  - unfold Coordinator.update_times. simpl. constructor; [exact Hss'|].
    eapply Forall_impl; [exact Hcs'|]. intros c' H. apply H.
  - constructor; [exact Hmin|]. simpl.
    eapply Forall_impl; [exact Hcs'|]. intros c' H. apply H.
Qed.

(** ** Orderly models: the clock does not go back *)

Lemma nonneg_proper (x : num) : nonneg x = true -> proper x = true.
Proof. destruct x; simpl; intros; try discriminate; reflexivity. Qed.

Lemma proper_no_nan (x : num) : proper x = true -> Num.is_nan x = false.
Proof. destruct x; simpl; intros; try discriminate; reflexivity. Qed.

Lemma nonneg_add_leb (z : Z) (x : num) :
  nonneg x = true -> Num.leb (Fin z) (Num.add (Fin z) x) = true.
Proof.
  unfold Num.leb. destruct x as [g| | |]; simpl; intros H; try discriminate;
    [|reflexivity].
  apply Z.leb_le in H. apply orb_true_iff. rewrite Z.ltb_lt, Z.eqb_eq. lia.
Qed.

Lemma nonneg_sub_elapsed (z l : Z) (x : num) :
  nonneg x = true -> Num.leb (Fin z) (Num.add (Fin l) x) = true ->
  nonneg (Num.sub x (Num.sub (Fin z) (Fin l))) = true.
Proof.
  unfold Num.leb. destruct x as [g| | |]; simpl; intros H Hle;
    try discriminate; [|reflexivity].
  apply orb_true_iff in Hle. rewrite Z.ltb_lt, Z.eqb_eq in Hle.
  apply Z.leb_le. lia.
Qed.

Lemma call_orderly (f : Atomic.Method) (m : Atomic.t) (w : World) :
  keeps_nonneg f -> orderly_atomic m ->
  orderly_atomic (fst (Atomic.call f m w)).
Proof.
  intros Hf [Hcls Hs]. unfold Atomic.call.
  pose proof (Hf (Atomic.self m) (ports w) Hs) as H.
  destruct (f _ _) as [s' p']. split; [exact Hcls|exact H].
Qed.

Lemma simulator_lambdaf_on_time (t : num) (s : Simulator.t) (w : World) :
  on_time t s -> on_time t (fst (Simulator.lambdaf s w)).
Proof.
  intros ([Hcls Hs] & Hl & Hn & Hle). unfold Simulator.lambdaf.
  destruct (Num.eqb _ _);
    [|split; [split; assumption|split; [|split]; assumption]].
  unfold Atomic.lambdaf, Atomic.call.
  pose proof (orderly_lambdaf _ Hcls (Atomic.self (Simulator.model s))
                (ports w)) as Hsig.
  destruct (Atomic.m_lambdaf _ _ _) as [s' p']. simpl in *.
  unfold on_time, orderly_atomic, scheduled, Atomic.ta in *. simpl.
  rewrite Hsig. auto.
Qed.

Lemma simulator_deltfcn_on_time (s : Simulator.t) (w : World) (z : Z) :
  clock w = Fin z ->
  exists s' w', Simulator.deltfcn s w = Ok (s', w')
    /\ clock w' = Fin z /\ (on_time (Fin z) s -> on_time (Fin z) s').
Proof.
  intros Hfin. unfold Simulator.deltfcn.
  rewrite Hfin. simpl percent_d. cbn [mbind result_bind].
  assert (Hdone : forall m', orderly_atomic m' ->
            on_time (Fin z)
              (Simulator.mk m' (Fin z) (Num.add (Fin z) (Atomic.ta m')))).
  { intros m' Hm'. split; [exact Hm'|]. split; [reflexivity|].
    split; [reflexivity|]. simpl. apply nonneg_add_leb. apply Hm'. }
  destruct (Atomic.in_empty _ _).
  - destruct (Num.neb _ _) eqn:Hne.
    + exists s, w. auto.
    + pose proof (call_clock
        (Atomic.m_deltint (Atomic.class (Simulator.model s)))
        (Simulator.model s) w) as Hc.
      pose proof (call_orderly
        (Atomic.m_deltint (Atomic.class (Simulator.model s)))
        (Simulator.model s) w) as Hk.
      unfold Atomic.deltint. destruct (Atomic.call _ _ _) as [m' w'].
      exists (Simulator.mk m' (Fin z) (Num.add (Fin z) (Atomic.ta m'))), w'.
      simpl in *. split; [reflexivity|]. split; [congruence|].
      intros (Ht & _). apply Hdone.
      apply Hk; [apply (orderly_deltint _ (proj1 Ht))|exact Ht].
  - set (e := Num.sub (Fin z) (Simulator.time_last s)).
    set (m := Atomic.sub_sigma e (Simulator.model s)).
    assert (Hm : on_time (Fin z) s -> orderly_atomic m).
    { intros ([Hcls Hs] & Hl & Hn & Hle). split; [exact Hcls|].
      subst m e. unfold Atomic.ta, Atomic.sub_sigma. simpl.
      rewrite Hn in Hle.
      destruct (Simulator.time_last s) as [l| | |]; try discriminate.
      now apply nonneg_sub_elapsed. }
    destruct (Num.eqb _ _).
    + pose proof (call_clock (Atomic.m_deltcon (Atomic.class m) e) m w) as Hc.
      pose proof (call_orderly (Atomic.m_deltcon (Atomic.class m) e) m w)
        as Hk.
      unfold Atomic.deltcon. destruct (Atomic.call _ _ _) as [m' w'].
      exists (Simulator.mk m' (Fin z) (Num.add (Fin z) (Atomic.ta m'))), w'.
      simpl in *. split; [reflexivity|]. split; [congruence|].
      intros Hs. specialize (Hm Hs). apply Hdone.
      apply Hk; [apply (orderly_deltcon _ (proj1 Hm))|exact Hm].
    + pose proof (call_clock (Atomic.m_deltext (Atomic.class m) e) m w) as Hc.
      pose proof (call_orderly (Atomic.m_deltext (Atomic.class m) e) m w)
        as Hk.
      unfold Atomic.deltext. destruct (Atomic.call _ _ _) as [m' w'].
      exists (Simulator.mk m' (Fin z) (Num.add (Fin z) (Atomic.ta m'))), w'.
      simpl in *. split; [reflexivity|]. split; [congruence|].
      intros Hs. specialize (Hm Hs). apply Hdone.
      apply Hk; [apply (orderly_deltext _ (proj1 Hm))|exact Hm].
Qed.

Lemma on_time_next (t : num) (s : Simulator.t) :
  on_time t s -> proper (Simulator.time_next s) = true.
Proof.
  intros ([_ Hs] & Hl & Hn & _). rewrite Hn.
  apply proper_add_finite; [exact Hl|now apply nonneg_proper].
Qed.

(** [time_next] of a coordinator is a number when the events of the
    simulators are. *)
Lemma tree_next_proper (c : Coordinator.t) :
  all_coords at_min c ->
  all_sims (fun s => proper (Simulator.time_next s) = true) c ->
  proper (Coordinator.time_next c) = true.
Proof.
  induction c as [cs ss m tl tn pts IH] using coordinator_tree_ind.
  intros Hc Hs. inversion Hs as [? ? ? ? ? ? Hss Hcs]; subst.
  inversion Hc as [? Hmin Hsub]; subst. simpl in *.
  unfold at_min in Hmin. simpl in Hmin. rewrite Hmin.
  apply (py_min_Forall (fun x => proper x = true)); [|reflexivity].
  unfold Coordinator.times. simpl. apply Forall_app. split.
  - apply Forall_map. rewrite Forall_forall in IH, Hcs, Hsub.
    apply Forall_forall. intros c' Hin. apply IH; auto.
  - apply Forall_map. exact Hss.
Qed.

Lemma times_no_nan (c : Coordinator.t) :
  all_coords at_min c ->
  all_sims (fun s => proper (Simulator.time_next s) = true) c ->
  no_nan (Coordinator.times c).
Proof.
  intros Hc Hs. destruct c as [cs ss m tl tn pts].
  inversion Hs as [? ? ? ? ? ? Hss Hcs]; subst.
  inversion Hc as [? Hmin Hsub]; subst. simpl in *.
  unfold Coordinator.times, no_nan. simpl. apply Forall_app. split.
  - apply Forall_map. rewrite Forall_forall in Hcs, Hsub.
    apply Forall_forall. intros c' Hin. simpl.
    apply proper_no_nan, tree_next_proper; auto.
  - apply Forall_map. eapply Forall_impl; [exact Hss|].
    intros s. apply proper_no_nan.
Qed.

(** [time_next] of a coordinator is not after any event below it. *)
Lemma tree_min_below (c : Coordinator.t) :
  all_coords at_min c ->
  all_sims (fun s => proper (Simulator.time_next s) = true) c ->
  all_sims (fun s => Num.leb (Coordinator.time_next c)
                             (Simulator.time_next s) = true) c.
Proof.
  induction c as [cs ss m tl tn pts IH] using coordinator_tree_ind.
  intros Hc Hs.
  pose proof (times_no_nan _ Hc Hs) as Hnan.
  inversion Hs as [? ? ? ? ? ? Hss Hcs]; subst.
  inversion Hc as [? Hmin Hsub]; subst. simpl in *.
  destruct (decide (Coordinator.times (Coordinator.mk cs ss m tl tn pts) = []))
    as [Hnil|Hne].
  { unfold Coordinator.times in Hnil. simpl in Hnil.
    apply app_eq_nil in Hnil as [H1 H2].
    apply map_eq_nil in H1, H2. subst. constructor; constructor. }
  destruct (py_min_spec _ (Fin 0) Hne Hnan) as [_ Hall].
  unfold at_min in Hmin. rewrite <- Hmin in Hall. simpl in Hall.
  unfold Coordinator.times in Hall. simpl in Hall.
  apply Forall_app in Hall as [Hallc Halls].
  rewrite Forall_map in Hallc, Halls.
  constructor; [exact Halls|].
  rewrite Forall_forall in IH, Hcs, Hsub, Hallc.
  apply Forall_forall. intros c' Hin.
  eapply all_sims_impl; [|apply (IH c' Hin); auto].
  intros s Hle. simpl in Hle. eapply leb_trans; [|exact Hle].
  now apply Hallc.
Qed.

(** With a child under every coordinator, [time_next] of a coordinator is
    not before the earliest event below it. *)
Lemma tree_min_above (t : num) (c : Coordinator.t) :
  populated c -> all_coords at_min c ->
  all_sims (fun s => proper (Simulator.time_next s) = true) c ->
  all_sims (fun s => Num.leb t (Simulator.time_next s) = true) c ->
  Num.leb t (Coordinator.time_next c) = true.
Proof.
  induction c as [cs ss m tl tn pts IH] using coordinator_tree_ind.
  intros Hp Hc Hs Hle.
  pose proof (times_no_nan _ Hc Hs) as Hnan.
  inversion Hs as [? ? ? ? ? ? Hss Hcs]; subst.
  inversion Hle as [? ? ? ? ? ? Hless Hlecs]; subst.
  inversion Hc as [? Hmin Hsub]; subst.
  inversion Hp as [? Hne Hpsub]; subst. simpl in *.
  destruct (py_min_spec _ (Fin 0) Hne Hnan) as [Hin _].
  unfold at_min in Hmin. rewrite <- Hmin in Hin. simpl in Hin.
  unfold Coordinator.times in Hin. simpl in Hin.
  apply in_app_or in Hin as [Hin|Hin]; apply in_map_iff in Hin
    as (x & <- & Hx); apply list_elem_of_In in Hx.
  - rewrite Forall_forall in IH, Hcs, Hsub, Hpsub, Hlecs.
    apply (IH x Hx);
      [apply Hpsub|apply Hsub|apply Hcs|apply Hlecs]; exact Hx.
  - rewrite Forall_forall in Hless. now apply Hless.
Qed.

Lemma populated_layout (c : Coordinator.t) :
  forall c', layout c' = layout c -> populated c -> populated c'.
Proof.
  induction c as [cs ss m tl tn pts IH] using coordinator_tree_ind.
  intros [cs' ss' m' tl' tn' pts'] Hl Hp.
  inversion Hp as [? Hne Hsub]; subst. simpl in *.
  injection Hl as _ _ Hss Hcs.
  constructor.
  - unfold Coordinator.times in *. simpl in *.
    intros Hnil. apply Hne. apply app_eq_nil in Hnil as [H1 H2].
    apply map_eq_nil in H1, H2. subst. simpl in *.
    symmetry in Hss, Hcs. apply map_eq_nil in Hss, Hcs. now subst.
  - simpl. clear Hne Hp Hss. revert cs' Hcs.
    induction Hsub as [|c r Hc _ IHr]; intros cs' Hcs;
      destruct cs' as [|c1 r1]; simpl in *; try discriminate; constructor.
    + inversion IH as [|? ? Hc1 Hr1]; subst. injection Hcs as H1 H2.
      now apply Hc1.
    + inversion IH as [|? ? Hc1 Hr1]; subst. injection Hcs as H1 H2.
      now apply IHr.
Qed.

Lemma on_time_weaken (t t' : num) (s : Simulator.t) :
  Num.leb t' (Simulator.time_next s) = true -> on_time t s -> on_time t' s.
Proof.
  intros H (H1 & H2 & H3 & _).
  split; [exact H1|]. split; [exact H2|]. split; [exact H3|exact H].
Qed.

Lemma all_sims_and (P Q : Simulator.t -> Prop) (c : Coordinator.t) :
  all_sims P c -> all_sims Q c -> all_sims (fun s => P s /\ Q s) c.
Proof.
  induction c as [cs ss m tl tn pts IH] using coordinator_tree_ind.
  intros HP HQ.
  inversion HP as [? ? ? ? ? ? Hps Hpc]; subst.
  inversion HQ as [? ? ? ? ? ? Hqs Hqc]; subst.
  constructor.
  - rewrite Forall_forall in *. auto.
  - rewrite Forall_forall in *. auto.
Qed.

(** After [deltfcn] at time [z] the tree is orderly again. *)
Lemma on_time_tree (z : Z) (c : Coordinator.t) :
  all_sims (on_time (Fin z)) c -> all_coords at_min c -> populated c ->
  Coordinator.time_last c = Fin z ->
  orderly_tree c /\ Num.leb (Fin z) (Coordinator.time_next c) = true.
Proof.
  intros Hs Hc Hp Hl.
  assert (Hprop : all_sims (fun s => proper (Simulator.time_next s) = true) c).
  { eapply all_sims_impl; [|exact Hs]. intros s. apply on_time_next. }
  assert (Hle : Num.leb (Fin z) (Coordinator.time_next c) = true).
  { apply tree_min_above; auto.
    eapply all_sims_impl; [|exact Hs]. intros s H. apply H. }
  split; [|exact Hle].
  split; [|split; [exact Hc|split; [exact Hp|now rewrite Hl]]].
  eapply all_sims_impl;
    [|apply (all_sims_and _ _ c Hs (tree_min_below c Hc Hprop))].
  intros s [H1 H2]. eapply on_time_weaken; eassumption.
Qed.

Lemma cycle_orderly (c : Coordinator.t) (w : World) (z : Z) :
  clock w = Fin z -> Coordinator.time_next c = Fin z -> orderly_tree c ->
  exists c' w',
    Coordinator.cycle c w = Ok (c', w')
    /\ clock w' = Coordinator.time_next c'
    /\ orderly_tree c'
    /\ Coordinator.time_last c' = Fin z
    /\ Num.leb (Fin z) (Coordinator.time_next c') = true.
Proof.
  intros Hfin Hnext (Hs & Hc & Hp & _). rewrite Hnext in Hs.
  destruct (cycle_phase z (on_time (Fin z)) (on_time (Fin z))
              (on_time (Fin z)))
    with (c := c) (w := w)
    as (c1 & w1 & c2 & w2 & _ & _ & H3 & H4 & H5 & H6); auto.
  - intros s w' _. apply simulator_lambdaf_on_time.
  - intros s w' Hw'. now apply simulator_deltfcn_on_time.
  - pose proof (cycle_layout _ _ _ H3) as Hlay. simpl in Hlay.
    pose proof (populated_layout c c2 Hlay Hp) as Hp2.
    destruct (on_time_tree z c2 H4 H5 Hp2 H6) as [Ht Hle].
    eexists _, _. split; [exact H3|]. split; [reflexivity|]. auto.
Qed.

Lemma orderly_tree_next (c : Coordinator.t) :
  orderly_tree c -> proper (Coordinator.time_next c) = true.
Proof.
  intros (Hs & Hc & _). apply tree_next_proper; [exact Hc|].
  eapply all_sims_impl; [|exact Hs]. intros s. apply on_time_next.
Qed.

Lemma repeat_orderly (k : nat) :
  forall c w, orderly_tree c -> clock w = Coordinator.time_next c ->
    exists c' w', repeat_while_finite k c w = Ok (c', w')
      /\ orderly_tree c' /\ clock w' = Coordinator.time_next c'
      /\ Num.leb (clock w) (clock w') = true.
Proof.
  induction k as [|k IH]; intros c w Ht Hclock;
    pose proof (orderly_tree_next c Ht) as Hp; rewrite <- Hclock in Hp;
    simpl.
  - exists c, w. split; [reflexivity|]. split; [exact Ht|].
    split; [exact Hclock|]. apply leb_refl. now apply proper_no_nan.
  - destruct (Num.ltb (clock w) INFINITY) eqn:Hlt.
    + destruct (clock w) as [z| | |] eqn:Hc; try discriminate.
      destruct (cycle_orderly c w z Hc (eq_sym Hclock) Ht)
        as (c1 & w1 & -> & Hc1 & Ht1 & _ & Hle).
      destruct (IH c1 w1 Ht1 Hc1) as (c' & w' & Hr & Ht' & Hc' & Hle').
      exists c', w'. split; [exact Hr|]. split; [exact Ht'|].
      split; [exact Hc'|]. eapply leb_trans; [|exact Hle'].
      now rewrite Hc1.
    + exists c, w. split; [reflexivity|]. split; [exact Ht|].
      split; [exact Hclock|]. apply leb_refl. now apply proper_no_nan.
Qed.

(** *** initialize makes the tree orderly *)

Lemma submodels_components (P : Coupled.t -> Prop) (m : Coupled.t) :
  Forall P (submodels m) ->
  P m /\ Forall (fun sub => Forall P (submodels sub)) (coupled_components m).
Proof.
  destruct m as [n comps ? ? ? ? ? ?].
  unfold coupled_components. simpl. intros H.
  inversion H as [|? ? Hm Hr]; subst. split; [exact Hm|]. clear H Hm.
  induction comps as [|[a|sub] r IH]; simpl in *.
  - constructor.
  - apply IH. exact Hr.
  - apply Forall_app in Hr as [Hsub Hr]. constructor; [exact Hsub|].
    apply IH. exact Hr.
Qed.

Lemma components_split (m : Coupled.t) :
  Coupled.components m <> [] ->
  map Coordinator.time_next (map Coordinator.fresh (coupled_components m))
  ++ map Simulator.time_next (map Simulator.__init__ (atomic_components m))
  <> [].
Proof.
  unfold coupled_components, atomic_components.
  destruct (Coupled.components m) as [|[a|sub] r]; [congruence|..];
    intros _; simpl; destruct (map _ (map _ _)); discriminate.
Qed.

Lemma simulator_initialize_on_time (a : Atomic.t) (w : World) (z : Z) :
  orderly_atomic a -> clock w = Fin z ->
  on_time (Fin z) (fst (Simulator.initialize (Simulator.__init__ a) w))
  /\ clock (snd (Simulator.initialize (Simulator.__init__ a) w)) = Fin z.
Proof.
  intros Ht Hfin. unfold Simulator.initialize, Atomic.initialize. simpl.
  pose proof (call_clock (Atomic.m_initialize (Atomic.class a)) a w) as Hc.
  pose proof (call_orderly (Atomic.m_initialize (Atomic.class a)) a w
                (orderly_initialize _ (proj1 Ht)) Ht) as Hk.
  destruct (Atomic.call _ _ _) as [m' w']. simpl in *.
  rewrite Hc, Hfin. split; [|reflexivity].
  split; [exact Hk|]. split; [reflexivity|]. split; [reflexivity|].
  simpl. apply nonneg_add_leb. apply Hk.
Qed.

Lemma initialize_on_time (z : Z) (n : nat) :
  forall m w, (Coordinator.model_weight m < n)%nat ->
    Forall orderly_atomic (atomics m) ->
    Forall (fun sub => Coupled.components sub <> []) (submodels m) ->
    clock w = Fin z ->
    let r := Coordinator.initialize (Coordinator.fresh m) w in
    (all_sims (on_time (Fin z)) (fst r)
     /\ all_coords at_min (fst r)
     /\ populated (fst r)
     /\ Coordinator.time_last (fst r) = Fin z)
    /\ clock (snd r) = Fin z.
Proof.
  induction n as [|n IH]; intros m w Hn Hm Hne Hfin; [lia|]. cbv zeta.
  rewrite initialize_body. cbv zeta.
  destruct (build_fresh m (ports w)) as (Hcs & Hss & Hmod).
  destruct (atomics_components _ _ Hm) as [Hat Hsub].
  destruct (submodels_components _ _ Hne) as [Hroot Hnsub].
  pose proof (components_split m Hroot) as Hsplit.
  set (built := Coordinator._build_hierarchy _ _) in *.
  rewrite Hcs, Hss.
  destruct (for_each_Forall (fun w' => clock w' = Fin z)
              (fun c' => exists sub, c' = Coordinator.fresh sub
                           /\ In sub (coupled_components m))
              (fun c' => all_sims (on_time (Fin z)) c'
                         /\ all_coords at_min c' /\ populated c'
                         /\ Coordinator.time_last c' = Fin z)
              Coordinator.initialize
              (map Coordinator.fresh (coupled_components m)))
    with (w := w) as [Hcs' Hw1]; auto.
  { apply Forall_forall. intros c' _ (sub & -> & Hin) w' Hw'.
    apply IH; [| | |exact Hw'].
    - apply coupled_component_weight in Hin. lia.
    - rewrite Forall_forall in Hsub. apply Hsub. now apply list_elem_of_In.
    - rewrite Forall_forall in Hnsub. apply Hnsub. now apply list_elem_of_In. }
  { apply Forall_map. apply Forall_forall. intros sub Hin.
    exists sub. split; [reflexivity|now apply list_elem_of_In]. }
  pose proof (for_each_length Coordinator.initialize
                (map Coordinator.fresh (coupled_components m)) w) as Hlc.
  destruct (for_each Coordinator.initialize _ w) as [cs w1]. simpl in *.
  destruct (for_each_Forall (fun w' => clock w' = Fin z)
              (fun s => exists a, s = Simulator.__init__ a /\ orderly_atomic a)
              (on_time (Fin z)) Simulator.initialize
              (map Simulator.__init__ (atomic_components m)))
    with (w := w1) as [Hss' Hw2]; auto.
  { apply Forall_forall. intros s _ (a & -> & Ha) w' Hw'.
    now apply simulator_initialize_on_time. }
  { apply Forall_map. eapply Forall_impl; [exact Hat|].
    intros a Ha. exists a. auto. }
  pose proof (for_each_length Simulator.initialize
                (map Simulator.__init__ (atomic_components m)) w1) as Hls.
  destruct (for_each Simulator.initialize _ w1) as [ss w2]. simpl in *.
  destruct (update_times_at_min
              (Coordinator.mk cs ss (Coordinator.model built)
                 (Coordinator.time_last built) (Coordinator.time_next built)
                 (Coordinator.ports_to_serve built)) w2 z Hw2) as [Hmin Hlast].
  split; [|exact Hw2].
  split; [|split; [|split; [|exact Hlast]]].
  - unfold Coordinator.update_times. simpl. constructor; [exact Hss'|].
    eapply Forall_impl; [exact Hcs'|]. intros c' H. apply H.
  - constructor; [exact Hmin|]. simpl.
    eapply Forall_impl; [exact Hcs'|]. intros c' H. apply H.
  - constructor.
    + unfold Coordinator.update_times, Coordinator.times. simpl.
      intros Hnil. apply Hsplit. apply app_eq_nil in Hnil as [H1 H2].
      apply map_eq_nil in H1, H2. subst cs ss. simpl in *.
      rewrite !length_map in Hlc, Hls.
      symmetry in Hlc, Hls. apply length_zero_iff_nil in Hlc, Hls.
      now rewrite Hlc, Hls.
    + simpl. eapply Forall_impl; [exact Hcs'|]. intros c' H. apply H.
Qed.

(** ** What raises at a clock that is not finite *)

Lemma for_each_r_raise {A : Type} (Q : World -> Prop) (P : exn -> Prop)
    (f : A -> World -> result (A * World)) (l : list A) :
  Forall (fun a => forall w, Q w ->
            match f a w with
            | Ok r => Q (snd r)
            | Raise e => P e
            end) l ->
  forall w, Q w ->
    match for_each_r f l w with
    | Ok r => Q (snd r)
    | Raise e => P e
    end.
Proof.
  induction 1 as [|a t Ha _ IH]; intros w Hw; simpl; [exact Hw|].
  specialize (Ha w Hw). destruct (f a w) as [[a' w1]|e]; [|exact Ha].
  specialize (IH w1 Ha). destruct (for_each_r f t w1) as [[t' w2]|e];
    [exact IH|exact IH].
Qed.

Lemma simulator_deltfcn_raise (s : Simulator.t) (w : World) :
  match Simulator.deltfcn s w with
  | Ok r => clock (snd r) = clock w
  | Raise e => percent_d (clock w) = Raise e
  end.
Proof.
  destruct (Simulator.deltfcn s w) as [r|e] eqn:H.
  - now apply simulator_deltfcn_clock in H.
  - unfold Simulator.deltfcn in H.
    destruct (percent_d (clock w)) as [x|e']; [|simpl in H; congruence].
    cbn [mbind result_bind] in H.
    destruct (Atomic.in_empty _ _).
    + destruct (Num.neb _ _); discriminate.
    + destruct (Num.eqb _ _); discriminate.
Qed.

(** What [deltfcn] raises is what formatting the clock raises. *)
Lemma deltfcn_raise (c : Coordinator.t) :
  forall w,
    match Coordinator.deltfcn c w with
    | Ok r => clock (snd r) = clock w
    | Raise e => percent_d (clock w) = Raise e
    end.
Proof.
  induction c as [cs ss m tl tn pts IH] using coordinator_tree_ind.
  intros w. simpl.
  assert (Hcs : Forall (fun c => forall w', clock w' = clock w ->
            match Coordinator.deltfcn c w' with
            | Ok r => clock (snd r) = clock w
            | Raise e => percent_d (clock w) = Raise e
            end) cs).
  { eapply Forall_impl; [exact IH|]. intros c Hc w' Hw'.
    specialize (Hc w'). rewrite Hw' in Hc. exact Hc. }
  apply (for_each_r_raise (fun w' => clock w' = clock w)
           (fun e => percent_d (clock w) = Raise e))
    with (w := Coordinator.propagate_input m w) in Hcs;
    [|apply propagate_input_clock].
  destruct (for_each_r Coordinator.deltfcn cs _) as [[cs' w1]|e];
    [|exact Hcs].
  simpl in Hcs.
  assert (Hss : Forall (fun s => forall w', clock w' = clock w ->
            match Simulator.deltfcn s w' with
            | Ok r => clock (snd r) = clock w
            | Raise e => percent_d (clock w) = Raise e
            end) ss).
  { apply Forall_forall. intros s _ w' Hw'.
    pose proof (simulator_deltfcn_raise s w') as H.
    rewrite Hw' in H. exact H. }
  apply (for_each_r_raise (fun w' => clock w' = clock w)
           (fun e => percent_d (clock w) = Raise e))
    with (w := w1) in Hss; [|exact Hcs].
  destruct (for_each_r Simulator.deltfcn ss w1) as [[ss' w2]|e];
    [|exact Hss].
  exact Hss.
Qed.

(** * Further properties of the kernel *)

(** ** The small models are tame and orderly *)

Lemma keep_proper : keeps_proper Examples.keep.
Proof. intros s p H. exact H. Qed.

Lemma hold_in_proper (x : num) :
  proper x = true -> keeps_proper (Examples.hold_in x).
Proof. intros Hx s p _. exact Hx. Qed.

Lemma ticker_tame (period : num) :
  proper period = true -> tame (Examples.ticker period).
Proof.
  intros Hp. constructor; simpl;
    auto using keep_proper, hold_in_proper.
Qed.

Lemma server_tame (d : num) : proper d = true -> tame (Examples.server d).
Proof.
  intros Hp. constructor; simpl;
    auto using keep_proper, hold_in_proper.
Qed.

Lemma keep_nonneg : keeps_nonneg Examples.keep.
Proof. intros s p H. exact H. Qed.

Lemma hold_in_nonneg (x : num) :
  nonneg x = true -> keeps_nonneg (Examples.hold_in x).
Proof. intros Hx s p _. exact Hx. Qed.

Lemma ticker_orderly (period : num) :
  nonneg period = true -> orderly (Examples.ticker period).
Proof.
  intros Hp. constructor; simpl;
    auto using keep_nonneg, hold_in_nonneg.
Qed.

Lemma coord1_steady (cls : Atomic.Class) (l n : Z) :
  tame cls -> steady (Examples.coord1 cls (Fin l) (Fin (l + n))).
Proof.
  intros Hcls. split.
  - constructor; [|constructor]. constructor; [|constructor].
    split; [split; [exact Hcls|reflexivity]|].
    split; [reflexivity|].
    unfold scheduled. simpl. f_equal. lia.
  - constructor; [reflexivity|constructor].
Qed.

Lemma coord1_orderly (cls : Atomic.Class) (l n : Z) :
  orderly cls -> 0 <= n ->
  orderly_tree (Examples.coord1 cls (Fin l) (Fin (l + n))).
Proof.
  intros Hcls Hn.
  assert (Hle : Num.leb (Fin l) (Fin (l + n)) = true).
  { unfold Num.leb. simpl. apply orb_true_iff.
    rewrite Z.ltb_lt, Z.eqb_eq. lia. }
  split; [|split; [|split]].
  - constructor; [|constructor]. constructor; [|constructor].
    split; [split; [exact Hcls|]|].
    + simpl. apply Z.leb_le. lia.
    + split; [reflexivity|]. split.
      * unfold scheduled. simpl. f_equal. lia.
      * simpl. unfold Num.leb. simpl. rewrite Z.eqb_refl. apply orb_true_r.
  - constructor; [reflexivity|constructor].
  - constructor; [discriminate|constructor].
  - exact Hle.
Qed.

(** ** simulate and inject keep the hierarchy *)

(** X1: [simulate] never changes the hierarchy: the tree of coordinators
    and simulators, their models' names, classes and port lists, and
    [ports_to_serve] are after any number of cycles what they were. *)
Theorem X1_simulate_keeps_hierarchy (num_iters : Z) (c : Coordinator.t)
    (w : World) :
  match Coordinator.simulate num_iters c w with
  | Ok (c', _) => layout c' = layout c
  | Raise _ => True
  end.
Proof.
  destruct (Coordinator.simulate num_iters c w) as [[c' w']|e] eqn:H;
    [|exact I].
  apply simulate_layout in H. exact H.
Qed.

(** X2: [inject] never changes the hierarchy, whether it accepts the
    input, refuses it or does not find the port. *)
Theorem X2_inject_keeps_hierarchy (pickle_loads : string -> result pyval)
    (c : Coordinator.t) (port : port_arg) (values : pyval) (e : num)
    (w : World) :
  match Coordinator.inject pickle_loads c port values e w with
  | Ok (_, c', _) => layout c' = layout c
  | Raise _ => True
  end.
Proof.
  destruct (Coordinator.inject pickle_loads c port values e w)
    as [[[b c'] w']|x] eqn:H; [|exact I].
  eapply inject_layout. exact H.
Qed.

(** ** The ports are emptied *)

(** X3: [clear] empties every port of the hierarchy (the input and output
    ports of every simulator's model and of every coordinator's model) and
    changes nothing else: the other ports, the name, parent, direction and
    [serve] flag of the emptied ones, the clock and the error log stay. *)
Theorem X3_clear_empties_every_port (c : Coordinator.t) (w : World) :
  swept (tree_ports c) w (Coordinator.clear c w)
  /\ drained c (Coordinator.clear c w).
Proof.
  split; [apply clear_swept|].
  eapply swept_drained. apply clear_swept.
Qed.

(** X4: when [inject] accepts an input on a port that resolves, every
    port of the hierarchy is empty when it returns: values injected on a
    port of the hierarchy do not stay in its buffer, and every simulator
    finds its inputs empty. *)
Theorem X4_inject_leaves_ports_empty (pickle_loads : string -> result pyval)
    (c : Coordinator.t) (port : port_arg) (values : pyval) (e : num)
    (w : World) (id : nat) (vs : list pyval) :
  resolves pickle_loads c port values id vs ->
  match Coordinator.inject pickle_loads c port values e w with
  | Ok (true, c', w') =>
      drained c' w'
      /\ all_sims (fun s => Atomic.in_empty (Simulator.model s) (ports w')
                            = true) c'
  | _ => True
  end.
Proof.
  intros Hres. rewrite (inject_resolved _ _ _ _ _ _ _ _ Hres).
  unfold Coordinator.inject_at.
  destruct (_ || _).
  - destruct (Coordinator.cycle c _) as [[c' w']|x] eqn:Hc; [|exact I].
    cbn [mbind result_bind]. apply cycle_drained in Hc.
    split; [exact Hc|now apply drained_in_empty].
  - destruct (percent_d (Coordinator.time_last c)); [|exact I].
    destruct (percent_d e); exact I.
Qed.

Lemma X4_witness_inject_leaves_ports_empty :
  let c := Examples.coord1 (Examples.ticker (Fin 5)) (Fin 0) (Fin 5) in
  match Coordinator.inject Examples.loads c (PObj 0) (PyList [PyInt 1])
          (Fin 3) (Examples.world (Fin 0)) with
  | Ok (true, c', w') =>
      drained c' w'
      /\ all_sims (fun s => Atomic.in_empty (Simulator.model s) (ports w')
                            = true) c'
  | _ => True
  end.
Proof.
  exact (X4_inject_leaves_ports_empty Examples.loads
           (Examples.coord1 (Examples.ticker (Fin 5)) (Fin 0) (Fin 5))
           (PObj 0) (PyList [PyInt 1]) (Fin 3) (Examples.world (Fin 0))
           0%nat [PyInt 1] (conj eq_refl eq_refl)).
Defined.

(** X5: [simulate] that starts with every port of the hierarchy empty
    returns with every port of the hierarchy empty: what the models send
    in a cycle does not outlive the cycle. *)
Theorem X5_simulate_keeps_ports_empty (num_iters : Z) (c : Coordinator.t)
    (w : World) :
  drained c w ->
  match Coordinator.simulate num_iters c w with
  | Ok (c', w') => drained c' w'
  | Raise _ => True
  end.
Proof.
  intros Hd. unfold Coordinator.simulate.
  rewrite (simulate_loop_repeat (Z.to_nat num_iters)) by (f_equal; lia).
  destruct (repeat_while_finite _ c _) as [[c' w']|e] eqn:H; [|exact I].
  eapply repeat_drained; [exact H|]. exact Hd.
Qed.

Lemma coord1_drained (cls : Atomic.Class) (tl tn t : num) :
  drained (Examples.coord1 cls tl tn) (Examples.world t).
Proof.
  intros id port Hin Hp. unfold tree_ports in Hin. simpl in Hin.
  apply elem_of_cons in Hin as [->|Hin].
  - vm_compute in Hp. injection Hp as <-. reflexivity.
  - apply elem_of_cons in Hin as [->|Hin].
    + vm_compute in Hp. injection Hp as <-. reflexivity.
    + now apply not_elem_of_nil in Hin.
Qed.

Lemma X5_witness_simulate_keeps_ports_empty :
  match Coordinator.simulate 3
          (Examples.coord1 (Examples.ticker (Fin 1)) (Fin 0) (Fin 1))
          (Examples.world (Fin 0)) with
  | Ok (c', w') => drained c' w'
  | Raise _ => True
  end.
Proof.
  exact (X5_simulate_keeps_ports_empty 3
           (Examples.coord1 (Examples.ticker (Fin 1)) (Fin 0) (Fin 1))
           (Examples.world (Fin 0))
           (coord1_drained _ _ _ _)).
Defined.

(** ** lambdaf and exit *)

(** X6: [lambdaf] changes no [time_last] and no [time_next] of the tree,
    nor the hierarchy, nor the clock: it only lets the models whose event is
    due write their outputs, which it then propagates. *)
Theorem X6_lambdaf_keeps_times (c : Coordinator.t) (w : World) :
  timetable (fst (Coordinator.lambdaf c w)) = timetable c
  /\ layout (fst (Coordinator.lambdaf c w)) = layout c
  /\ clock (snd (Coordinator.lambdaf c w)) = clock w.
Proof.
  split; [apply lambdaf_timetable|].
  split; [apply lambdaf_layout|apply coordinator_lambdaf_clock].
Qed.

(** X7: [exit] changes no [time_last] and no [time_next] of the tree, nor
    the hierarchy. *)
Theorem X7_exit_keeps_times (c : Coordinator.t) (w : World) :
  timetable (fst (Coordinator.exit c w)) = timetable c
  /\ layout (fst (Coordinator.exit c w)) = layout c.
Proof. apply exit_timetable. Qed.

(** ** The drivers *)

(** X8: [simulate(a)] followed by [simulate(b)] is [simulate(a + b)], for
    [a] and [b] that are not negative; an exception in the first part is
    the exception of the whole. *)
Theorem X8_simulate_in_two_parts (a b : Z) (c : Coordinator.t) (w : World) :
  0 <= a -> 0 <= b ->
  Coordinator.simulate (a + b) c w
  = match Coordinator.simulate a c w with
    | Ok (c', w') => Coordinator.simulate b c' w'
    | Raise e => Raise e
    end.
Proof. apply simulate_add. Qed.

Lemma X8_witness_simulate_in_two_parts :
  let c := Examples.coord1 (Examples.ticker (Fin 1)) (Fin 0) (Fin 1) in
  let w := Examples.world (Fin 0) in
  Coordinator.simulate (1 + 2) c w
  = match Coordinator.simulate 1 c w with
    | Ok (c', w') => Coordinator.simulate 2 c' w'
    | Raise e => Raise e
    end.
Proof.
  exact (X8_simulate_in_two_parts 1 2
           (Examples.coord1 (Examples.ticker (Fin 1)) (Fin 0) (Fin 1))
           (Examples.world (Fin 0)) ltac:(lia) ltac:(lia)).
Defined.

(** X9: started with [clock.time = time_next], [simulate_inf] does what
    [simulate(n)] does whenever [simulate(n)] ends with
    [clock.time == INFINITY] or raises: the loops differ only in the bound
    on the number of cycles. *)
Theorem X9_simulate_inf_as_simulate (num_iters : Z) (fuel : nat)
    (c : Coordinator.t) (w : World) :
  clock w = Coordinator.time_next c ->
  match Coordinator.simulate num_iters c w with
  | Ok (_, w') => clock w' = INFINITY
  | Raise _ => True
  end ->
  (Z.to_nat num_iters <= fuel)%nat ->
  Coordinator.simulate_inf fuel c w
  = Some (Coordinator.simulate num_iters c w).
Proof.
  intros Hclock Hend Hfuel. unfold Coordinator.simulate in *.
  rewrite (set_clock_same w _ Hclock) in *.
  rewrite (simulate_loop_repeat (Z.to_nat num_iters)) in *
    by (f_equal; lia).
  apply (simulate_inf_more_fuel (Z.to_nat num_iters)); [|exact Hfuel].
  apply repeat_simulate_inf; [reflexivity|].
  destruct (repeat_while_finite _ c w) as [[c' w']|e]; exact Hend.
Qed.

Lemma X9_witness_simulate_inf_as_simulate :
  let c := Examples.coord1 (Examples.server (Fin 10)) (Fin 0) (Fin 10) in
  let w := Examples.world (Fin 10) in
  Coordinator.simulate_inf 5 c w = Some (Coordinator.simulate 5 c w).
Proof.
  refine (X9_simulate_inf_as_simulate 5 5
            (Examples.coord1 (Examples.server (Fin 10)) (Fin 0) (Fin 10))
            (Examples.world (Fin 10)) eq_refl _ _).
  - vm_compute. reflexivity.
  - simpl. lia.
Defined.

(** X10: when [simulate_time(time_interv)] returns, after [k] turns of its
    loop, it has done what [simulate(k)] does, and the clock is not below
    [tf = time_next + time_interv]; when [time_next] is not below [tf] at
    the start (as for [time_interv <= 0]) it runs no cycle. *)
Theorem X10_simulate_time_as_simulate (fuel : nat) (time_interv : num)
    (c : Coordinator.t) (w : World) :
  let tf := Num.add (Coordinator.time_next c) time_interv in
  match Coordinator.simulate_time fuel time_interv c w with
  | None => True
  | Some r =>
      exists k, (k <= fuel)%nat
        /\ Coordinator.simulate (Z.of_nat k) c w = r
        /\ match r with
           | Ok (_, w') => Num.ltb (clock w') tf = false
           | Raise _ => True
           end
  end
  /\ (Num.ltb (Coordinator.time_next c) tf = false ->
      Coordinator.simulate_time fuel time_interv c w
      = Some (Ok (c, set_clock (Coordinator.time_next c) w))).
Proof.
  cbv zeta. unfold Coordinator.simulate_time. cbv zeta.
  change (clock (set_clock (Coordinator.time_next c) w))
    with (Coordinator.time_next c).
  split.
  - destruct (Coordinator.simulate_time_loop _ _ _ _) as [r|] eqn:H;
      [|exact I].
    apply simulate_time_loop_repeat in H as (k & Hk & Hr & Hend).
    exists k. split; [exact Hk|]. split.
    + unfold Coordinator.simulate.
      rewrite (simulate_loop_repeat k) by lia. exact Hr.
    + destruct r as [[c' w']|e]; exact Hend.
  - intros Hlt. destruct fuel; simpl; now rewrite Hlt.
Qed.

(** ** What initialize builds *)

(** X11: [initialize] on a newly constructed coordinator builds a tree that
    mirrors the model: at every depth, one coordinator per coupled component
    and one simulator per atomic component, in the order of the components,
    each over its component (for a simulator: the name, the ports and the
    class of the atomic model). *)
Theorem X11_initialize_mirrors_model (m : Coupled.t) (w : World) :
  mirrors m (fst (Coordinator.initialize (Coordinator.fresh m) w)).
Proof.
  apply (initialize_mirrors (S (Coordinator.model_weight m))). lia.
Qed.

(** X12: the tree that [initialize] builds has as many simulators as
    [Utils.count_atomics] counts atomic components in the model, and
    [simulate] keeps that number. *)
Theorem X12_initialize_counts_atomics (m : Coupled.t) (w : World)
    (num_iters : Z) :
  let r := Coordinator.initialize (Coordinator.fresh m) w in
  count_sims (fst r) = Utils.count_atomics m
  /\ match Coordinator.simulate num_iters (fst r) (snd r) with
     | Ok (c', _) => count_sims c' = Utils.count_atomics m
     | Raise _ => True
     end.
Proof.
  cbv zeta.
  pose proof (initialize_mirrors (S (Coordinator.model_weight m)) m w
                (Nat.lt_succ_diag_r _)) as Hm.
  split; [now apply mirrors_count|].
  destruct (Coordinator.simulate _ _ _) as [[c' w']|e] eqn:H; [|exact I].
  apply simulate_layout in H. simpl in H.
  apply mirrors_count. eapply mirrors_layout; eassumption.
Qed.

Lemma initialize_table_entries (m : Coupled.t) (w : World) (key : string)
    (id : nat) :
  Coordinator.ports_to_serve
    (fst (Coordinator.initialize (Coordinator.fresh m) w)) !! key = Some id ->
  exists a port,
    In (inl a) (Coupled.components m) /\ In id (Atomic.in_ports a)
    /\ ports w !! id = Some port /\ Port.serve port = true
    /\ key = served_name port.
Proof.
  rewrite initialize_ports_to_serve.
  unfold Coordinator._build_hierarchy. simpl. intros H.
  apply build_ports_to_serve in H as [H|H]; [|exact H].
  simpl in H. rewrite lookup_empty in H. discriminate.
Qed.

(** X13: after [initialize], the keys of [ports_to_serve] are the names
    ["parent.name"] of the served input ports of the atomic components that
    the model has directly: every entry is such a port, and every such port
    has its key in the table.  The served ports of models further down are
    not in the table of the root. *)
Theorem X13_ports_to_serve_direct_only (m : Coupled.t) (w : World) :
  let table := Coordinator.ports_to_serve
                 (fst (Coordinator.initialize (Coordinator.fresh m) w)) in
  (forall key id, table !! key = Some id ->
     exists a port,
       In (inl a) (Coupled.components m) /\ In id (Atomic.in_ports a)
       /\ ports w !! id = Some port /\ Port.serve port = true
       /\ key = served_name port)
  /\ (forall a id port,
        In (inl a) (Coupled.components m) -> In id (Atomic.in_ports a) ->
        ports w !! id = Some port -> Port.serve port = true ->
        is_Some (table !! served_name port)).
Proof.
  cbv zeta. split.
  - intros key id. apply initialize_table_entries.
  - rewrite initialize_ports_to_serve.
    unfold Coordinator._build_hierarchy. simpl.
    intros a id port Hin Hid Hp Hs. eapply build_ports_has; eassumption.
Qed.

(** X14: on a root model whose components are all coupled, [initialize]
    leaves [ports_to_serve] empty, so [inject] by name finds no port,
    whatever the served ports of the models below: it logs the error and
    returns [True] without any effect (or raises what the deserializer
    raises). *)
Theorem X14_inject_by_name_below_root
    (pickle_loads : string -> result pyval) (m : Coupled.t) (w : World)
    (name : string) (values : pyval) (e : num) (w1 : World) :
  atomic_components m = [] ->
  let c := fst (Coordinator.initialize (Coordinator.fresh m) w) in
  Coordinator.ports_to_serve c = ∅
  /\ Coordinator.inject pickle_loads c (PStr name) values e w1
     = match map_r (Coordinator.decode pickle_loads)
               (Coordinator.as_list values) with
       | Ok _ => Ok (true, c, log_error ("Port '" +:+ name +:+ "' not found") w1)
       | Raise x => Raise x
       end.
Proof.
  intros Hnone. cbv zeta.
  assert (Hempty : Coordinator.ports_to_serve
            (fst (Coordinator.initialize (Coordinator.fresh m) w)) = ∅).
  { apply map_eq. intros key. rewrite lookup_empty.
    destruct (_ !! key) as [id|] eqn:Hk; [|reflexivity]. exfalso.
    destruct (initialize_table_entries m w key id Hk)
      as (a & port & Hin & _).
    assert (Ha : a ∈ atomic_components m).
    { unfold atomic_components. apply list_elem_of_omap.
      exists (inl a). split; [now apply list_elem_of_In|reflexivity]. }
    rewrite Hnone in Ha. now apply not_elem_of_nil in Ha. }
  split; [exact Hempty|].
  unfold Coordinator.inject.
  destruct (map_r _ _) as [vs|x]; cbn [mbind result_bind]; [|reflexivity].
  rewrite Hempty, lookup_empty. reflexivity.
Qed.

Lemma X14_witness_inject_by_name_below_root :
  let c := fst (Coordinator.initialize (Coordinator.fresh nested_model)
                  (Examples.world (Fin 0))) in
  Coordinator.ports_to_serve c = ∅
  /\ Coordinator.inject Examples.loads c (PStr "a.i_in") (PyList [PyStr "x"])
       (Fin 0) (Examples.world (Fin 0))
     = match map_r (Coordinator.decode Examples.loads)
               (Coordinator.as_list (PyList [PyStr "x"])) with
       | Ok _ => Ok (true, c,
                     log_error ("Port '" +:+ "a.i_in" +:+ "' not found")
                       (Examples.world (Fin 0)))
       | Raise x => Raise x
       end.
Proof.
  exact (X14_inject_by_name_below_root Examples.loads nested_model
           (Examples.world (Fin 0)) "a.i_in" (PyList [PyStr "x"]) (Fin 0)
           (Examples.world (Fin 0)) eq_refl).
Defined.

(** ** Tame models *)

(** X15: with times that are integers or infinities (every [sigma] a
    Python [int] or [INFINITY], as the delays of the devstone tests are), on
    a tree of tame models (no method sets [sigma] to [-inf] or [nan]) that
    is between two cycles (every simulator scheduled from a finite
    [time_last], every coordinator at the minimum of its children),
    [simulate] raises nothing, whatever the number of iterations, and
    leaves the tree so, with the clock at [time_next].  Times that are
    finite floats are not covered: there the sum of a coordinator rounds and
    its [time_next] can miss the minimum ([rounded_clock_goes_back]). *)
Theorem X15_simulate_of_tame_models_returns (num_iters : Z)
    (c : Coordinator.t) (w : World) :
  steady c ->
  exists c' w',
    Coordinator.simulate num_iters c w = Ok (c', w')
    /\ steady c' /\ clock w' = Coordinator.time_next c'.
Proof. apply simulate_steady. Qed.

Lemma X15_witness_simulate_of_tame_models_returns :
  exists c' w',
    Coordinator.simulate 3
      (Examples.coord1 (Examples.ticker (Fin 1)) (Fin 0) (Fin 1))
      (Examples.world (Fin 0)) = Ok (c', w')
    /\ steady c' /\ clock w' = Coordinator.time_next c'.
Proof.
  exact (X15_simulate_of_tame_models_returns 3
           (Examples.coord1 (Examples.ticker (Fin 1)) (Fin 0) (Fin 1))
           (Examples.world (Fin 0))
           (coord1_steady (Examples.ticker (Fin 1)) 0 1
              (ticker_tame (Fin 1) eq_refl))).
Defined.

(** X16: [initialize] at a finite clock time of a newly constructed
    coordinator over tame models, whose [sigma] is an integer or
    [INFINITY] to begin with, leaves the tree between two cycles, with
    [time_last] at the clock, which it does not move. *)
Theorem X16_initialize_of_tame_models (m : Coupled.t) (w : World) (z : Z) :
  Forall tame_atomic (atomics m) -> clock w = Fin z ->
  let r := Coordinator.initialize (Coordinator.fresh m) w in
  steady (fst r)
  /\ Coordinator.time_last (fst r) = Fin z
  /\ clock (snd r) = Fin z.
Proof.
  intros Hm Hfin. cbv zeta.
  destruct (initialize_steady z (S (Coordinator.model_weight m)) m w
              (Nat.lt_succ_diag_r _) Hm Hfin) as [[H1 H2] H3].
  auto.
Qed.

Lemma X16_witness_initialize_of_tame_models :
  let r := Coordinator.initialize
             (Coordinator.fresh
                (Examples.one_child (Examples.ticker (Fin 1)) (Fin 1)))
             (Examples.world (Fin 0)) in
  steady (fst r)
  /\ Coordinator.time_last (fst r) = Fin 0
  /\ clock (snd r) = Fin 0.
Proof.
  refine (X16_initialize_of_tame_models
            (Examples.one_child (Examples.ticker (Fin 1)) (Fin 1))
            (Examples.world (Fin 0)) 0 _ eq_refl).
  constructor; [|constructor].
  split; [exact (ticker_tame (Fin 1) eq_refl)|reflexivity].
Defined.

(** ** Orderly models *)

(** X17: with times that are integers or infinities, on a tree of orderly
    models (transitions leave [sigma] non-negative, the output function
    leaves it as it is) in which every coordinator has a child, [simulate]
    raises nothing and the clock does not go back: it ends at or after the
    [time_next] it started from, no event of a simulator is before it, and
    [time_last <= time_next] at the root.  Times that are finite floats are
    not covered: there the clock can go back by a rounding error
    ([rounded_clock_goes_back]). *)
Theorem X17_simulate_clock_does_not_go_back (num_iters : Z)
    (c : Coordinator.t) (w : World) :
  orderly_tree c ->
  exists c' w',
    Coordinator.simulate num_iters c w = Ok (c', w')
    /\ orderly_tree c'
    /\ clock w' = Coordinator.time_next c'
    /\ Num.leb (Coordinator.time_next c) (clock w') = true.
Proof.
  intros Ht. unfold Coordinator.simulate.
  rewrite (simulate_loop_repeat (Z.to_nat num_iters)) by (f_equal; lia).
  destruct (repeat_orderly (Z.to_nat num_iters) c
              (set_clock (Coordinator.time_next c) w) Ht eq_refl)
    as (c' & w' & H1 & H2 & H3 & H4).
  exists c', w'. auto.
Qed.

Lemma X17_witness_simulate_clock_does_not_go_back :
  let c := Examples.coord1 (Examples.ticker (Fin 1)) (Fin 0) (Fin 1) in
  exists c' w',
    Coordinator.simulate 3 c (Examples.world (Fin 0)) = Ok (c', w')
    /\ orderly_tree c'
    /\ clock w' = Coordinator.time_next c'
    /\ Num.leb (Coordinator.time_next c) (clock w') = true.
Proof.
  exact (X17_simulate_clock_does_not_go_back 3
           (Examples.coord1 (Examples.ticker (Fin 1)) (Fin 0) (Fin 1))
           (Examples.world (Fin 0))
           (coord1_orderly (Examples.ticker (Fin 1)) 0 1
              (ticker_orderly (Fin 1) eq_refl) ltac:(lia))).
Defined.

(** X18: [initialize] at a finite clock time of a newly constructed
    coordinator over orderly models with a non-negative [sigma], in a model
    where every coupled model has a component, leaves the tree orderly:
    no event is before the clock, and [time_last] (the clock)
    [<= time_next]. *)
Theorem X18_initialize_of_orderly_models (m : Coupled.t) (w : World)
    (z : Z) :
  Forall orderly_atomic (atomics m) ->
  Forall (fun sub => Coupled.components sub <> []) (submodels m) ->
  clock w = Fin z ->
  let r := Coordinator.initialize (Coordinator.fresh m) w in
  orderly_tree (fst r)
  /\ Coordinator.time_last (fst r) = Fin z
  /\ Num.leb (Fin z) (Coordinator.time_next (fst r)) = true
  /\ clock (snd r) = Fin z.
Proof.
  intros Hm Hne Hfin. cbv zeta.
  destruct (initialize_on_time z (S (Coordinator.model_weight m)) m w
              (Nat.lt_succ_diag_r _) Hm Hne Hfin)
    as [(H1 & H2 & H3 & H4) H5].
  destruct (on_time_tree z _ H1 H2 H3 H4) as [Ht Hle].
  auto.
Qed.

Lemma X18_witness_initialize_of_orderly_models :
  let r := Coordinator.initialize
             (Coordinator.fresh
                (Examples.one_child (Examples.ticker (Fin 1)) (Fin 1)))
             (Examples.world (Fin 0)) in
  orderly_tree (fst r)
  /\ Coordinator.time_last (fst r) = Fin 0
  /\ Num.leb (Fin 0) (Coordinator.time_next (fst r)) = true
  /\ clock (snd r) = Fin 0.
Proof.
  refine (X18_initialize_of_orderly_models
            (Examples.one_child (Examples.ticker (Fin 1)) (Fin 1))
            (Examples.world (Fin 0)) 0 _ _ eq_refl).
  - constructor; [|constructor].
    split; [exact (ticker_orderly (Fin 1) eq_refl)|reflexivity].
  - constructor; [discriminate|constructor].
Defined.

(** ** ParallelCoordinator.deltfcn, awaited *)

(** X19: when every submitted [sim.deltfcn] has run before the driver
    thread recomputes the times (the schedule that waiting for the futures
    would force), [ParallelCoordinator.deltfcn] ends in the state in which
    the sequential [Coordinator.deltfcn] returns. *)
Theorem X19_parallel_deltfcn_when_awaited (done : nat) (c : Coordinator.t)
    (w : World) (r : Coordinator.t * World) :
  sims_at_most done c ->
  Coordinator.deltfcn c w = Ok r ->
  ParallelCoordinator.deltfcn done c w = r.
Proof. intros Hmost. now apply parallel_deltfcn_awaited. Qed.

Lemma X19_witness_parallel_deltfcn_when_awaited :
  exists r,
    Coordinator.deltfcn
      (Examples.coord1 (Examples.ticker (Fin 1)) (Fin 0) (Fin 1))
      (Examples.world (Fin 1)) = Ok r
    /\ ParallelCoordinator.deltfcn 1
         (Examples.coord1 (Examples.ticker (Fin 1)) (Fin 0) (Fin 1))
         (Examples.world (Fin 1)) = r.
Proof.
  eexists. split; [vm_compute; reflexivity|].
  apply (X19_parallel_deltfcn_when_awaited 1
           (Examples.coord1 (Examples.ticker (Fin 1)) (Fin 0) (Fin 1))).
  - constructor; [simpl; lia|constructor].
  - vm_compute. reflexivity.
Defined.

(** ** A clock that is not finite *)

Lemma deltfcn_off_finite_clock (c : Coordinator.t) (w : World) :
  Num.is_finite (clock w) = false -> (0 < count_sims c)%nat ->
  exists e, percent_d (clock w) = Raise e
            /\ Coordinator.deltfcn c w = Raise e.
Proof.
  intros Hinf Hsims. pose proof (deltfcn_raise c w) as Hr.
  destruct (Coordinator.deltfcn c w) as [r|e] eqn:H.
  - destruct (deltfcn_returns_without_sims (clock w) c Hinf w r eq_refl H)
      as [Hzero _]. lia.
  - exists e. auto.
Qed.

(** X20: at a clock that is not finite, [deltfcn] of a coordinator with at
    least one simulator in its tree raises what formatting the clock with
    ["%d"] raises ([OverflowError] at an infinity, [ValueError] at
    [nan]). *)
Theorem X20_deltfcn_raises_off_finite_clock (c : Coordinator.t) (w : World) :
  Num.is_finite (clock w) = false -> (0 < count_sims c)%nat ->
  exists e, percent_d (clock w) = Raise e
            /\ Coordinator.deltfcn c w = Raise e.
Proof. apply deltfcn_off_finite_clock. Qed.

Lemma X20_witness_deltfcn_raises_off_finite_clock :
  exists e, percent_d PInf = Raise e
            /\ Coordinator.deltfcn
                 (Examples.coord1 (Examples.ticker (Fin 1)) (Fin 0) (Fin 1))
                 (Examples.world PInf) = Raise e.
Proof.
  refine (X20_deltfcn_raises_off_finite_clock
            (Examples.coord1 (Examples.ticker (Fin 1)) (Fin 0) (Fin 1))
            (Examples.world PInf) eq_refl _).
  simpl. lia.
Defined.

(** X21: [inject] on a port that resolves, with an offset [e] that makes
    [time_last + e] a [nan], raises [ValueError] as soon as the tree has a
    simulator: the window test lets [nan] through, and the cycle cannot
    format the clock. *)
Theorem X21_inject_at_nan_time_raises (pickle_loads : string -> result pyval)
    (c : Coordinator.t) (port : port_arg) (values : pyval) (e : num)
    (w : World) (id : nat) (vs : list pyval) :
  resolves pickle_loads c port values id vs ->
  Num.add (Coordinator.time_last c) e = NaN ->
  (0 < count_sims c)%nat ->
  Coordinator.inject pickle_loads c port values e w = Raise ValueError.
Proof.
  intros Hres Hnan Hsims. rewrite (inject_resolved _ _ _ _ _ _ _ _ Hres).
  unfold Coordinator.inject_at. rewrite Hnan. simpl.
  unfold Coordinator.cycle.
  set (w0 := set_clock NaN _).
  pose proof (coordinator_lambdaf_clock c w0) as Hc.
  pose proof (lambdaf_count_sims c w0) as Hn.
  destruct (Coordinator.lambdaf c w0) as [c1 w1]. simpl in *.
  destruct (deltfcn_off_finite_clock c1 w1) as (x & Hx & ->).
  - rewrite Hc. reflexivity.
  - lia.
  - rewrite Hc in Hx. simpl in Hx. injection Hx as <-. reflexivity.
Qed.

Lemma X21_witness_inject_at_nan_time_raises :
  Coordinator.inject Examples.loads
    (Examples.coord1 (Examples.ticker (Fin 5)) (Fin 0) (Fin 5))
    (PObj 0) (PyList [PyInt 1]) NaN (Examples.world (Fin 0))
  = Raise ValueError.
Proof.
  refine (X21_inject_at_nan_time_raises Examples.loads
            (Examples.coord1 (Examples.ticker (Fin 5)) (Fin 0) (Fin 5))
            (PObj 0) (PyList [PyInt 1]) NaN (Examples.world (Fin 0))
            0%nat [PyInt 1] (conj eq_refl eq_refl) eq_refl _).
  simpl. lia.
Defined.

(** ** simulate_time and simulate_inf on tame models *)

Lemma simulate_time_loop_steady (fuel : nat) (tf : num) :
  forall c w, steady c -> clock w = Coordinator.time_next c ->
    match Coordinator.simulate_time_loop fuel tf c w with
    | Some (Ok (c', w')) =>
        steady c' /\ clock w' = Coordinator.time_next c'
        /\ Num.ltb (clock w') tf = false
    | Some (Raise _) => False
    | None => True
    end.
Proof.
  induction fuel as [|fuel IH]; intros c w Hs Hclock; simpl.
  - destruct (Num.ltb (clock w) tf) eqn:Hlt; auto.
  - destruct (Num.ltb (clock w) tf) eqn:Hlt; [|auto].
    pose proof (steady_next c Hs) as Hp. rewrite <- Hclock in Hp.
    destruct (clock w) as [z| | |] eqn:Hc; try discriminate.
    + destruct (cycle_steady c w z Hc (proj1 Hs))
        as (c1 & w1 & -> & Hc1 & Hs1 & _).
      now apply IH.
    + destruct tf; discriminate.
Qed.

Lemma simulate_inf_steady (fuel : nat) :
  forall c w, steady c -> clock w = Coordinator.time_next c ->
    match Coordinator.simulate_inf fuel c w with
    | Some (Ok (c', w')) => steady c' /\ clock w' = INFINITY
    | Some (Raise _) => False
    | None => True
    end.
Proof.
  induction fuel as [|fuel IH]; intros c w Hs Hclock; simpl.
  - destruct (Num.neb (clock w) INFINITY) eqn:Hne; [exact I|].
    split; [exact Hs|]. unfold Num.neb in Hne.
    destruct (clock w); simpl in Hne; try discriminate. reflexivity.
  - destruct (Num.neb (clock w) INFINITY) eqn:Hne.
    + pose proof (steady_next c Hs) as Hp. rewrite <- Hclock in Hp.
      destruct (clock w) as [z| | |] eqn:Hc; try discriminate.
      destruct (cycle_steady c w z Hc (proj1 Hs))
        as (c1 & w1 & -> & Hc1 & Hs1 & _).
      now apply IH.
    + split; [exact Hs|]. unfold Num.neb in Hne.
      destruct (clock w); simpl in Hne; try discriminate. reflexivity.
Qed.

(** X22: with times that are integers or infinities, on a tree of tame
    models between two cycles, neither [simulate_time] nor [simulate_inf]
    (started with [clock.time = time_next]) raises: when they return, the
    tree is between two cycles again, the clock of [simulate_time] is not
    below [tf = time_next + time_interv], and that of [simulate_inf] is
    [INFINITY].  Times that are finite floats are not covered
    ([rounded_clock_goes_back]). *)
Theorem X22_unbounded_drivers_of_tame_models (fuel : nat)
    (time_interv : num) (c : Coordinator.t) (w : World) :
  steady c ->
  match Coordinator.simulate_time fuel time_interv c w with
  | Some (Ok (c', w')) =>
      steady c' /\ clock w' = Coordinator.time_next c'
      /\ Num.ltb (clock w')
           (Num.add (Coordinator.time_next c) time_interv) = false
  | Some (Raise _) => False
  | None => True
  end
  /\ (clock w = Coordinator.time_next c ->
      match Coordinator.simulate_inf fuel c w with
      | Some (Ok (c', w')) => steady c' /\ clock w' = INFINITY
      | Some (Raise _) => False
      | None => True
      end).
Proof.
  intros Hs. split.
  - unfold Coordinator.simulate_time. cbv zeta.
    now apply simulate_time_loop_steady.
  - now apply simulate_inf_steady.
Qed.

Lemma X22_witness_unbounded_drivers_of_tame_models :
  let c := Examples.coord1 (Examples.server (Fin 10)) (Fin 0) (Fin 10) in
  let w := Examples.world (Fin 10) in
  match Coordinator.simulate_time 5 (Fin 3) c w with
  | Some (Ok (c', w')) =>
      steady c' /\ clock w' = Coordinator.time_next c'
      /\ Num.ltb (clock w')
           (Num.add (Coordinator.time_next c) (Fin 3)) = false
  | Some (Raise _) => False
  | None => True
  end
  /\ (clock w = Coordinator.time_next c ->
      match Coordinator.simulate_inf 5 c w with
      | Some (Ok (c', w')) => steady c' /\ clock w' = INFINITY
      | Some (Raise _) => False
      | None => True
      end).
Proof.
  exact (X22_unbounded_drivers_of_tame_models 5 (Fin 3)
           (Examples.coord1 (Examples.server (Fin 10)) (Fin 0) (Fin 10))
           (Examples.world (Fin 10))
           (coord1_steady (Examples.server (Fin 10)) 0 10
              (server_tame (Fin 10) eq_refl))).
Defined.

(** ** The construction in test_behavior *)

Lemma bind_call_positional (params : list (string * pyarg))
    (args : list pyarg) :
  bind_call params args [] = bind_args (map snd params) args.
Proof.
  unfold bind_call, bind_args. rewrite length_map.
  destruct (_ <=? _)%nat; [|reflexivity]. simpl.
  f_equal. f_equal. change map with (@fmap list _). apply fmap_drop.
Qed.

Lemma bind_call_unknown_keyword (params : list (string * pyarg))
    (args : list pyarg) (kwargs : list (string * pyarg)) (k : string)
    (v : pyarg) :
  In (k, v) kwargs -> ~ In k (map fst params) ->
  bind_call params args kwargs = Raise TypeError.
Proof.
  intros Hin Hnot. unfold bind_call.
  destruct (_ <=? _)%nat; [|reflexivity]. cbv zeta.
  destruct (forallb _ kwargs) eqn:Hall; [|reflexivity]. exfalso.
  rewrite forallb_forall in Hall. specialize (Hall _ Hin). simpl in Hall.
  apply existsb_exists in Hall as (p & Hp & Heq).
  apply String.eqb_eq in Heq. apply Hnot. rewrite <- Heq.
  apply in_map. apply list_elem_of_In in Hp. apply list_elem_of_In.
  eapply subseteq_drop. exact Hp.
Qed.

(** X23: a call [Coordinator(model, ...)] with a keyword that is none of
    [clock], [flatten] and [chain] raises [TypeError], whatever the model
    and the other arguments; the construction in [test_behavior],
    [Coordinator(root, flatten=False, force_chain=False)], is such a call,
    so the body of the test never reaches [initialize].  Without keywords
    the call is the positional one. *)
Theorem X23_test_behavior_cannot_construct
    (flatten to_chain : Coupled.t -> Ports -> Coupled.t * Ports)
    (m : Coupled.t) (w : World) :
  Devstone.test_behavior_coordinator flatten to_chain m w = Raise TypeError
  /\ (forall args kwargs k v,
        In (k, v) kwargs -> ~ In k ["clock"; "flatten"; "chain"] ->
        Devstone.construct flatten to_chain m args kwargs w = Raise TypeError)
  /\ (forall args,
        Devstone.construct flatten to_chain m args [] w
        = Coordinator.__init__ flatten to_chain m args w)
  /\ Devstone.construct flatten to_chain m []
       [("flatten", ArgBool false); ("chain", ArgBool false)] w
     = Coordinator.__init__ flatten to_chain m [] w.
Proof.
  split; [reflexivity|]. split; [|split].
  - intros args kwargs k v Hin Hnot. unfold Devstone.construct.
    rewrite (bind_call_unknown_keyword
               [("clock", ArgNone); ("flatten", ArgBool false);
                ("chain", ArgBool false)] args kwargs k v Hin Hnot).
    reflexivity.
  - intros args. unfold Devstone.construct, Coordinator.__init__.
    rewrite bind_call_positional. reflexivity.
  - reflexivity.
Qed.

(** ** inject with the default offset *)

(** C10 (amended): in a state with [time_last <= time_next], [inject] with
    a [Port] and the default [e = 0] takes the accepting branch: it is the
    cycle run at [time_last] on the extended port, and it never returns
    [False].  [initialize] at a finite clock time establishes
    [time_last <= time_next] when every coupled model of the model has a
    component and the atomic models are orderly with a [sigma] that is not
    negative, so [inject] with the default offset is accepted then.  The
    inequality is not established in general
    ([C10_counterexample_childless]). *)
Theorem C10_inject_default_offset_accepted
    (pickle_loads : string -> result pyval)
    (c : Coordinator.t) (id : nat) (values : pyval) (w : World) :
  let accepted (c0 : Coordinator.t) :=
    Coordinator.inject pickle_loads c0 (PObj id) values (Fin 0) w
    = match Coordinator.cycle c0
              (set_clock (Coordinator.time_last c0)
                 (set_ports
                    (alter (Port.extend (Coordinator.as_list values)) id
                       (ports w)) w)) with
      | Ok (c', w') => Ok (true, c', w')
      | Raise e => Raise e
      end
    /\ forall c' w',
         Coordinator.inject pickle_loads c0 (PObj id) values (Fin 0) w
         <> Ok (false, c', w') in
  (Num.leb (Coordinator.time_last c) (Coordinator.time_next c) = true ->
   accepted c)
  /\ (forall m w0 z,
        Forall orderly_atomic (atomics m) ->
        Forall (fun sub => Coupled.components sub <> []) (submodels m) ->
        clock w0 = Fin z ->
        let c0 := fst (Coordinator.initialize (Coordinator.fresh m) w0) in
        Num.leb (Coordinator.time_last c0) (Coordinator.time_next c0) = true
        /\ accepted c0).
Proof.
  cbv zeta.
  assert (Hacc : forall c0,
    Num.leb (Coordinator.time_last c0) (Coordinator.time_next c0) = true ->
    Coordinator.inject pickle_loads c0 (PObj id) values (Fin 0) w
    = match Coordinator.cycle c0
              (set_clock (Coordinator.time_last c0)
                 (set_ports
                    (alter (Port.extend (Coordinator.as_list values)) id
                       (ports w)) w)) with
      | Ok (c', w') => Ok (true, c', w')
      | Raise e => Raise e
      end
    /\ forall c' w',
         Coordinator.inject pickle_loads c0 (PObj id) values (Fin 0) w
         <> Ok (false, c', w')).
  { intros c0 Hle.
    assert (Heq : Coordinator.inject pickle_loads c0 (PObj id) values (Fin 0) w
      = match Coordinator.cycle c0
                (set_clock (Coordinator.time_last c0)
                   (set_ports
                      (alter (Port.extend (Coordinator.as_list values)) id
                         (ports w)) w)) with
        | Ok (c', w') => Ok (true, c', w')
        | Raise e => Raise e
        end).
    { unfold Coordinator.inject, Coordinator.inject_at.
      rewrite add_zero_r, Hle. simpl.
      destruct (Coordinator.cycle _ _) as [[c' w']|e]; reflexivity. }
    split; [exact Heq|].
    intros c' w'. rewrite Heq.
    destruct (Coordinator.cycle _ _) as [[c'' w'']|e]; discriminate. }
  split; [apply Hacc|].
  intros m w0 z Hm Hne Hfin.
  destruct (initialize_on_time z (S (Coordinator.model_weight m)) m w0
              (Nat.lt_succ_diag_r _) Hm Hne Hfin)
    as [(H1 & H2 & H3 & H4) _].
  destruct (on_time_tree z _ H1 H2 H3 H4) as [_ Hle].
  rewrite <- H4 in Hle. split; [exact Hle|]. apply Hacc. exact Hle.
Qed.

(** With [time_last = 0 <= time_next = 5], [inject(port, 7)] is the cycle
    at clock 0. *)
Lemma C10_witness_inject_default_offset :
  let c := Examples.coord1 (Examples.ticker (Fin 5)) (Fin 0) (Fin 5) in
  let w := Examples.world (Fin 0) in
  Coordinator.inject Examples.loads c (PObj 0) (PyInt 7) (Fin 0) w
  = match Coordinator.cycle c
            (set_clock (Fin 0)
               (set_ports (alter (Port.extend [PyInt 7]) 0%nat (ports w)) w))
    with
    | Ok (c', w') => Ok (true, c', w')
    | Raise e => Raise e
    end.
Proof.
  exact (proj1 (proj1 (C10_inject_default_offset_accepted Examples.loads
    (Examples.coord1 (Examples.ticker (Fin 5)) (Fin 0) (Fin 5))
    0%nat (PyInt 7) (Examples.world (Fin 0))) eq_refl)).
Defined.

(** C10, the aside of the claim: [time_last <= time_next] does not hold
    after every [initialize].  A coordinator over a model without
    components, initialized at clock 5, has [time_last = 5] and
    [time_next = 5 + (0 - 5) = 0], and [inject] with a [Port] and the
    default offset returns [False]. *)
Lemma C10_counterexample_childless :
  let r := Coordinator.initialize Examples.childless (Examples.world (Fin 5)) in
  Coordinator.time_last (fst r) = Fin 5
  /\ Coordinator.time_next (fst r) = Fin 0
  /\ Num.leb (Coordinator.time_last (fst r)) (Coordinator.time_next (fst r))
     = false
  /\ exists w',
       Coordinator.inject Examples.loads (fst r) (PObj 0) (PyInt 7) (Fin 0)
         (snd r) = Ok (false, fst r, w')
       /\ ports w' = ports (snd r) /\ clock w' = Fin 5.
Proof.
  cbv zeta. split; [vm_compute; reflexivity|].
  split; [vm_compute; reflexivity|]. split; [vm_compute; reflexivity|].
  eexists. split; [vm_compute; reflexivity|]. split; reflexivity.
Qed.
